(** * rescom: the legacy C++ code generator and the accessors it generates

    The development has two layers.

    - The generator itself ([LegacyCppCodeGenerator.cpp], [StringHelpers.cpp],
      [main.cpp]): functions writing text to an output stream, with the
      stream (buffer and number base), the file system and the exception
      raised by [loadFile] made explicit.
    - The program text the generator writes ([compareSlot], [lowerBound],
      [getResource], [contains], [getText], [begin], [end]): the C++ held in
      the string literals of [writeAccessFunction], read as C++ over the
      table declared by [writeResources].  Reads of the table are checked:
      a read outside the array has no defined result.

    [Generator] and [Main] take a run whose command line was parsed, whose
    files are read to their end and whose counters stay below 2^32;
    [AsWritten] has the same functions with the endings this leaves out.
    [Compiled] reads the index entries as a compiler does, [Cxx] holds the
    accessors as syntax with their text and their value, and [Naming]
    says what a stem and a case conversion are. *)

From Stdlib Require Import List Arith Lia NArith ZArith String Ascii Bool.
From Stdlib Require Import DecimalString HexadecimalString DecimalN.
From Stdlib Require Import Sorting.Sorted Relations.
From Equations Require Import Equations.
Import ListNotations.

#[local] Open Scope string_scope.
#[local] Open Scope list_scope.

(** ** Configuration.hpp (the fields the generator reads) *)

Module Config.

(** A file-system path, in its generic (slash separated) form. *)
Definition path := string.

Record Input := mkInput {
  key : string;
  filePath : path;
  size : N
}.

Record Configuration := mkConfiguration {
  configurationFilePath : path;
  tabulationSize : nat;
  inputs : list Input
}.

End Config.

(** ** Text helpers *)

(** Line feed and double quote, which a string literal cannot hold. *)
Definition nl : string := String "010"%char EmptyString.
Definition dquote : string := String "034"%char EmptyString.

(** A C++ literal ending in a line feed. *)
Definition ln (s : string) : string := s ++ nl.

(** [std::string(count, ' ')] *)
Fixpoint spaces (count : nat) : string :=
  match count with
  | O => EmptyString
  | S n => String " "%char (spaces n)
  end.

(** Decimal and hexadecimal text of an unsigned number, as [operator<<]
    writes it under [std::dec] and [std::hex] (lower case, no prefix). *)
Definition decimal (n : N) : string :=
  DecimalString.NilEmpty.string_of_uint (N.to_uint n).

Definition hexadecimal (n : N) : string :=
  HexadecimalString.NilEmpty.string_of_uint (N.to_hex_uint n).

(** ** StringHelpers.cpp *)

Module StringHelpers.

(** [a eqn: e]: a value together with the equation that names it. *)
Definition inspect {A : Type} (a : A) : {b : A | a = b} := exist _ a eq_refl.

(** [std::string::find(c, pos)]: the first position from [pos] on that
    holds [c]; [None] is [npos]. *)
Fixpoint find (str : string) (c : ascii) (pos : nat) : option nat :=
  match str with
  | EmptyString => None
  | String x rest =>
      match pos with
      | O => if Ascii.eqb x c then Some O else option_map S (find rest c O)
      | S p => option_map S (find rest c p)
      end
  end.

(** [str[pos] = c], for a position of the string. *)
Fixpoint set (str : string) (pos : nat) (c : ascii) : string :=
  match str with
  | EmptyString => EmptyString
  | String x rest =>
      match pos with
      | O => String c rest
      | S p => String x (set rest p c)
      end
  end.

Lemma length_set str : forall pos c, String.length (set str pos c) = String.length str.
Proof.
  induction str as [|x rest IH]; intros [|p] c; simpl; auto.
Qed.

Lemma find_range str c :
  forall pos next, find str c pos = Some next -> pos <= next < String.length str.
Proof.
  induction str as [|x rest IH]; intros pos next H; simpl in *; [discriminate|].
  destruct pos as [|p].
  - destruct (Ascii.eqb x c).
    + injection H as <-. lia.
    + destruct (find rest c 0) as [n|] eqn:E; [|discriminate].
      injection H as <-. apply IH in E. lia.
  - destruct (find rest c p) as [n|] eqn:E; [|discriminate].
    injection H as <-. apply IH in E. lia.
Qed.

(** The body and the step of the loop of [replaceAll], entered with [pos]
    a position [find] returned. *)
Equations? replaceAll_loop (toReplace replacement : ascii) (str : string)
    (pos : nat) : string by wf (String.length str - pos) lt :=
  replaceAll_loop toReplace replacement str pos
    with inspect (find (set str pos replacement) toReplace (pos + 1)) => {
    | exist _ (Some next) e :=
        replaceAll_loop toReplace replacement (set str pos replacement) next;
    | exist _ None e := set str pos replacement }.
Proof.
  apply find_range in e. rewrite length_set in *. lia.
Qed.

(** [void replaceAll(std::string& str, char toReplace, char replacement)]:
    the string it leaves in [str]. *)
Definition replaceAll (str : string) (toReplace replacement : ascii) : string :=
  match find str toReplace 0 with
  | Some pos => replaceAll_loop toReplace replacement str pos
  | None => str
  end.

(** [std::toupper] and [std::tolower] on an [unsigned char], "C" locale. *)
Definition toupper (c : ascii) : ascii :=
  let n := N_of_ascii c in
  if ((97 <=? n) && (n <=? 122))%N then ascii_of_N (n - 32) else c.

Definition tolower (c : ascii) : ascii :=
  let n := N_of_ascii c in
  if ((65 <=? n) && (n <=? 90))%N then ascii_of_N (n + 32) else c.

(** [std::transform] over the characters of a string. *)
Fixpoint transform (f : ascii -> ascii) (str : string) : string :=
  match str with
  | EmptyString => EmptyString
  | String c rest => String (f c) (transform f rest)
  end.

Definition toUpper (str : string) : string := transform toupper str.

Definition toLower (str : string) : string := transform tolower str.

(** [" \t\v\f\r\n"] *)
Definition Spaces : list ascii :=
  [" "; "009"; "011"; "012"; "013"; "010"]%char.

Definition inSpaces (c : ascii) : bool := existsb (Ascii.eqb c) Spaces.

(** [view.find_first_not_of(Spaces)] and [view.find_last_not_of(Spaces)];
    [None] is [npos]. *)
Fixpoint find_first_not_of (view : string) : option nat :=
  match view with
  | EmptyString => None
  | String c rest =>
      if inSpaces c then option_map S (find_first_not_of rest) else Some O
  end.

Fixpoint find_last_not_of (view : string) : option nat :=
  match view with
  | EmptyString => None
  | String c rest =>
      match find_last_not_of rest with
      | Some i => Some (S i)
      | None => if inSpaces c then None else Some O
      end
  end.

(** [std::min(position, n)] where [npos] is the largest [size_t], and
    [position + 1], which wraps to 0 at [npos]. *)
Definition min_npos (position : option nat) (n : nat) : nat :=
  match position with
  | Some i => Nat.min i n
  | None => n
  end.

Definition succ_npos (position : option nat) : nat :=
  match position with
  | Some i => S i
  | None => O
  end.

(** [view.remove_prefix(n)] and [view.remove_suffix(n)], called with [n]
    at most the size. *)
Fixpoint remove_prefix (n : nat) (view : string) : string :=
  match n, view with
  | O, _ => view
  | S n', String _ rest => remove_prefix n' rest
  | S _, EmptyString => EmptyString
  end.

Fixpoint keep (n : nat) (view : string) : string :=
  match n, view with
  | O, _ => EmptyString
  | S n', String c rest => String c (keep n' rest)
  | S _, EmptyString => EmptyString
  end.

Definition remove_suffix (n : nat) (view : string) : string :=
  keep (String.length view - n) view.

Definition trim (view : string) : string :=
  let view :=
    remove_prefix (min_npos (find_first_not_of view) (String.length view)) view in
  remove_suffix
    (String.length view
     - Nat.min (succ_npos (find_last_not_of view)) (String.length view)) view.

(** [view.find(text)]: the first position where [text] starts; [None] is
    [npos]. *)
Fixpoint find_text (view text : string) : option nat :=
  if String.prefix text view then Some O
  else match view with
       | EmptyString => None
       | String _ rest => option_map S (find_text rest text)
       end.

Definition removeComment (view oneLineCommentStart : string) : string :=
  match find_text view oneLineCommentStart with
  | Some commentStartPosition =>
      remove_suffix (String.length view - commentStartPosition) view
  | None => view
  end.

(** Modelled from the spec: [format] is declared in StringHelpers.hpp, which
    is not among the sources.  The output artifact of the spec (a guard pair
    named after the configuration stem, a symbol named from the ordinal)
    and the call sites fix it as the pattern with each [{}] replaced by the
    next argument; arguments are not scanned again, and a brace that opens
    no [{}] is copied. *)
Fixpoint format (pattern : string) (args : list string) : string :=
  match pattern with
  | EmptyString => EmptyString
  | String "{" (String "}" rest) =>
      match args with
      | a :: args' => a ++ format rest args'
      | [] => String "{" (String "}" (format rest []))
      end
  | String c rest => String c (format rest args)
  end.

End StringHelpers.

(** ** std::filesystem::path, generic format *)

Module Path.

Fixpoint hasSeparator (p : string) : bool :=
  match p with
  | EmptyString => false
  | String c rest => Ascii.eqb c "/" || hasSeparator rest
  end.

(** [path::filename]: what follows the last separator. *)
Fixpoint filename (p : string) : string :=
  match p with
  | EmptyString => EmptyString
  | String c rest =>
      if hasSeparator rest then filename rest
      else if Ascii.eqb c "/" then rest else p
  end.

(** The part of [f] before its last period, when it has one. *)
Fixpoint beforeLastDot (f : string) : option string :=
  match f with
  | EmptyString => None
  | String c rest =>
      match beforeLastDot rest with
      | Some s => Some (String c s)
      | None => if Ascii.eqb c "." then Some EmptyString else None
      end
  end.

(** [path::stem]: the file name without its extension; a leading period
    starts no extension, and dot and dot-dot are their own stems. *)
Definition stem (p : string) : string :=
  let f := filename p in
  if String.eqb f "." || String.eqb f ".." then f
  else match f with
       | EmptyString => EmptyString
       | String c rest =>
           match beforeLastDot rest with
           | Some s => String c s
           | None => f
           end
       end.

Definition generic_string (p : string) : string := p.

End Path.

(** ** std::ostream: the characters written and the base of integers *)

Module Stream.

Inductive basefield : Type := dec | hex.

Record ostream := mkStream {
  content : string;
  base : basefield
}.

(** A fresh [std::ostringstream]. *)
Definition empty : ostream := {| content := EmptyString; base := dec |}.

(** [output << s] for a string. *)
Definition put (os : ostream) (s : string) : ostream :=
  {| content := content os ++ s; base := base os |}.

(** [output << n] for an unsigned integer. *)
Definition put_unsigned (os : ostream) (n : N) : ostream :=
  put os (match base os with
          | dec => decimal n
          | hex => hexadecimal n
          end).

(** [output << std::hex], [output << std::dec]. *)
Definition setbase (os : ostream) (b : basefield) : ostream :=
  {| content := content os; base := b |}.

End Stream.

Import Stream.

Notation "os << s" := (Stream.put os s) (at level 50, left associativity).
Notation "os <<# n" := (Stream.put_unsigned os n) (at level 50, left associativity).
Notation "os <<% b" := (Stream.setbase os b) (at level 50, left associativity).

(** ** The file system seen by the generator *)

Module FileSystem.

Record t := mkFileSystem {
  (** content of the files that can be opened for reading; what opens is
      read to its end ([AsWritten.Disk] has the file that is not) *)
  files : Config.path -> option (list Byte.byte);
  (** whether a path can be opened for writing *)
  writable : Config.path -> bool;
  (** the paths [loadFile] tried to open, oldest first *)
  opened : list Config.path
}.

Definition record_open (fs : t) (p : Config.path) : t :=
  {| files := files fs; writable := writable fs; opened := opened fs ++ [p] |}.

(** Creating or truncating a file and writing [text] to it. *)
Definition write (fs : t) (p : Config.path) (text : string) : t :=
  {| files := fun q => if String.eqb q p then Some (list_byte_of_string text)
                       else files fs q;
     writable := writable fs;
     opened := opened fs |}.

End FileSystem.

(** A call that returns or throws [std::runtime_error(what)]. *)
Inductive outcome (A : Type) : Type :=
| Returned (a : A)
| Thrown (what : string).
Arguments Returned {A} a.
Arguments Thrown {A} what.

(** ** LegacyCppCodeGenerator.cpp *)

Module Generator.

Import StringHelpers.

Definition NamespaceForResourceData : string := "rescom".

(** [loadFile] where a file that opens is read to its end: the whole
    content of the file, or the exception for a file that does not open.
    [AsWritten.loadFile] has the third ending, a file that opens and whose
    reading throws. *)
Definition loadFile (fs : FileSystem.t) (filePath : Config.path)
  : FileSystem.t * outcome (list Byte.byte) :=
  let fs' := FileSystem.record_open fs filePath in
  match FileSystem.files fs filePath with
  | Some buffer => (fs', Returned buffer)
  | None =>
      (fs', Thrown (format "unable to read '{}'" [Path.generic_string filePath]))
  end.

Definition HeaderProtectionMacroPrefix : string := "RESCOM_GENERATED_FILE_".

Record LegacyCppCodeGenerator := mkGenerator {
  _configuration : Config.Configuration;
  _tabulation : string;
  _headerProtectionMacroName : string
}.

(** The constructor. *)
Definition create (configuration : Config.Configuration) : LegacyCppCodeGenerator :=
  {| _configuration := configuration;
     _tabulation := spaces (Config.tabulationSize configuration);
     _headerProtectionMacroName :=
       HeaderProtectionMacroPrefix
       ++ toUpper (Path.generic_string
                     (Path.stem (Config.configurationFilePath configuration))) |}.

(** [std::string makeResourceName(unsigned int i)] *)
Definition makeResourceName (i : N) : string := format "R{}" [decimal i].

Section Writers.

(** The default argument of [tab], declared in
    LegacyCppCodeGenerator.hpp. *)
Variable tabDefault : nat.

Variable this : LegacyCppCodeGenerator.

(** [tab(count)]: [count] copies of the tabulation. *)
Fixpoint tab (count : nat) : string :=
  match count with
  | O => EmptyString
  | S n => tab n ++ _tabulation this
  end.

Definition Includes : list string :=
  ["<iterator>"; "<string_view>"; "<cstring>"].

Fixpoint writeIncludes (includes : list string) (output : ostream) : ostream :=
  match includes with
  | [] => output
  | include :: rest =>
      writeIncludes rest (output << format (ln "#include {}") [include])
  end.

Definition resourceFileStem : string :=
  toLower (Path.generic_string
             (Path.stem (Config.configurationFilePath (_configuration this)))).

Definition writeFileHeader (output : ostream) : ostream :=
  let output := output << ln "// Generated by Rescom" in
  let output := output << format (ln "#ifndef {}" ++ ln "#define {}")
                            [_headerProtectionMacroName this;
                             _headerProtectionMacroName this] in
  let output := writeIncludes Includes output in
  let output := output << nl in
  let output := output << tab 0 << "namespace " << NamespaceForResourceData
                       << "::" << resourceFileStem << (nl ++ ln "{") in
  output << tab 1 << ln "struct Resource"
         << tab 1 << ln "{"
         << tab 2 << ln "char const* const key;"
         << tab 2 << ln "char const* const bytes;"
         << tab 2 << ln "unsigned int const size;"
         << nl
         << tab 2 << ln "constexpr Resource(char const* key, unsigned int size, char const* bytes)"
         << tab 2 << ln ": key(key), bytes(bytes), size(size) {}"
         << tab 1 << (ln "};" ++ nl).

Definition writeFileFooter (output : ostream) : ostream :=
  let output := output << tab 0 << "} // namespace " << NamespaceForResourceData
                       << "::" << resourceFileStem << nl in
  output << "#endif // " << _headerProtectionMacroName this << nl.

(** The loop of [writeResource] on a buffer of fewer than 2^32 bytes, which
    its [unsigned int] counter reaches without wrapping; [i] is the
    position of the first byte of [bytes] in the buffer.
    [AsWritten.writeBytes] is the loop with its counter, and
    [writeBytes_below_wrap] their agreement. *)
Fixpoint writeBytes (bytes : list Byte.byte) (i : N) (output : ostream) : ostream :=
  match bytes with
  | [] => output
  | b :: rest =>
      let output := if (0 <? i)%N then output << ", " else output in
      let output := output << "'\x" <<# Byte.to_N b << "'" in
      writeBytes rest (i + 1) output
  end.

Definition writeResource (input : Config.Input) (inputPosition : N)
    (bytes : list Byte.byte) (output : ostream) : ostream :=
  let output := output << tab 2
                       << format "static constexpr char const {}[] = {"
                            [makeResourceName inputPosition] in
  let output := output <<% hex in
  let output := writeBytes bytes 0 output in
  let output := output <<% dec in
  output << ln "};".

(** The first loop of [writeResources]: load each file into the buffer
    ([assign] replaces what the buffer held) and write its array.  The
    exception of [loadFile] leaves the loop.  The counter [i] is an
    [unsigned int]; it is taken below 2^32, where it does not wrap
    ([AsWritten.writeData] has the counter). *)
Fixpoint writeData (inputs : list Config.Input) (i : N)
    (fs : FileSystem.t) (output : ostream)
  : FileSystem.t * ostream * outcome unit :=
  match inputs with
  | [] => (fs, output, Returned tt)
  | input :: rest =>
      match loadFile fs (Config.filePath input) with
      | (fs', Thrown what) => (fs', output, Thrown what)
      | (fs', Returned buffer) =>
          writeData rest (i + 1) fs' (writeResource input i buffer output)
      end
  end.

(** The second loop of [writeResources]: one index entry per input. *)
Fixpoint writeIndex (inputs : list Config.Input) (i : N) (output : ostream)
  : ostream :=
  match inputs with
  | [] => output
  | input :: rest =>
      let resourceName := makeResourceName i in
      writeIndex rest (i + 1)
        (output << tab 3 << ("{" ++ dquote) << Config.key input
                << (dquote ++ ", ") <<# Config.size input << ", "
                << resourceName << ln "},")
  end.

Definition writeResources (fs : FileSystem.t) (output : ostream)
  : FileSystem.t * ostream * outcome unit :=
  let inputs := Config.inputs (_configuration this) in
  match inputs with
  | [] => (fs, output, Returned tt)
  | _ :: _ =>
      let output := output << tab 1 << ln "namespace details {" in
      let output := output << tab 2
                           << "static constexpr unsigned int const ResourcesCount = "
                           <<# N.of_nat (List.length inputs) << ln ";" in
      match writeData inputs 0 fs output with
      | (fs', output, Thrown what) => (fs', output, Thrown what)
      | (fs', output, Returned _) =>
          let output := output << tab 2
                               << ln "static constexpr Resource const ResourcesIndex[ResourcesCount] = " in
          let output := output << tab 2 << ln "{" in
          let output := writeIndex inputs 0 output in
          let output := output << tab 2 << ln "};" in
          let output := output << tab 1 << (ln "} // namespace details" ++ nl) in
          (fs', output, Returned tt)
      end
  end.

Definition isEmpty (inputs : list Config.Input) : bool :=
  match inputs with
  | [] => true
  | _ :: _ => false
  end.

Definition writeAccessFunction (output : ostream) : ostream :=
  let empty := isEmpty (Config.inputs (_configuration this)) in
  let output := output << tab 1 << ln "namespace details {" in
  let output :=
    if negb empty then
      let output := output << tab 2
        << (ln "constexpr bool compareSlot(Resource const& slot, char const * key) { return std::string_view(slot.key) < key; }" ++ nl) in
      output << tab 2 << ln "template<class ForwardIt, class Compare>"
             << tab 2 << ln "constexpr ForwardIt lowerBound(ForwardIt first, ForwardIt last, char const* value, Compare compare)"
             << tab 2 << ln "{"
             << tab 3 << ln "if (value == nullptr) return last;"
             << tab 3 << ln "typename std::iterator_traits<ForwardIt>::difference_type count;"
             << tab 3 << ln "typename std::iterator_traits<ForwardIt>::difference_type step;"
             << tab 3 << ln "count = std::distance(first, last);"
             << tab 3 << ln "ForwardIt it;"
             << tab 3 << ln "while (count > 0u) {"
             << tab 4 << ln "it = first; step = count / 2; std::advance(it, step);"
             << tab 4 << ln "if (compare(*it, value)) { first = ++it; count -= step + 1; } else { count = step; }"
             << tab 3 << ln "}"
             << tab 3 << ln "return first->key != nullptr && std::strcmp(value, first->key) == 0 ? first : last;"
             << tab 2 << ln "}"
    else output in
  let output := output << tab 2
    << ln "static constexpr Resource const NullResource{nullptr, 0u, nullptr};" in
  let output := output << tab 1 << (ln "} // namespace details" ++ nl) in
  let output := output << tab 1 << (ln "using ResourceIterator = Resource const*;" ++ nl) in
  let output :=
    if empty then
      output << tab tabDefault << ln "inline constexpr Resource const& getResource(char const*)"
             << tab tabDefault << ln "{"
             << tab 2 << ln "return details::NullResource;"
             << tab tabDefault << ln "}"
    else
      output << tab tabDefault << ln "inline constexpr Resource const& getResource(char const* key)"
             << tab tabDefault << ln "{"
             << tab 2 << ln "auto it = details::lowerBound(std::begin(details::ResourcesIndex), std::end(details::ResourcesIndex), key, details::compareSlot);"
             << nl
             << tab 2 << ln "if (it == std::end(details::ResourcesIndex))"
             << tab 3 << ln "return details::NullResource;"
             << nl
             << tab 2 << ln "return *it;"
             << tab tabDefault << ln "}" in
  let output := output << nl in
  let output := output << tab tabDefault << ln "inline constexpr bool contains(char const* key)"
                       << tab tabDefault << ln "{"
                       << tab 2 << ln "return &getResource(key) != &details::NullResource;"
                       << tab tabDefault << ln "}" in
  let output := output << nl
                       << tab tabDefault << ln "inline constexpr std::string_view getText(char const* key)"
                       << tab tabDefault << ln "{"
                       << tab 2 << ln "auto const& resource = getResource(key);"
                       << nl
                       << tab 2 << ln "return std::string_view{resource.bytes, resource.size};"
                       << tab tabDefault << ln "}" in
  let output := output << nl
                       << tab tabDefault << ln "inline constexpr ResourceIterator begin()"
                       << tab tabDefault << ln "{" in
  let output := output << tab 2
                       << (if empty then ln "return &details::NullResource;"
                           else ln "return std::begin(details::ResourcesIndex);") in
  let output := output << tab tabDefault << ln "}" in
  let output := output << nl
                       << tab tabDefault << ln "inline constexpr ResourceIterator end()"
                       << tab tabDefault << ln "{" in
  let output := output << tab 2
                       << (if empty then ln "return &details::NullResource;"
                           else ln "return std::end(details::ResourcesIndex);") in
  output << tab tabDefault << ln "}".

Definition generate (fs : FileSystem.t) (output : ostream)
  : FileSystem.t * ostream * outcome unit :=
  let output := writeFileHeader output in
  match writeResources fs output with
  | (fs', output, Thrown what) => (fs', output, Thrown what)
  | (fs', output, Returned _) =>
      let output := writeAccessFunction output in
      let output := writeFileFooter output in
      (fs', output, Returned tt)
  end.

End Writers.

End Generator.

(** ** main.cpp *)

Module Main.

Import StringHelpers Generator.

(** What [main] reads of [cxxopts::ParseResult]: whether an option was
    given and its value. *)
Record ParseResult := mkParseResult {
  version : bool;
  input : option string;
  output : option string;
  generator : option string
}.

Record World := mkWorld {
  fs : FileSystem.t;
  cout : string;
  cerr : string
}.

(** How the process ends: [return code], or an exception that leaves
    [main]. *)
Inductive exit : Type :=
| Exit (code : Z)
| Terminate.

Definition releaseResults (parseResult : ParseResult) (outputStream : ostream)
    (w : World) : World * outcome unit :=
  match output parseResult with
  | Some outputFilePath =>
      if negb (FileSystem.writable (fs w) outputFilePath) then
        (w, Thrown (format "unable to open '{}' for writing"
                      [Path.generic_string outputFilePath]))
      else
        ({| fs := FileSystem.write (fs w) outputFilePath (content outputStream);
            cout := cout w; cerr := cerr w |}, Returned tt)
  | None =>
      ({| fs := fs w; cout := cout w ++ content outputStream; cerr := cerr w |},
       Returned tt)
  end.

Section Collaborators.

(** GeneratedConstants.hpp *)
Variable RescomVersion : string.

(** LegacyCppCodeGenerator.hpp *)
Variable tabDefault : nat.

(** [ConfigurationParser::parseFile] over the local file system. *)
Variable parseFile : FileSystem.t -> Config.path -> outcome Config.Configuration.

(** [createGenerator]: the registry's choice for the configuration,
    possibly null.  [LegacyCppCodeGenerator] is the one registered. *)
Variable createGenerator :
  ParseResult -> Config.Configuration -> outcome (option LegacyCppCodeGenerator).

(** The catch clause of [main]. *)
Definition report (w : World) (what : string) : World * exit :=
  ({| fs := fs w; cout := cout w;
      cerr := cerr w ++ "Rescom error: " ++ what ++ nl |}, Exit 1).

(** [main] from the options on, once [options.parse] has returned them
    ([AsWritten.main] starts at the command line). *)
Definition main (parseResult : ParseResult) (w : World) : World * exit :=
  if version parseResult then
    ({| fs := fs w;
        cout := cout w ++ "rescom version " ++ RescomVersion ++ nl;
        cerr := cerr w |}, Exit 0)
  else
    match input parseResult with
    | None => (w, Terminate)
    | Some inputFilePath =>
        let outputStream := Stream.empty in
        match parseFile (fs w) inputFilePath with
        | Thrown what => report w what
        | Returned configuration =>
            match createGenerator parseResult configuration with
            | Thrown what => report w what
            | Returned generator =>
                let '(fs', outputStream, generated) :=
                  match generator with
                  | Some g => generate tabDefault g (fs w) outputStream
                  | None => (fs w, outputStream, Returned tt)
                  end in
                let w := {| fs := fs'; cout := cout w; cerr := cerr w |} in
                match generated with
                | Thrown what => report w what
                | Returned _ =>
                    match releaseResults parseResult outputStream w with
                    | (w, Thrown what) => report w what
                    | (w, Returned _) => (w, Exit 0)
                    end
                end
            end
        end
    end.

End Collaborators.

End Main.

(** ** The generated program (namespace [rescom::<stem>]) *)

Module Rescom.

(** Result of evaluating generated code: a value, or no defined
    behaviour (a read outside an array, a null pointer handed to
    [std::string_view]). *)
Inductive eval (A : Type) : Type :=
| Value (a : A)
| UB.
Arguments Value {A} a.
Arguments UB {A}.

Definition bind {A B} (m : eval A) (f : A -> eval B) : eval B :=
  match m with
  | Value a => f a
  | UB => UB
  end.

Notation "x <- m ;; k" := (bind m (fun x => k))
  (at level 61, m at next level, right associativity).

(** [char const*] to a C string: null, or the characters before the
    terminator. *)
Definition c_str := option string.

(** [char const*] to resource data: null, or the array [R<i>]. *)
Definition data_ptr := option N.

(** struct Resource { key; bytes; size }, built by
    [Resource(key, size, bytes)]. *)
Record Resource := mkResource {
  key : c_str;
  bytes : data_ptr;
  size : N
}.

(** [static constexpr Resource const NullResource{nullptr, 0u, nullptr};] *)
Definition NullResource : Resource :=
  {| key := None; bytes := None; size := 0%N |}.

(** The entries [{"<key>", <size>, R<i>},] declared by the second loop of
    [writeResources], as the records they initialise when each key is
    held by its string literal as it is and each size by an
    [unsigned int] ([Compiled.embeddable]).  The key is written between
    the quotes unescaped: [Compiled.readEntries] reads the entries as
    written, and [compiledIndex_embeddable] is their agreement. *)
Fixpoint indexEntries (inputs : list Config.Input) (i : N) : list Resource :=
  match inputs with
  | [] => []
  | input :: rest =>
      {| key := Some (Config.key input);
         bytes := Some i;
         size := Config.size input |} :: indexEntries rest (i + 1)
  end.

Definition ResourcesIndex (inputs : list Config.Input) : list Resource :=
  indexEntries inputs 0.

(** [Resource const*] and [Resource const&]: the address of the sentinel
    or a position of [ResourcesIndex] (its length is one past the end). *)
Inductive ResourceIterator : Type :=
| AtNullResource
| AtIndex (i : nat).

Definition iterator_eqb (a b : ResourceIterator) : bool :=
  match a, b with
  | AtNullResource, AtNullResource => true
  | AtIndex i, AtIndex j => Nat.eqb i j
  | _, _ => false
  end.

(** Reading the record at a position of the table. *)
Definition load (table : list Resource) (i : nat) : eval Resource :=
  match nth_error table i with
  | Some slot => Value slot
  | None => UB
  end.

(** Reading through a [Resource const&]. *)
Definition deref (table : list Resource) (p : ResourceIterator) : eval Resource :=
  match p with
  | AtNullResource => Value NullResource
  | AtIndex i => load table i
  end.

(** [std::strcmp]: only its sign is specified. *)
Definition strcmp (a b : string) : Z :=
  match String.compare a b with
  | Lt => (-1)%Z
  | Eq => 0%Z
  | Gt => 1%Z
  end.

(** [compareSlot(slot, key) { return std::string_view(slot.key) < key; }] *)
Definition compareSlot (slot : Resource) (k : c_str) : eval bool :=
  match key slot, k with
  | Some a, Some b => Value (String.ltb a b)
  | _, _ => UB
  end.

Section LowerBound.

Variable table : list Resource.
Variable compare : Resource -> c_str -> eval bool.

(** The [while (count > 0u)] loop of [lowerBound].  [first] and [it] are
    positions of the table; [count] and [step] are distances inside the
    range, between 0 and [last - first], which the signed
    [difference_type] holds without wrapping. *)
Equations? lowerBound_loop (value : string) (first count : nat) : eval nat
  by wf count lt :=
  lowerBound_loop value first 0 := Value first;
  lowerBound_loop value first (S c)
    with load table (first + S c / 2) => {
    | UB := UB;
    | Value slot with compare slot (Some value) => {
      | UB := UB;
      | Value true :=
          lowerBound_loop value (S (first + S c / 2)) (S c - (S c / 2 + 1));
      | Value false :=
          lowerBound_loop value first (S c / 2) } }.
Proof.
  all: change (fst (Nat.divmod c 1 0 0)) with (S c / 2);
    pose proof (Nat.div_lt (S c) 2 ltac:(lia) ltac:(lia)).
  - destruct (_ + 1) eqn:E; lia.
  - lia.
Qed.

(** [return first->key != nullptr && std::strcmp(value, first->key) == 0
    ? first : last;] *)
Definition confirm (value : string) (first last : nat) : eval nat :=
  slot <- load table first ;;
  match key slot with
  | Some k => if Z.eqb (strcmp value k) 0 then Value first else Value last
  | None => Value last
  end.

Definition lowerBound (first last : nat) (value : c_str) : eval nat :=
  match value with
  | None => Value last
  | Some v =>
      first' <- lowerBound_loop v first (last - first) ;;
      confirm v first' last
  end.

End LowerBound.

(** The accessors; each has the body written for an empty input list
    and the one written otherwise. *)
Definition getResource (inputs : list Config.Input) (k : c_str)
  : eval ResourceIterator :=
  match inputs with
  | [] => Value AtNullResource
  | _ :: _ =>
      let table := ResourcesIndex inputs in
      it <- lowerBound table compareSlot 0 (List.length table) k ;;
      if Nat.eqb it (List.length table) then Value AtNullResource
      else (_ <- load table it ;; Value (AtIndex it))
  end.

Definition contains (inputs : list Config.Input) (k : c_str) : eval bool :=
  r <- getResource inputs k ;;
  Value (negb (iterator_eqb r AtNullResource)).

(** [std::string_view{data, length}] *)
Record string_view := mkView {
  data : data_ptr;
  length : N
}.

Definition getText (inputs : list Config.Input) (k : c_str) : eval string_view :=
  r <- getResource inputs k ;;
  resource <- deref (ResourcesIndex inputs) r ;;
  Value {| data := bytes resource; length := size resource |}.

Definition begin (inputs : list Config.Input) : ResourceIterator :=
  match inputs with
  | [] => AtNullResource
  | _ :: _ => AtIndex 0
  end.

Definition end_ (inputs : list Config.Input) : ResourceIterator :=
  match inputs with
  | [] => AtNullResource
  | _ :: _ => AtIndex (List.length (ResourcesIndex inputs))
  end.

End Rescom.

(** ** Reference definitions *)

Module Reference.

Import Rescom.

(** Whether a record's key is less than the queried key. *)
Definition slot_less (slot : Resource) (v : string) : bool :=
  match key slot with
  | Some a => String.ltb a v
  | None => false
  end.

(** The smallest position of [first, first + count) whose record is not
    less than [v], or [first + count] when there is none: a scan from the
    left. *)
Fixpoint smallest_not_less (table : list Resource) (v : string)
    (first count : nat) : nat :=
  match count with
  | O => first
  | S c =>
      match nth_error table first with
      | Some slot =>
          if slot_less slot v then smallest_not_less table v (S first) c
          else first
      | None => first
      end
  end.

(** Lower bound followed by the confirmation of equality, in the words of
    the spec: a candidate whose key is not null and equals the queried key
    is the match; anything else, a null query included, gives [last]. *)
Definition lowerBound_spec (table : list Resource) (first last : nat)
    (value : c_str) : nat :=
  match value with
  | None => last
  | Some v =>
      let candidate := smallest_not_less table v first (last - first) in
      match nth_error table candidate with
      | Some slot =>
          match key slot with
          | Some k =>
              if Nat.ltb candidate last && String.eqb k v then candidate else last
          | None => last
          end
      | None => last
      end
  end.

(** Keys in strictly ascending order. *)
Definition string_lt (a b : string) : Prop := String.ltb a b = true.

Definition ascending (keys : list string) : Prop := Sorted string_lt keys.

(** Tables whose keys are the strings [ks], none of them null. *)
Definition keyed (table : list Resource) (ks : list string) : Prop :=
  map key table = map Some ks.

(** [p] splits the positions of [first, first + count): keys before it
    are less than [v], keys from it on are not. *)
Definition partition_point (ks : list string) (v : string)
    (first count p : nat) : Prop :=
  first <= p <= first + count
  /\ (forall j a, first <= j < p -> nth_error ks j = Some a -> String.ltb a v = true)
  /\ (forall j a, p <= j < first + count -> nth_error ks j = Some a ->
                  String.ltb a v = false).

End Reference.

(** ** Reading the generated text *)

Module Text.

Import Generator StringHelpers.

(** [w] occurs in [s]. *)
Definition occurs (w s : string) : Prop :=
  exists before after : string, s = (before ++ w ++ after)%string.

Fixpoint startsWith (w s : string) : bool :=
  match w, s with
  | EmptyString, _ => true
  | String a w', String b s' => Ascii.eqb a b && startsWith w' s'
  | String _ _, EmptyString => false
  end.

Fixpoint occursb (w s : string) : bool :=
  startsWith w s
  || match s with
     | EmptyString => false
     | String _ s' => occursb w s'
     end.

(** The text without its spaces. *)
Fixpoint squeeze (s : string) : string :=
  match s with
  | EmptyString => EmptyString
  | String c s' =>
      if Ascii.eqb c " " then squeeze s' else String c (squeeze s')
  end.

(** Reading a brace-enclosed list of character literals, each a
    hexadecimal escape between single quotes, separated by a comma and a
    space: the bytes it initialises, in order.  A hexadecimal escape
    extends over every hexadecimal digit that follows; the closing quote
    ends it. *)
Inductive lexer : Type :=
| ListStart          (* nothing read yet: an element or the end *)
| Element            (* after a separator: an element *)
| Opened             (* after the opening quote *)
| Escape             (* after the backslash *)
| FirstDigit         (* after the x *)
| Digits (v : N)     (* inside the digits, value so far *)
| Closed             (* after the closing quote *)
| Separator.         (* after the comma *)

Definition hexDigit (c : ascii) : option N :=
  let n := N_of_ascii c in
  if ((48 <=? n) && (n <=? 57))%N then Some (n - 48)%N
  else if ((97 <=? n) && (n <=? 102))%N then Some (n - 87)%N
  else if ((65 <=? n) && (n <=? 70))%N then Some (n - 55)%N
  else None.

Fixpoint decodeFrom (st : lexer) (acc : list Byte.byte) (s : string)
  : option (list Byte.byte) :=
  match s with
  | EmptyString =>
      match st with
      | ListStart | Closed => Some (rev acc)
      | _ => None
      end
  | String c rest =>
      match st with
      | ListStart | Element =>
          if Ascii.eqb c "'" then decodeFrom Opened acc rest else None
      | Opened => if Ascii.eqb c "\" then decodeFrom Escape acc rest else None
      | Escape => if Ascii.eqb c "x" then decodeFrom FirstDigit acc rest else None
      | FirstDigit =>
          match hexDigit c with
          | Some d => decodeFrom (Digits d) acc rest
          | None => None
          end
      | Digits v =>
          match hexDigit c with
          | Some d => decodeFrom (Digits (16 * v + d)) acc rest
          | None =>
              if Ascii.eqb c "'" then
                match Byte.of_N v with
                | Some b => decodeFrom Closed (b :: acc) rest
                | None => None
                end
              else None
          end
      | Closed => if Ascii.eqb c "," then decodeFrom Separator acc rest else None
      | Separator => if Ascii.eqb c " " then decodeFrom Element acc rest else None
      end
  end.

Definition decodeInitializer (s : string) : option (list Byte.byte) :=
  decodeFrom ListStart [] s.

(** The elements [writeResource] writes between the braces, for the
    bytes from position [i] on. *)
Fixpoint elements (bytes : list Byte.byte) (i : N) : string :=
  match bytes with
  | [] => EmptyString
  | b :: rest =>
      (if (0 <? i)%N then ", " else EmptyString)
      ++ "'\x" ++ hexadecimal (Byte.to_N b) ++ "'" ++ elements rest (i + 1)
  end.

(** The entries of the index table, each with the declared size of its
    input in decimal, for the inputs from position [i] on. *)
Fixpoint indexText (tab3 : string) (inputs : list Config.Input) (i : N) : string :=
  match inputs with
  | [] => EmptyString
  | input :: rest =>
      tab3 ++ "{" ++ dquote ++ Config.key input ++ dquote ++ ", "
      ++ decimal (Config.size input) ++ ", " ++ makeResourceName i ++ ln "},"
      ++ indexText tab3 rest (i + 1)
  end.

(** Reading a decimal number. *)
Definition readDecimal (s : string) : option N :=
  option_map N.of_uint (DecimalString.NilEmpty.uint_of_string s).

End Text.

(** ** The generator and [main] with every ending

    [Generator] and [Main] describe a run whose command line was parsed,
    where a path that opens is read to its end and where no counter
    reaches 2^32.  [AsWritten] takes the same functions with what that
    leaves out: the file that opens and cannot be read (a directory), the
    [unsigned int] counters compared with a [size_t] size, and the parsing
    of the command line before the [try] block. *)

Module AsWritten.

Import StringHelpers Generator.

Module Disk.

Record t := mkDisk {
  (** what [std::ifstream] finds at a path: nothing it can open ([None]),
      a file whose reading throws (a directory), or the bytes read *)
  read : Config.path -> option (outcome (list Byte.byte));
  (** whether a path can be opened for writing *)
  writable : Config.path -> bool;
  (** the paths [loadFile] tried to open, oldest first *)
  opened : list Config.path
}.

Definition record_open (disk : t) (p : Config.path) : t :=
  {| read := read disk; writable := writable disk; opened := opened disk ++ [p] |}.

(** Creating or truncating a file and writing [text] to it. *)
Definition write (disk : t) (p : Config.path) (text : string) : t :=
  {| read := fun q => if String.eqb q p
                      then Some (Returned (list_byte_of_string text))
                      else read disk q;
     writable := writable disk;
     opened := opened disk |}.

(** The bytes of the paths that open and are read to their end. *)
Definition contents (disk : t) (p : Config.path) : option (list Byte.byte) :=
  match read disk p with
  | Some (Returned buffer) => Some buffer
  | _ => None
  end.

(** The disk after [loadFile] was called on each path of [paths]. *)
Definition afterOpening (disk : t) (paths : list Config.path) : t :=
  {| read := read disk; writable := writable disk;
     opened := opened disk ++ paths |}.

(** A file system of [Generator] as a disk: what opens is read. *)
Definition ofFileSystem (fs : FileSystem.t) : t :=
  {| read := fun p => option_map Returned (FileSystem.files fs p);
     writable := FileSystem.writable fs;
     opened := FileSystem.opened fs |}.

End Disk.

(** [loadFile]: the stream is opened; when it is open the buffer is
    assigned from its [istreambuf_iterator], whose reading can throw;
    when it is not, [std::runtime_error] is thrown. *)
Definition loadFile (disk : Disk.t) (filePath : Config.path)
  : Disk.t * outcome (list Byte.byte) :=
  let disk' := Disk.record_open disk filePath in
  match Disk.read disk filePath with
  | Some (Returned buffer) => (disk', Returned buffer)
  | Some (Thrown what) => (disk', Thrown what)
  | None =>
      (disk', Thrown (format "unable to read '{}'" [Path.generic_string filePath]))
  end.

(** The largest [unsigned int], and [++i] on an [unsigned int]. *)
Definition UINT_MAX : N := 4294967295.

Definition increment (i : N) : N :=
  if (i =? UINT_MAX)%N then 0%N else (i + 1)%N.

Section Loop.

Context {State : Type}.

(** [size] is a [size_t]; the [unsigned int] counter is converted to it
    for the comparison. *)
Variable size : N.

(** The body: the state it leaves with [Returned], the exception that
    leaves the loop, or [None] when the body does not end. *)
Variable body : N -> State -> option (State * outcome unit).

(** [for (auto i = 0u; i < size; ++i) body], from the test of the
    condition at [i] on; [None] when the loop has not ended after
    [steps] tests. *)
Fixpoint for_loop (steps : nat) (i : N) (s : State)
  : option (State * outcome unit) :=
  match steps with
  | O => None
  | S steps' =>
      if (i <? size)%N then
        match body i s with
        | Some (s', Returned _) => for_loop steps' (increment i) s'
        | Some (s', Thrown what) => Some (s', Thrown what)
        | None => None
        end
      else Some (s, Returned tt)
  end.

End Loop.

Section Each.

Context {A State : Type}.

Variable f : A -> N -> State -> option (State * outcome unit).

(** The body applied to the elements of a list in turn, counted from
    [i]: the loop over a list whose size the counter reaches without
    wrapping. *)
Fixpoint each (l : list A) (i : N) (s : State) : option (State * outcome unit) :=
  match l with
  | [] => Some (s, Returned tt)
  | a :: rest =>
      match f a i s with
      | Some (s', Returned _) => each rest (i + 1) s'
      | Some (s', Thrown what) => Some (s', Thrown what)
      | None => None
      end
  end.

End Each.

(** [l[i]] handed to the body of a loop; an index outside the vector has
    no defined result. *)
Definition indexed {A State : Type} (l : list A)
    (f : A -> N -> State -> option (State * outcome unit))
  : N -> State -> option (State * outcome unit) :=
  fun i s =>
    match nth_error l (N.to_nat i) with
    | Some a => f a i s
    | None => None
    end.

Section Writers.

(** The number of tests of its condition allowed to each loop. *)
Variable steps : nat.

Variable tabDefault : nat.

Variable this : LegacyCppCodeGenerator.

(** The body of the loop of [writeResource], with [bytes[i]]. *)
Definition writeByte (b : Byte.byte) (i : N) (output : ostream)
  : option (ostream * outcome unit) :=
  let output := if (0 <? i)%N then output << ", " else output in
  Some (output << "'\x" <<# Byte.to_N b << "'", Returned tt).

Definition writeBytes (bytes : list Byte.byte) (output : ostream)
  : option ostream :=
  match for_loop (N.of_nat (List.length bytes)) (indexed bytes writeByte)
          steps 0%N output with
  | Some (output, _) => Some output
  | None => None
  end.

Definition writeResource (input : Config.Input) (inputPosition : N)
    (bytes : list Byte.byte) (output : ostream) : option ostream :=
  let output := output << tab this 2
                       << format "static constexpr char const {}[] = {"
                            [makeResourceName inputPosition] in
  let output := output <<% hex in
  match writeBytes bytes output with
  | Some output =>
      let output := output <<% dec in
      Some (output << ln "};")
  | None => None
  end.

(** The body of the first loop of [writeResources], with [inputs[i]]:
    the file is loaded into the buffer and its array written. *)
Definition loadAndWrite (input : Config.Input) (i : N)
    (state : Disk.t * ostream) : option (Disk.t * ostream * outcome unit) :=
  let '(disk, output) := state in
  match loadFile disk (Config.filePath input) with
  | (disk', Thrown what) => Some (disk', output, Thrown what)
  | (disk', Returned buffer) =>
      match writeResource input i buffer output with
      | Some output' => Some (disk', output', Returned tt)
      | None => None
      end
  end.

Definition writeData (inputs : list Config.Input) (disk : Disk.t)
    (output : ostream) : option (Disk.t * ostream * outcome unit) :=
  for_loop (N.of_nat (List.length inputs)) (indexed inputs loadAndWrite)
    steps 0%N (disk, output).

(** The body of the second loop of [writeResources], with [inputs[i]]. *)
Definition writeEntry (input : Config.Input) (i : N) (output : ostream)
  : option (ostream * outcome unit) :=
  let resourceName := makeResourceName i in
  Some (output << tab this 3 << ("{" ++ dquote) << Config.key input
               << (dquote ++ ", ") <<# Config.size input << ", "
               << resourceName << ln "},", Returned tt).

Definition writeIndex (inputs : list Config.Input) (output : ostream)
  : option ostream :=
  match for_loop (N.of_nat (List.length inputs)) (indexed inputs writeEntry)
          steps 0%N output with
  | Some (output, _) => Some output
  | None => None
  end.

Definition writeResources (disk : Disk.t) (output : ostream)
  : option (Disk.t * ostream * outcome unit) :=
  let inputs := Config.inputs (_configuration this) in
  match inputs with
  | [] => Some (disk, output, Returned tt)
  | _ :: _ =>
      let output := output << tab this 1 << ln "namespace details {" in
      let output := output << tab this 2
                           << "static constexpr unsigned int const ResourcesCount = "
                           <<# N.of_nat (List.length inputs) << ln ";" in
      match writeData inputs disk output with
      | Some (disk', output, Thrown what) => Some (disk', output, Thrown what)
      | Some (disk', output, Returned _) =>
          let output := output << tab this 2
                               << ln "static constexpr Resource const ResourcesIndex[ResourcesCount] = " in
          let output := output << tab this 2 << ln "{" in
          match writeIndex inputs output with
          | Some output =>
              let output := output << tab this 2 << ln "};" in
              let output := output << tab this 1 << (ln "} // namespace details" ++ nl) in
              Some (disk', output, Returned tt)
          | None => None
          end
      | None => None
      end
  end.

Definition generate (disk : Disk.t) (output : ostream)
  : option (Disk.t * ostream * outcome unit) :=
  let output := writeFileHeader this output in
  match writeResources disk output with
  | Some (disk', output, Thrown what) => Some (disk', output, Thrown what)
  | Some (disk', output, Returned _) =>
      let output := writeAccessFunction tabDefault this output in
      let output := writeFileFooter this output in
      Some (disk', output, Returned tt)
  | None => None
  end.

End Writers.

Record World := mkWorld {
  disk : Disk.t;
  cout : string;
  cerr : string
}.

Definition releaseResults (parseResult : Main.ParseResult) (outputStream : ostream)
    (w : World) : World * outcome unit :=
  match Main.output parseResult with
  | Some outputFilePath =>
      if negb (Disk.writable (disk w) outputFilePath) then
        (w, Thrown (format "unable to open '{}' for writing"
                      [Path.generic_string outputFilePath]))
      else
        ({| disk := Disk.write (disk w) outputFilePath (content outputStream);
            cout := cout w; cerr := cerr w |}, Returned tt)
  | None =>
      ({| disk := disk w; cout := cout w ++ content outputStream; cerr := cerr w |},
       Returned tt)
  end.

Section Collaborators.

(** GeneratedConstants.hpp *)
Variable RescomVersion : string.

(** LegacyCppCodeGenerator.hpp *)
Variable tabDefault : nat.

Variable steps : nat.

(** [cxxopts::Options::parse] for the four options of [main]: the
    options found, or the exception for a command line it rejects. *)
Variable parse : list string -> outcome Main.ParseResult.

(** [ConfigurationParser::parseFile] over the local file system. *)
Variable parseFile : Disk.t -> Config.path -> outcome Config.Configuration.

(** [createGenerator]: the registry's choice for the configuration,
    possibly null. *)
Variable createGenerator :
  Main.ParseResult -> Config.Configuration
  -> outcome (option LegacyCppCodeGenerator).

(** The catch clause of [main]. *)
Definition report (w : World) (what : string) : World * Main.exit :=
  ({| disk := disk w; cout := cout w;
      cerr := cerr w ++ "Rescom error: " ++ what ++ nl |}, Main.Exit 1).

(** [main], from the command line on.  The exceptions of [parse] and of
    the missing input option are thrown outside the [try] block and leave
    [main]; [None] is a run that has not ended. *)
Definition main (argv : list string) (w : World) : option (World * Main.exit) :=
  match parse argv with
  | Thrown _ => Some (w, Main.Terminate)
  | Returned parseResult =>
      if Main.version parseResult then
        Some ({| disk := disk w;
                 cout := cout w ++ "rescom version " ++ RescomVersion ++ nl;
                 cerr := cerr w |}, Main.Exit 0)
      else
        match Main.input parseResult with
        | None => Some (w, Main.Terminate)
        | Some inputFilePath =>
            let outputStream := Stream.empty in
            match parseFile (disk w) inputFilePath with
            | Thrown what => Some (report w what)
            | Returned configuration =>
                match createGenerator parseResult configuration with
                | Thrown what => Some (report w what)
                | Returned generator =>
                    match
                      match generator with
                      | Some g => generate steps tabDefault g (disk w) outputStream
                      | None => Some (disk w, outputStream, Returned tt)
                      end
                    with
                    | None => None
                    | Some (disk', outputStream, generated) =>
                        let w := {| disk := disk'; cout := cout w; cerr := cerr w |} in
                        match generated with
                        | Thrown what => Some (report w what)
                        | Returned _ =>
                            match releaseResults parseResult outputStream w with
                            | (w, Thrown what) => Some (report w what)
                            | (w, Returned _) => Some (w, Main.Exit 0)
                            end
                        end
                    end
                end
            end
        end
  end.

End Collaborators.

End AsWritten.

(** ** The index table as the compiler reads it

    [writeResources] writes each key between double quotes as it is, so
    what the generated program holds is what a C++ compiler reads there.
    [Rescom.indexEntries] is that table for keys a string literal holds
    verbatim; [readEntries] reads the entries written, escape sequences
    included. *)

Module Compiled.

Import Rescom Text Generator.

(** A character a string literal holds as itself: printable ASCII other
    than the double quote and the backslash. *)
Definition plainCharacter (c : ascii) : bool :=
  let n := N_of_ascii c in
  ((32 <=? n) && (n <=? 126) && negb (n =? 34) && negb (n =? 92))%N.

Fixpoint plainKey (k : string) : bool :=
  match k with
  | EmptyString => true
  | String c rest => plainCharacter c && plainKey rest
  end.

(** An input whose entry says what the configuration says: a key of plain
    characters and a size an [unsigned int] holds. *)
Definition embeddable (input : Config.Input) : bool :=
  plainKey (Config.key input) && (Config.size input <=? 4294967295)%N.

(** Where the reading of the entries stands. *)
Inductive reading : Type :=
| Indent                                   (* a line starts: blanks, a brace, or the end *)
| BeforeKey                                (* after the brace: the opening quote *)
| InKey (k : string)                       (* inside the literal, [k] read so far *)
| Escaped (k : string)                     (* after a backslash *)
| HexEscape (k : string) (v : option N)    (* after backslash x: the value so far *)
| OctalEscape (k : string) (v : N) (digits : nat)
| AfterKey (k : string)                    (* after the closing quote: the comma *)
| BeforeSize (k : string)                  (* the blank before the size *)
| InSize (k : string) (digits : string)
| BeforeName (k : string) (n : N)          (* the blank before the array name *)
| NameStart (k : string) (n : N)           (* the R of the array name *)
| InName (k : string) (n : N) (digits : string)
| AfterEntry                               (* after the closing brace: the comma *)
| EndOfLine.                               (* after the comma: the line feed *)

Definition snoc (k : string) (c : ascii) : string := k ++ String c EmptyString.

(** A character inside the literal, outside an escape sequence: the
    closing quote, the backslash of an escape sequence, or a plain
    character; a line feed ends no literal, and other characters are not
    read here. *)
Definition keyStep (k : string) (c : ascii) : option reading :=
  if Ascii.eqb c "034" then Some (AfterKey k)
  else if Ascii.eqb c "\" then Some (Escaped k)
  else if plainCharacter c then Some (InKey (snoc k c))
  else None.

(** The simple escape sequences. *)
Definition simpleEscape (c : ascii) : option ascii :=
  if Ascii.eqb c "'" then Some "'"%char
  else if Ascii.eqb c "034" then Some "034"%char
  else if Ascii.eqb c "?" then Some "?"%char
  else if Ascii.eqb c "\" then Some "\"%char
  else if Ascii.eqb c "a" then Some "007"%char
  else if Ascii.eqb c "b" then Some "008"%char
  else if Ascii.eqb c "f" then Some "012"%char
  else if Ascii.eqb c "n" then Some "010"%char
  else if Ascii.eqb c "r" then Some "013"%char
  else if Ascii.eqb c "t" then Some "009"%char
  else if Ascii.eqb c "v" then Some "011"%char
  else None.

Definition octalDigit (c : ascii) : option N :=
  let n := N_of_ascii c in
  if ((48 <=? n) && (n <=? 55))%N then Some (n - 48)%N else None.

Definition decimalDigit (c : ascii) : bool :=
  let n := N_of_ascii c in ((48 <=? n) && (n <=? 57))%N.

(** The character of a numeric escape, when a [char] holds its value. *)
Definition escaped (k : string) (v : N) (c : ascii) : option reading :=
  if (v <? 256)%N then keyStep (snoc k (ascii_of_N v)) c else None.

(** The C string of a literal: the characters before its first null
    character. *)
Fixpoint cString (k : string) : string :=
  match k with
  | EmptyString => EmptyString
  | String c rest =>
      if Ascii.eqb c "000" then EmptyString else String c (cString rest)
  end.

Fixpoint allDigits (s : string) : bool :=
  match s with
  | EmptyString => true
  | String c rest => decimalDigit c && allDigits rest
  end.

(** A decimal literal: digits that are the decimal text of their value
    (a leading zero would start an octal literal). *)
Definition number (digits : string) : option N :=
  match readDecimal digits with
  | Some n => if String.eqb (decimal n) digits then Some n else None
  | None => None
  end.

(** Reading the entries [{"<key>", <size>, R<i>},], one a line: the
    records they initialise, or [None] for a text of another shape. *)
Fixpoint readEntries (st : reading) (acc : list Resource) (s : string)
  : option (list Resource) :=
  match s with
  | EmptyString =>
      match st with
      | Indent => Some (rev acc)
      | _ => None
      end
  | String c rest =>
      match st with
      | Indent =>
          if Ascii.eqb c " " then readEntries Indent acc rest
          else if Ascii.eqb c "{" then readEntries BeforeKey acc rest
          else None
      | BeforeKey =>
          if Ascii.eqb c "034" then readEntries (InKey EmptyString) acc rest else None
      | InKey k =>
          match keyStep k c with
          | Some st' => readEntries st' acc rest
          | None => None
          end
      | Escaped k =>
          match simpleEscape c with
          | Some e => readEntries (InKey (snoc k e)) acc rest
          | None =>
              if Ascii.eqb c "x" then readEntries (HexEscape k None) acc rest
              else match octalDigit c with
                   | Some d => readEntries (OctalEscape k d 1) acc rest
                   | None => None
                   end
          end
      | HexEscape k v =>
          match hexDigit c with
          | Some d =>
              readEntries
                (HexEscape k (Some (16 * match v with Some v => v | None => 0 end + d)%N))
                acc rest
          | None =>
              match v with
              | Some v =>
                  match escaped k v c with
                  | Some st' => readEntries st' acc rest
                  | None => None
                  end
              | None => None
              end
          end
      | OctalEscape k v digits =>
          match (if Nat.ltb digits 3 then octalDigit c else None) with
          | Some d => readEntries (OctalEscape k (8 * v + d)%N (S digits)) acc rest
          | None =>
              match escaped k v c with
              | Some st' => readEntries st' acc rest
              | None => None
              end
          end
      | AfterKey k =>
          if Ascii.eqb c "," then readEntries (BeforeSize k) acc rest else None
      | BeforeSize k =>
          if Ascii.eqb c " " then readEntries (InSize k EmptyString) acc rest else None
      | InSize k digits =>
          if decimalDigit c then readEntries (InSize k (snoc digits c)) acc rest
          else if Ascii.eqb c "," then
            match number digits with
            | Some n =>
                if (n <=? 4294967295)%N then readEntries (BeforeName k n) acc rest
                else None
            | None => None
            end
          else None
      | BeforeName k n =>
          if Ascii.eqb c " " then readEntries (NameStart k n) acc rest else None
      | NameStart k n =>
          if Ascii.eqb c "R" then readEntries (InName k n EmptyString) acc rest
          else None
      | InName k n digits =>
          if decimalDigit c then readEntries (InName k n (snoc digits c)) acc rest
          else if Ascii.eqb c "}" then
            match number digits with
            | Some i =>
                readEntries AfterEntry
                  ({| key := Some (cString k); bytes := Some i; size := n |} :: acc)
                  rest
            | None => None
            end
          else None
      | AfterEntry =>
          if Ascii.eqb c "," then readEntries EndOfLine acc rest else None
      | EndOfLine =>
          if Ascii.eqb c "010" then readEntries Indent acc rest else None
      end
  end.

(** The table the entries written for [inputs] initialise, under an
    indentation of [indent] blanks. *)
Definition compiledIndex (indent : nat) (inputs : list Config.Input)
  : option (list Resource) :=
  readEntries Indent [] (indexText (spaces indent) inputs 0).

End Compiled.

(** ** The accessors as syntax

    The bodies [writeAccessFunction] writes for [contains], [getText],
    [begin] and [end], and for [getResource] without inputs, as the
    statements and expressions they are made of: [functionText] is the
    text of a function, [call] its value.  [getResource] with inputs is
    called through the environment. *)

Module Cxx.

Import Rescom.

Inductive object : Type :=
| NullResourceObject      (* details::NullResource *)
| GetResourceOfKey        (* getResource(key) *)
| ResourceLocal.          (* resource *)

Inductive expression : Type :=
| Object (o : object)                    (* o, returned by reference *)
| AddressOf (o : object)                 (* &o *)
| NotEqual (a b : expression)            (* a != b *)
| MemberBytes (o : object)               (* o.bytes *)
| MemberSize (o : object)                (* o.size *)
| StringView (data size : expression)    (* std::string_view{data, size} *)
| BeginOfIndex                           (* std::begin(details::ResourcesIndex) *)
| EndOfIndex.                            (* std::end(details::ResourcesIndex) *)

Inductive statement : Type :=
| BindResource    (* auto const& resource = getResource(key); and an empty line *)
| Return (e : expression).

Record function := mkFunction {
  result : string;
  name : string;
  parameters : string;
  body : list statement
}.

Definition objectText (o : object) : string :=
  match o with
  | NullResourceObject => "details::NullResource"
  | GetResourceOfKey => "getResource(key)"
  | ResourceLocal => "resource"
  end.

Fixpoint expressionText (e : expression) : string :=
  match e with
  | Object o => objectText o
  | AddressOf o => "&" ++ objectText o
  | NotEqual a b => expressionText a ++ " != " ++ expressionText b
  | MemberBytes o => objectText o ++ ".bytes"
  | MemberSize o => objectText o ++ ".size"
  | StringView data size =>
      "std::string_view{" ++ expressionText data ++ ", " ++ expressionText size ++ "}"
  | BeginOfIndex => "std::begin(details::ResourcesIndex)"
  | EndOfIndex => "std::end(details::ResourcesIndex)"
  end.

(** A statement on its line, after the indentation of a body. *)
Definition statementText (indentation : string) (s : statement) : string :=
  match s with
  | BindResource =>
      indentation ++ ln "auto const& resource = getResource(key);" ++ nl
  | Return e => indentation ++ ln ("return " ++ expressionText e ++ ";")
  end.

Fixpoint bodyText (indentation : string) (statements : list statement) : string :=
  match statements with
  | [] => EmptyString
  | s :: rest => statementText indentation s ++ bodyText indentation rest
  end.

(** A function: its head, and its body between braces. *)
Definition functionText (margin indentation : string) (f : function) : string :=
  margin ++ ln ("inline constexpr " ++ result f ++ " " ++ name f
                ++ "(" ++ parameters f ++ ")")
  ++ margin ++ ln "{"
  ++ bodyText indentation (body f)
  ++ margin ++ ln "}".

(** What an expression gives. *)
Inductive value : Type :=
| Reference (r : ResourceIterator)   (* Resource const& *)
| Pointer (p : ResourceIterator)     (* Resource const* *)
| Boolean (b : bool)
| Data (d : data_ptr)                (* char const* to resource data *)
| Unsigned (n : N)
| View (v : string_view).

Record environment := mkEnvironment {
  (** details::ResourcesIndex *)
  table : list Resource;
  (** the function [getResource] of the same document *)
  getResourceOf : c_str -> eval ResourceIterator;
  (** the argument [key] *)
  keyArgument : c_str;
  (** the reference [resource], once bound *)
  resourceLocal : option ResourceIterator
}.

Definition address (env : environment) (o : object) : eval ResourceIterator :=
  match o with
  | NullResourceObject => Value AtNullResource
  | GetResourceOfKey => getResourceOf env (keyArgument env)
  | ResourceLocal =>
      match resourceLocal env with
      | Some r => Value r
      | None => UB
      end
  end.

Fixpoint evaluate (env : environment) (e : expression) : eval value :=
  match e with
  | Object o => r <- address env o ;; Value (Reference r)
  | AddressOf o => r <- address env o ;; Value (Pointer r)
  | NotEqual a b =>
      x <- evaluate env a ;;
      y <- evaluate env b ;;
      match x, y with
      | Pointer p, Pointer q => Value (Boolean (negb (iterator_eqb p q)))
      | _, _ => UB
      end
  | MemberBytes o =>
      r <- address env o ;;
      slot <- deref (table env) r ;;
      Value (Data (bytes slot))
  | MemberSize o =>
      r <- address env o ;;
      slot <- deref (table env) r ;;
      Value (Unsigned (size slot))
  | StringView data size =>
      x <- evaluate env data ;;
      y <- evaluate env size ;;
      match x, y with
      | Data d, Unsigned n => Value (View {| Rescom.data := d; length := n |})
      | _, _ => UB
      end
  | BeginOfIndex => Value (Pointer (AtIndex 0))
  | EndOfIndex => Value (Pointer (AtIndex (List.length (table env))))
  end.

(** The statements of a body in turn, up to its [return]. *)
Fixpoint execute (env : environment) (statements : list statement) : eval value :=
  match statements with
  | [] => UB
  | BindResource :: rest =>
      r <- getResourceOf env (keyArgument env) ;;
      execute {| table := table env; getResourceOf := getResourceOf env;
                 keyArgument := keyArgument env; resourceLocal := Some r |} rest
  | Return e :: _ => evaluate env e
  end.

Definition call (f : function) (index : list Resource)
    (getResource : c_str -> eval ResourceIterator) (k : c_str) : eval value :=
  execute {| table := index; getResourceOf := getResource;
             keyArgument := k; resourceLocal := None |} (body f).

(** The functions of [writeAccessFunction]. *)
Definition getResourceOfNothing : function :=
  {| result := "Resource const&"; name := "getResource";
     parameters := "char const*";
     body := [Return (Object NullResourceObject)] |}.

Definition containsFunction : function :=
  {| result := "bool"; name := "contains"; parameters := "char const* key";
     body := [Return (NotEqual (AddressOf GetResourceOfKey)
                               (AddressOf NullResourceObject))] |}.

Definition getTextFunction : function :=
  {| result := "std::string_view"; name := "getText";
     parameters := "char const* key";
     body := [BindResource;
              Return (StringView (MemberBytes ResourceLocal)
                                 (MemberSize ResourceLocal))] |}.

Definition beginFunction (empty : bool) : function :=
  {| result := "ResourceIterator"; name := "begin"; parameters := EmptyString;
     body := [Return (if empty then AddressOf NullResourceObject
                      else BeginOfIndex)] |}.

Definition endFunction (empty : bool) : function :=
  {| result := "ResourceIterator"; name := "end"; parameters := EmptyString;
     body := [Return (if empty then AddressOf NullResourceObject
                      else EndOfIndex)] |}.

(** [getResource] of a document without inputs, as a function of the
    key: the object its body refers to. *)
Definition getResourceWithoutInputs (k : c_str) : eval ResourceIterator :=
  match call getResourceOfNothing [] (fun _ => UB) k with
  | Value (Reference r) => Value r
  | _ => UB
  end.

End Cxx.

(** ** Names, in the words of the spec

    What "the stem of the base name", "upper-cased" and "lower-cased"
    mean, stated without [Path.stem], [toUpper] and [toLower]. *)

Module Naming.

Definition lowerLetters : string := "abcdefghijklmnopqrstuvwxyz".

Definition upperLetters : string := "ABCDEFGHIJKLMNOPQRSTUVWXYZ".

(** The place of a character in an alphabet. *)
Fixpoint place (c : ascii) (alphabet : string) : option nat :=
  match alphabet with
  | EmptyString => None
  | String a rest => if Ascii.eqb a c then Some O else option_map S (place c rest)
  end.

(** A letter of the first alphabet becomes the letter at its place in
    the second; any other character is kept. *)
Definition recase (from to : string) (c : ascii) : ascii :=
  match place c from with
  | Some n =>
      match String.get n to with
      | Some d => d
      | None => c
      end
  | None => c
  end.

Definition upperCase : ascii -> ascii := recase lowerLetters upperLetters.

Definition lowerCase : ascii -> ascii := recase upperLetters lowerLetters.

(** [converted] is [s] with [f] applied to each of its characters. *)
Definition eachCharacter (f : ascii -> ascii) (s converted : string) : Prop :=
  String.length converted = String.length s
  /\ forall i, String.get i converted = option_map f (String.get i s).

Fixpoint has (c : ascii) (s : string) : bool :=
  match s with
  | EmptyString => false
  | String x rest => Ascii.eqb x c || has c rest
  end.

Definition dropFirst (s : string) : string :=
  match s with
  | EmptyString => EmptyString
  | String _ rest => rest
  end.

Fixpoint endsWithSeparator (s : string) : bool :=
  match s with
  | EmptyString => false
  | String c EmptyString => Ascii.eqb c "/"
  | String _ rest => endsWithSeparator rest
  end.

(** [s] is the stem of the path [p]: [p] is a directory part, empty or
    ending with a separator, then a base name without separator, which is
    [s] followed by its extension.  The extension is empty when the base
    name is dot or dot-dot or holds no period after its first character;
    otherwise it starts at the last period of the base name. *)
Definition isStemOf (p s : string) : Prop :=
  exists directory extension : string,
    p = (directory ++ s ++ extension)%string
    /\ (directory = EmptyString \/ endsWithSeparator directory = true)
    /\ has "/" (s ++ extension)%string = false
    /\ ((extension = EmptyString
         /\ (s = "." \/ s = ".." \/ has "." (dropFirst s) = false))
        \/ (exists tail,
              extension = String "." tail
              /\ has "." tail = false
              /\ s <> EmptyString
              /\ (s ++ extension)%string <> "..")).

End Naming.

Import Rescom Stream Generator StringHelpers Main Reference Text.

#[local] Open Scope list_scope.
#[local] Open Scope string_scope.

(** ** Inputs used below *)

(** The example of the spec: two inputs, [a] of two bytes and [b] of none. *)
Definition scenario : list Config.Input :=
  [ {| Config.key := "a"; Config.filePath := "a.bin"; Config.size := 2 |};
    {| Config.key := "b"; Config.filePath := "b.bin"; Config.size := 0 |} ].

Definition scenarioConfiguration : Config.Configuration :=
  {| Config.configurationFilePath := "resources.txt";
     Config.tabulationSize := 4;
     Config.inputs := scenario |}.


(** A configuration without inputs. *)
Definition noInput : Config.Configuration :=
  {| Config.configurationFilePath := "resources.txt";
     Config.tabulationSize := 0;
     Config.inputs := [] |}.

Definition firstInput : Config.Input :=
  {| Config.key := "a"; Config.filePath := "a.txt"; Config.size := 2 |}.

Definition oneInput : Config.Configuration :=
  {| Config.configurationFilePath := "resources.txt";
     Config.tabulationSize := 4;
     Config.inputs := [firstInput] |}.

(** A file of two bytes declared with size 7. *)
Definition declaredSeven : Config.Configuration :=
  {| Config.configurationFilePath := "resources.txt";
     Config.tabulationSize := 1;
     Config.inputs := [ {| Config.key := "a"; Config.filePath := "a.bin";
                           Config.size := 7 |} ] |}.

Definition twoBytes : FileSystem.t :=
  {| FileSystem.files := fun p => if String.eqb p "a.bin"
                                  then Some [Byte.x00; Byte.xff] else None;
     FileSystem.writable := fun _ => true;
     FileSystem.opened := [] |}.

(** Every byte value, in one array. *)
Definition everyByte : list Byte.byte :=
  map (fun n => match Byte.of_N (N.of_nat n) with
                | Some b => b
                | None => Byte.x00
                end) (seq 0 256).

(** ** Notions and inputs of the further properties *)

(** What [replaceAll] makes of one character. *)
Definition replaced (toReplace replacement c : ascii) : ascii :=
  if Ascii.eqb c toReplace then replacement else c.

(** Only characters of [Spaces]. *)
Fixpoint allSpaces (s : string) : bool :=
  match s with
  | EmptyString => true
  | String c rest => inSpaces c && allSpaces rest
  end.

Definition firstChar (s : string) : option ascii := String.get 0 s.

Fixpoint lastChar (s : string) : option ascii :=
  match s with
  | EmptyString => None
  | String c rest =>
      match lastChar rest with
      | Some d => Some d
      | None => Some c
      end
  end.

(** Neither the first nor the last character is one of [Spaces]. *)
Definition stripped (s : string) : Prop :=
  match firstChar s with Some c => inSpaces c = false | None => True end
  /\ match lastChar s with Some c => inSpaces c = false | None => True end.

(** Keys in ascending order, equal neighbours allowed. *)
Definition string_le (a b : string) : Prop := String.ltb b a = false.

Definition nondecreasing (keys : list string) : Prop := Sorted string_le keys.

(** The inputs of the example in the other order. *)
Definition unsortedScenario : list Config.Input := rev scenario.

(** Two inputs under one key, between the inputs of the example. *)
Definition duplicateScenario : list Config.Input :=
  [ {| Config.key := "a"; Config.filePath := "a.bin"; Config.size := 2 |};
    {| Config.key := "b"; Config.filePath := "b1.bin"; Config.size := 5 |};
    {| Config.key := "b"; Config.filePath := "b2.bin"; Config.size := 7 |};
    {| Config.key := "c"; Config.filePath := "c.bin"; Config.size := 1 |} ].

(** The arrays [writeResources] declares for the inputs from position [i]
    on, each with the bytes its file holds. *)
Fixpoint declarationsText (tab2 : string)
    (files : Config.path -> option (list Byte.byte))
    (inputs : list Config.Input) (i : N) : string :=
  match inputs with
  | [] => EmptyString
  | input :: rest =>
      tab2 ++ "static constexpr char const " ++ makeResourceName i ++ "[] = {"
      ++ elements (match files (Config.filePath input) with
                   | Some buffer => buffer
                   | None => []
                   end) 0
      ++ ln "};" ++ declarationsText tab2 files rest (i + 1)
  end.

(** Every file of the inputs can be opened. *)
Definition readable (files : Config.path -> option (list Byte.byte))
    (inputs : list Config.Input) : Prop :=
  Forall (fun input => files (Config.filePath input) <> None) inputs.

(** The file system after [loadFile] was called on each path of [paths]. *)
Definition afterOpening (fs : FileSystem.t) (paths : list Config.path)
  : FileSystem.t :=
  {| FileSystem.files := FileSystem.files fs;
     FileSystem.writable := FileSystem.writable fs;
     FileSystem.opened := (FileSystem.opened fs ++ paths)%list |}.

(** What [writeResources] writes: nothing without inputs; otherwise the
    count of inputs, the arrays, and the index table. *)
Definition resourcesText (this : LegacyCppCodeGenerator)
    (files : Config.path -> option (list Byte.byte)) : string :=
  let inputs := Config.inputs (_configuration this) in
  match inputs with
  | [] => EmptyString
  | _ :: _ =>
      tab this 1 ++ ln "namespace details {"
      ++ tab this 2 ++ "static constexpr unsigned int const ResourcesCount = "
      ++ decimal (N.of_nat (List.length inputs)) ++ ln ";"
      ++ declarationsText (tab this 2) files inputs 0
      ++ tab this 2
      ++ ln "static constexpr Resource const ResourcesIndex[ResourcesCount] = "
      ++ tab this 2 ++ ln "{"
      ++ indexText (tab this 3) inputs 0
      ++ tab this 2 ++ ln "};"
      ++ tab this 1 ++ ln "} // namespace details" ++ nl
  end.

(** Every file of the example is there. *)
Definition bothFiles : FileSystem.t :=
  {| FileSystem.files := fun p =>
       if String.eqb p "a.bin" then Some [Byte.x00; Byte.xff]
       else if String.eqb p "b.bin" then Some [] else None;
     FileSystem.writable := fun p => negb (String.eqb p "/proc/resources.hpp");
     FileSystem.opened := [] |}.

(** The options and the world of a run on the example. *)
Definition scenarioOptions (outputFilePath : option string) : ParseResult :=
  {| version := false; input := Some "resources.txt";
     output := outputFilePath; generator := None |}.

Definition scenarioWorld : World :=
  {| fs := bothFiles; cout := EmptyString; cerr := EmptyString |}.

(** ** Notions and inputs of the run as written *)

(** An input whose file opens and is read to its end, within the reach
    of the counter and of the steps allowed. *)
Definition loadsWithin (steps : nat) (disk : AsWritten.Disk.t)
    (input : Config.Input) : Prop :=
  exists buffer,
    AsWritten.Disk.read disk (Config.filePath input) = Some (Returned buffer)
    /\ (N.of_nat (List.length buffer) <= AsWritten.UINT_MAX)%N
    /\ List.length buffer < steps.

(** What [loadFile] throws on an input, if it throws. *)
Definition failure (disk : AsWritten.Disk.t) (input : Config.Input)
  : option string :=
  match AsWritten.Disk.read disk (Config.filePath input) with
  | None => Some ("unable to read '" ++ Config.filePath input ++ "'")%string
  | Some (Thrown what) => Some what
  | Some (Returned _) => None
  end.

(** The files of the example, and the same with a directory for [b.bin]:
    it opens, and reading it throws. *)
Definition scenarioDisk : AsWritten.Disk.t :=
  {| AsWritten.Disk.read := fun p =>
       if String.eqb p "a.bin" then Some (Returned [Byte.x00; Byte.xff])
       else if String.eqb p "b.bin" then Some (Returned []) else None;
     AsWritten.Disk.writable := fun _ => true;
     AsWritten.Disk.opened := [] |}.

Definition directoryDisk : AsWritten.Disk.t :=
  {| AsWritten.Disk.read := fun p =>
       if String.eqb p "a.bin" then Some (Returned [Byte.x00; Byte.xff])
       else if String.eqb p "b.bin"
            then Some (Thrown "basic_filebuf::underflow error reading the file: Is a directory")
            else None;
     AsWritten.Disk.writable := fun _ => true;
     AsWritten.Disk.opened := [] |}.

(** [cxxopts] on the command lines used below: the options of the
    example after [-i resources.txt], an exception for anything else. *)
Definition scenarioParse (argv : list string) : outcome Main.ParseResult :=
  match argv with
  | [_; "-i"; "resources.txt"]%string =>
      Returned {| Main.version := false; Main.input := Some "resources.txt"%string;
                  Main.output := None; Main.generator := None |}
  | _ => Thrown "Option does not exist"
  end.

(** Inputs whose entries say what the configuration says. *)
Definition embeddableInputs (inputs : list Config.Input) : Prop :=
  Forall (fun input => Compiled.embeddable input = true) inputs.

(** An input whose key, written between quotes, reads as the letter A. *)
Definition escapedKey : list Config.Input :=
  [ {| Config.key := "\x41"; Config.filePath := "a.bin"; Config.size := 2 |} ].

(** A disk where what opens is read to its end, as the file system of
    [Generator] describes it. *)
Definition describes (disk : AsWritten.Disk.t) (fs : FileSystem.t) : Prop :=
  (forall p, AsWritten.Disk.read disk p = option_map Returned (FileSystem.files fs p))
  /\ (forall p, AsWritten.Disk.writable disk p = FileSystem.writable fs p)
  /\ AsWritten.Disk.opened disk = FileSystem.opened fs.

Definition sameWorld (w' : AsWritten.World) (w : World) : Prop :=
  describes (AsWritten.disk w') (fs w)
  /\ AsWritten.cout w' = cout w
  /\ AsWritten.cerr w' = cerr w.

(** Inputs on which every loop of [generate] ends within [steps] tests
    and no counter wraps: fewer than 2^32 inputs, fewer than 2^32 bytes in
    each file that opens. *)
Definition withinReach (steps : nat) (fs : FileSystem.t)
    (inputs : list Config.Input) : Prop :=
  (N.of_nat (List.length inputs) < 4294967296)%N
  /\ List.length inputs < steps
  /\ Forall (fun input =>
               match FileSystem.files fs (Config.filePath input) with
               | Some buffer =>
                   (N.of_nat (List.length buffer) < 4294967296)%N
                   /\ List.length buffer < steps
               | None => True
               end) inputs.

(** * The search and the accessors *)

Section LowerBoundFacts.

Lemma lowerBound_loop_0 table cmp v first :
  lowerBound_loop table cmp v first 0 = Value first.
Proof. now simp lowerBound_loop. Qed.

Lemma lowerBound_loop_S table cmp v first c :
  lowerBound_loop table cmp v first (S c) =
  match load table (first + S c / 2) with
  | UB => UB
  | Value slot =>
      match cmp slot (Some v) with
      | UB => UB
      | Value true =>
          lowerBound_loop table cmp v (S (first + S c / 2)) (S c - (S c / 2 + 1))
      | Value false => lowerBound_loop table cmp v first (S c / 2)
      end
  end.
Proof.
  simp lowerBound_loop.
  destruct (load table (first + S c / 2)) as [slot|]; cbn; [|reflexivity].
  destruct (cmp slot (Some v)) as [[|]|]; cbn; reflexivity.
Qed.


(** *** The order on keys *)

Lemma compare_refl (a : string) : String.compare a a = Eq.
Proof.
  pose proof (String.compare_antisym a a) as H.
  destruct (String.compare a a); simpl in H; congruence.
Qed.

Lemma ascii_compare_lt_trans (a b c : ascii) :
  Ascii.compare a b = Lt -> Ascii.compare b c = Lt -> Ascii.compare a c = Lt.
Proof.
  unfold Ascii.compare. rewrite !N.compare_lt_iff. lia.
Qed.

Lemma compare_lt_trans (a b c : string) :
  String.compare a b = Lt -> String.compare b c = Lt -> String.compare a c = Lt.
Proof.
  revert b c. induction a as [|x a IH]; intros [|y b] [|z c]; simpl;
    try congruence.
  destruct (Ascii.compare x y) eqn:Exy; try congruence;
    destruct (Ascii.compare y z) eqn:Eyz; try congruence; intros Hab Hbc.
  - apply Ascii.compare_eq_iff in Exy, Eyz. subst.
    rewrite (proj2 (N.compare_eq_iff _ _) eq_refl : Ascii.compare z z = Eq).
    eauto.
  - apply Ascii.compare_eq_iff in Exy. subst. now rewrite Eyz.
  - apply Ascii.compare_eq_iff in Eyz. subst. now rewrite Exy.
  - now rewrite (ascii_compare_lt_trans _ _ _ Exy Eyz).
Qed.

Lemma ltb_lt a b : String.ltb a b = true <-> String.compare a b = Lt.
Proof. unfold String.ltb. destruct (String.compare a b); split; congruence. Qed.

Lemma ltb_irrefl a : String.ltb a a = false.
Proof. unfold String.ltb. now rewrite compare_refl. Qed.

Lemma ltb_trans a b c :
  String.ltb a b = true -> String.ltb b c = true -> String.ltb a c = true.
Proof. rewrite !ltb_lt. apply compare_lt_trans. Qed.

Lemma string_lt_transitive : Relations_1.Transitive string_lt.
Proof. intros a b c. apply ltb_trans. Qed.

Lemma strcmp_zero v k : Z.eqb (strcmp v k) 0 = String.eqb k v.
Proof.
  unfold strcmp. destruct (String.eqb_spec k v) as [->|Hne].
  - now rewrite compare_refl.
  - destruct (String.compare v k) eqn:E; try reflexivity.
    apply String.compare_eq_iff in E. congruence.
Qed.


Lemma keyed_length table ks : keyed table ks -> List.length table = List.length ks.
Proof.
  intros H. apply (f_equal (@List.length _)) in H.
  now rewrite !length_map in H.
Qed.

Lemma keyed_nth table ks j slot :
  keyed table ks -> nth_error table j = Some slot ->
  exists a, nth_error ks j = Some a /\ key slot = Some a.
Proof.
  intros H Hj.
  pose proof (map_nth_error key _ _ Hj) as Hk. rewrite H in Hk.
  rewrite nth_error_map in Hk.
  destruct (nth_error ks j) as [a|]; simpl in Hk; [|discriminate].
  exists a. split; congruence.
Qed.

Lemma keyed_load table ks j :
  keyed table ks -> j < List.length ks ->
  exists slot a, load table j = Value slot /\ nth_error ks j = Some a
                 /\ key slot = Some a.
Proof.
  intros H Hj. unfold load.
  destruct (nth_error table j) as [slot|] eqn:E.
  - destruct (keyed_nth _ _ _ _ H E) as (a & Ha & Hk). eauto.
  - apply nth_error_None in E. rewrite (keyed_length _ _ H) in E. lia.
Qed.


Lemma lowerBound_loop_partition table ks v :
  keyed table ks ->
  forall count first p,
    first + count <= List.length ks ->
    partition_point ks v first count p ->
    lowerBound_loop table compareSlot v first count = Value p.
Proof.
  intros Hk count.
  induction count as [count IH] using lt_wf_ind.
  intros first p Hlen (Hr & Hlt & Hge).
  destruct count as [|c].
  - rewrite lowerBound_loop_0. f_equal. clear IH. lia.
  - rewrite lowerBound_loop_S.
    assert (Hhalf : S c / 2 < S c) by (apply Nat.div_lt; clear IH; lia).
    assert (Hin : first + S c / 2 < List.length ks) by (clear IH; lia).
    destruct (keyed_load table ks (first + S c / 2) Hk Hin)
      as (slot & a & -> & Ha & Hs).
    unfold compareSlot. rewrite Hs.
    destruct (String.ltb a v) eqn:Eav.
    + assert (first + S c / 2 < p).
      { destruct (Nat.lt_ge_cases (first + S c / 2) p) as [|Hle]; [assumption|].
        assert (Hup : first + S c / 2 < first + S c) by (clear IH; lia).
        rewrite (Hge _ _ (conj Hle Hup) Ha) in Eav. discriminate. }
      apply IH; clear IH; [lia|lia|].
      repeat split; try lia.
      * intros j b Hj. apply Hlt. lia.
      * intros j b Hj. apply Hge. lia.
    + assert (p <= first + S c / 2).
      { destruct (Nat.lt_ge_cases (first + S c / 2) p) as [Hl|]; [|assumption].
        rewrite (Hlt _ _ (conj (Nat.le_add_r _ _) Hl) Ha) in Eav. discriminate. }
      apply IH; clear IH; [lia|lia|].
      repeat split; try lia.
      * intros j b Hj. apply Hlt. lia.
      * intros j b Hj. apply Hge. lia.
Qed.

Lemma smallest_not_less_partition table ks v :
  keyed table ks ->
  forall count first p,
    first + count <= List.length ks ->
    partition_point ks v first count p ->
    smallest_not_less table v first count = p.
Proof.
  intros Hk count.
  induction count as [|c IH]; intros first p Hlen (Hr & Hlt & Hge); simpl.
  - lia.
  - assert (Hin : first < List.length ks) by lia.
    destruct (keyed_load table ks first Hk Hin) as (slot & a & Hl & Ha & Hs).
    unfold load in Hl. destruct (nth_error table first); [|discriminate].
    injection Hl as ->. unfold slot_less. rewrite Hs.
    destruct (String.ltb a v) eqn:Eav.
    + assert (first < p).
      { destruct (Nat.lt_ge_cases first p) as [|Hle]; [assumption|].
        assert (Hup : first < first + S c) by lia.
        rewrite (Hge _ _ (conj Hle Hup) Ha) in Eav. discriminate. }
      apply IH; [lia|].
      repeat split; try lia.
      * intros j b Hj. apply Hlt. lia.
      * intros j b Hj. apply Hge. lia.
    + destruct (Nat.eq_dec first p) as [|Hne]; [assumption|].
      assert (Hfp : first < p) by lia.
      rewrite (Hlt _ _ (conj (le_n _) Hfp) Ha) in Eav. discriminate.
Qed.

Lemma smallest_not_less_whole table ks v p :
  keyed table ks ->
  partition_point ks v 0 (List.length ks) p ->
  smallest_not_less table v 0 (List.length ks) = p.
Proof.
  intros Hk. apply (smallest_not_less_partition table ks v Hk). simpl. lia.
Qed.

Lemma lowerBound_loop_whole table ks v p :
  keyed table ks ->
  partition_point ks v 0 (List.length ks) p ->
  lowerBound_loop table compareSlot v 0 (List.length ks) = Value p.
Proof.
  intros Hk. apply (lowerBound_loop_partition table ks v Hk). simpl. lia.
Qed.

(** Ascending keys have a partition point for every query. *)
Lemma ascending_partition ks v :
  ascending ks -> exists p, partition_point ks v 0 (List.length ks) p.
Proof.
  intros Hs. apply (Sorted_StronglySorted string_lt_transitive) in Hs.
  induction Hs as [|a ks Hs IH Hall].
  - exists 0. repeat split; simpl; lia.
  - destruct (String.ltb a v) eqn:Eav.
    + destruct IH as (p & Hr & Hlt & Hge). exists (S p).
      repeat split; simpl in *; try lia.
      * intros [|j] b Hj Hb; simpl in Hb; [congruence|].
        apply (Hlt j); [lia|assumption].
      * intros [|j] b Hj Hb; [lia|]. simpl in Hb.
        apply (Hge j); [lia|assumption].
    + exists 0. repeat split; simpl; try lia.
      intros [|j] b Hj Hb; simpl in Hb; [congruence|].
      rewrite Forall_forall in Hall.
      pose proof (Hall b (nth_error_In _ _ Hb)) as Hab.
      destruct (String.ltb b v) eqn:Ebv; [|reflexivity].
      rewrite (ltb_trans _ _ _ Hab Ebv) in Eav. discriminate.
Qed.

(** A partition point of the whole table restricts to every range. *)
Lemma partition_point_range ks v p first last :
  partition_point ks v 0 (List.length ks) p ->
  first <= last <= List.length ks ->
  partition_point ks v first (last - first) (Nat.max first (Nat.min p last)).
Proof.
  intros (Hr & Hlt & Hge) Hfl. repeat split; try lia.
  - intros j a Hj. apply Hlt. lia.
  - intros j a Hj. apply Hge. lia.
Qed.

(** On ascending keys the loop ends on the smallest position of the
    range whose record is not less than the query. *)
Lemma lowerBound_loop_smallest table ks v first last :
  keyed table ks -> ascending ks ->
  first <= last <= List.length ks ->
  lowerBound_loop table compareSlot v first (last - first)
  = Value (smallest_not_less table v first (last - first)).
Proof.
  intros Hk Hs Hfl.
  destruct (ascending_partition ks v Hs) as (p & Hp).
  pose proof (partition_point_range ks v p first last Hp Hfl) as Hq.
  assert (Hlen : first + (last - first) <= List.length ks) by lia.
  rewrite (lowerBound_loop_partition table ks v Hk _ _ _ Hlen Hq).
  now rewrite (smallest_not_less_partition table ks v Hk _ _ _ Hlen Hq).
Qed.


Lemma smallest_not_less_range table v count :
  forall first, first <= smallest_not_less table v first count <= first + count.
Proof.
  induction count as [|c IH]; intros first; simpl; [lia|].
  destruct (nth_error table first) as [slot|]; [|lia].
  destruct (slot_less slot v); [|lia].
  specialize (IH (S first)). lia.
Qed.

(** The search against its reference: equal results whenever the
    candidate position is a position of the table; past its end the
    confirmation reads outside the array. *)
Lemma lowerBound_against_spec table ks v first last :
  keyed table ks -> ascending ks ->
  first <= last <= List.length ks ->
  lowerBound table compareSlot first last (Some v)
  = if Nat.ltb (smallest_not_less table v first (last - first)) (List.length table)
    then Value (lowerBound_spec table first last (Some v))
    else UB.
Proof.
  intros Hk Hs Hfl. unfold lowerBound, lowerBound_spec.
  rewrite (lowerBound_loop_smallest table ks v first last Hk Hs Hfl).
  pose proof (smallest_not_less_range table v (last - first) first) as Hr.
  set (c := smallest_not_less table v first (last - first)) in *.
  cbn [bind]. unfold confirm, load.
  destruct (nth_error table c) as [slot|] eqn:E.
  - assert (Hc : c < List.length table) by (apply nth_error_Some; congruence).
    apply Nat.ltb_lt in Hc. rewrite Hc. cbn [bind].
    destruct (keyed_nth _ _ _ _ Hk E) as (a & _ & ->).
    rewrite strcmp_zero.
    destruct (String.eqb a v); [|now rewrite andb_false_r].
    rewrite andb_true_r. destruct (Nat.ltb_spec c last); [reflexivity|].
    f_equal. lia.
  - apply nth_error_None in E. apply Nat.ltb_ge in E. now rewrite E.
Qed.

(** *** The table declared for an input list *)

Lemma indexEntries_keyed inputs :
  forall i, keyed (indexEntries inputs i) (map Config.key inputs).
Proof.
  unfold keyed. induction inputs as [|input rest IH]; intros i; simpl.
  - reflexivity.
  - now rewrite IH.
Qed.

Lemma ResourcesIndex_keyed inputs :
  keyed (ResourcesIndex inputs) (map Config.key inputs).
Proof. apply indexEntries_keyed. Qed.

Lemma indexEntries_nth inputs :
  forall i j input, nth_error inputs j = Some input ->
    nth_error (indexEntries inputs i) j
    = Some {| key := Some (Config.key input);
              bytes := Some (i + N.of_nat j)%N;
              size := Config.size input |}.
Proof.
  induction inputs as [|x rest IH]; intros i [|j] input Hj; simpl in *;
    try discriminate.
  - injection Hj as ->. now rewrite N.add_0_r.
  - rewrite (IH _ _ _ Hj). do 3 f_equal. lia.
Qed.

Lemma ResourcesIndex_length inputs :
  List.length (ResourcesIndex inputs) = List.length inputs.
Proof.
  rewrite (keyed_length _ _ (ResourcesIndex_keyed inputs)). apply length_map.
Qed.

(** [getResource] on ascending keys, in full: the candidate is the
    smallest position whose key is not less than the query; the result
    is that position when its key is the query, the sentinel when it is
    another key, and undefined when there is no such position. *)
Lemma getResource_ascending inputs v :
  inputs <> [] -> ascending (map Config.key inputs) ->
  getResource inputs (Some v)
  = match nth_error (map Config.key inputs)
            (smallest_not_less (ResourcesIndex inputs) v 0 (List.length inputs)) with
    | Some k =>
        if String.eqb k v
        then Value (AtIndex (smallest_not_less (ResourcesIndex inputs) v 0
                               (List.length inputs)))
        else Value AtNullResource
    | None => UB
    end.
Proof.
  intros Hne Hs. unfold getResource.
  destruct inputs as [|x rest]; [congruence|].
  set (inputs := x :: rest) in *. cbv zeta.
  pose proof (ResourcesIndex_keyed inputs) as Hk.
  pose proof (ResourcesIndex_length inputs) as Hl.
  rewrite (lowerBound_against_spec _ _ v 0 _ Hk Hs)
    by (rewrite length_map, Hl; lia).
  unfold lowerBound_spec. rewrite Nat.sub_0_r, Hl.
  set (c := smallest_not_less (ResourcesIndex inputs) v 0 (List.length inputs)).
  destruct (nth_error (map Config.key inputs) c) as [k|] eqn:E.
  - assert (Hc : c < List.length inputs).
    { rewrite <- (length_map Config.key). apply nth_error_Some. congruence. }
    rewrite (proj2 (Nat.ltb_lt _ _) Hc).
    destruct (nth_error (ResourcesIndex inputs) c) as [slot|] eqn:Et.
    2:{ apply nth_error_None in Et. lia. }
    destruct (keyed_nth _ _ _ _ Hk Et) as (a & Ha & ->).
    assert (a = k) by congruence. subst a.
    destruct (String.eqb k v); cbn [andb bind].
    + rewrite (proj2 (Nat.eqb_neq _ _) (Nat.lt_neq _ _ Hc)).
      unfold load. now rewrite Et.
    + now rewrite Nat.eqb_refl.
  - apply nth_error_None in E. rewrite length_map in E.
    now rewrite (proj2 (Nat.ltb_ge _ _) E).
Qed.


Lemma ascending_nth ks :
  ascending ks ->
  forall i j a b, i < j -> nth_error ks i = Some a -> nth_error ks j = Some b ->
    String.ltb a b = true.
Proof.
  intros Hs. apply (Sorted_StronglySorted string_lt_transitive) in Hs.
  induction Hs as [|x ks Hs IH Hall]; intros i j a b Hij Hi Hj.
  - destruct i; discriminate.
  - destruct j as [|j]; [lia|]. simpl in Hj. destruct i as [|i]; simpl in Hi.
    + injection Hi as ->. rewrite Forall_forall in Hall.
      apply Hall. eapply nth_error_In; eauto.
    + apply (IH i j); [lia|assumption|assumption].
Qed.

Lemma ltb_asym a b : String.ltb a b = true -> String.ltb b a = false.
Proof.
  intros Hab. destruct (String.ltb b a) eqn:Hba; [|reflexivity].
  pose proof (ltb_trans _ _ _ Hab Hba) as H. now rewrite ltb_irrefl in H.
Qed.

(** A key of the list is its own partition point. *)
Lemma partition_point_present ks i v :
  ascending ks -> nth_error ks i = Some v ->
  partition_point ks v 0 (List.length ks) i.
Proof.
  intros Hs Hi.
  assert (i < List.length ks) by (apply nth_error_Some; congruence).
  repeat split; try lia.
  - intros j a Hj Ha. apply (ascending_nth ks Hs j i); [lia|assumption|assumption].
  - intros j a Hj Ha. destruct (Nat.eq_dec i j) as [<-|Hne].
    + assert (a = v) by congruence. subst. apply ltb_irrefl.
    + apply ltb_asym. apply (ascending_nth ks Hs i j); [lia|assumption|assumption].
Qed.

(** A key of the input list is found at its position. *)
Lemma getResource_present inputs i input :
  ascending (map Config.key inputs) ->
  nth_error inputs i = Some input ->
  getResource inputs (Some (Config.key input)) = Value (AtIndex i).
Proof.
  intros Hs Hi.
  assert (Hne : inputs <> []) by (intros ->; destruct i; discriminate).
  rewrite (getResource_ascending inputs _ Hne Hs).
  pose proof (map_nth_error Config.key _ _ Hi) as Hk.
  pose proof (partition_point_present _ _ _ Hs Hk) as Hp.
  rewrite <- (length_map Config.key inputs).
  rewrite (smallest_not_less_whole _ _ _ _ (ResourcesIndex_keyed inputs) Hp).
  now rewrite Hk, String.eqb_refl.
Qed.


(** A query that is no key, below some key, gives the sentinel. *)
Lemma getResource_absent_below inputs v k :
  ascending (map Config.key inputs) ->
  ~ In v (map Config.key inputs) ->
  In k (map Config.key inputs) -> String.ltb v k = true ->
  getResource inputs (Some v) = Value AtNullResource.
Proof.
  intros Hs Hv Hk Hvk.
  assert (Hne : inputs <> []) by (intros ->; destruct Hk).
  rewrite (getResource_ascending inputs _ Hne Hs).
  destruct (nth_error _ _) as [a|] eqn:E.
  - destruct (String.eqb_spec a v) as [->|]; [|reflexivity].
    apply nth_error_In in E. contradiction.
  - exfalso. apply nth_error_None in E.
    destruct (ascending_partition _ v Hs) as (p & Hp).
    rewrite <- (length_map Config.key inputs) in E.
    rewrite (smallest_not_less_whole _ _ _ _ (ResourcesIndex_keyed inputs) Hp)
      in E.
    destruct Hp as (Hr & Hlt & _).
    destruct (In_nth_error _ _ Hk) as (j & Hj).
    assert (j < List.length (map Config.key inputs))
      by (apply nth_error_Some; congruence).
    assert (Hjp : 0 <= j < p) by lia.
    pose proof (Hlt _ _ Hjp Hj) as Hkv.
    rewrite (ltb_asym _ _ Hvk) in Hkv. discriminate.
Qed.

(** A query above every key makes the confirmation read the record one
    past the end of the table. *)
Lemma getResource_absent_above inputs v :
  inputs <> [] ->
  ascending (map Config.key inputs) ->
  (forall k, In k (map Config.key inputs) -> String.ltb k v = true) ->
  lowerBound_loop (ResourcesIndex inputs) compareSlot v 0 (List.length inputs)
  = Value (List.length inputs)
  /\ load (ResourcesIndex inputs) (List.length inputs) = UB
  /\ getResource inputs (Some v) = UB.
Proof.
  intros Hne Hs Hall.
  assert (Hp : partition_point (map Config.key inputs) v 0
                 (List.length (map Config.key inputs))
                 (List.length (map Config.key inputs))).
  { repeat split; try lia.
    intros j a _ Hj. apply Hall. eapply nth_error_In; eauto. }
  pose proof (ResourcesIndex_keyed inputs) as Hk.
  split; [|split].
  - rewrite <- (length_map Config.key inputs).
    apply (lowerBound_loop_whole _ _ _ _ Hk Hp).
  - unfold load.
    rewrite (proj2 (nth_error_None _ _)); [reflexivity|].
    now rewrite ResourcesIndex_length.
  - rewrite (getResource_ascending inputs _ Hne Hs).
    rewrite <- (length_map Config.key inputs) at 1.
    rewrite (smallest_not_less_whole _ _ _ _ Hk Hp).
    now rewrite (proj2 (nth_error_None _ _)) by lia.
Qed.

(** The loop reads inside its range only: what follows the table does
    not matter to it. *)
Lemma lowerBound_loop_app table extra cmp v :
  forall count first,
    first + count <= List.length table ->
    lowerBound_loop (table ++ extra)%list cmp v first count
    = lowerBound_loop table cmp v first count.
Proof.
  intros count. induction count as [count IH] using lt_wf_ind.
  intros first Hlen. destruct count as [|c].
  - now rewrite !lowerBound_loop_0.
  - rewrite !lowerBound_loop_S.
    assert (Hhalf : S c / 2 < S c) by (apply Nat.div_lt; clear IH; lia).
    assert (Hin : first + S c / 2 < List.length table) by (clear IH; lia).
    unfold load. rewrite (nth_error_app1 _ _ Hin).
    destruct (nth_error table (first + S c / 2)) as [slot|]; [|reflexivity].
    destruct (cmp slot (Some v)) as [[|]|]; [| |reflexivity];
      apply IH; clear IH; lia.
Qed.

(** Were the record one past the end there to read, whatever it holds,
    the confirmation would choose between [first] and [last] when they
    are equal: the answer for a query above every key would be [last]. *)
Lemma lowerBound_with_a_record_past_the_end inputs v beyond :
  inputs <> [] ->
  ascending (map Config.key inputs) ->
  (forall k, In k (map Config.key inputs) -> String.ltb k v = true) ->
  lowerBound (ResourcesIndex inputs ++ [beyond])%list compareSlot
    0 (List.length inputs) (Some v)
  = Value (List.length inputs).
Proof.
  intros Hne Hs Hall.
  destruct (getResource_absent_above inputs v Hne Hs Hall) as (Hloop & _ & _).
  unfold lowerBound. rewrite Nat.sub_0_r.
  rewrite lowerBound_loop_app by (rewrite ResourcesIndex_length; lia).
  rewrite Hloop. cbn [bind]. unfold confirm, load.
  rewrite nth_error_app2 by (rewrite ResourcesIndex_length; lia).
  rewrite ResourcesIndex_length, Nat.sub_diag. cbn [nth_error bind].
  destruct (key beyond) as [k|]; [|reflexivity].
  destruct (Z.eqb (strcmp v k) 0); reflexivity.
Qed.

End LowerBoundFacts.


Lemma scenario_ascending : ascending (map Config.key scenario).
Proof. repeat constructor. Qed.

(** C1 on the example of the spec: the keys are ascending, the two keys and
    the null key are answered as claimed, and for the absent key "c", above
    every key, [getResource] has no defined result where the claim has the
    sentinel. *)
Theorem getResource_undefined_above_every_key :
  ascending (map Config.key scenario)
  /\ ~ In "c" (map Config.key scenario)
  /\ getResource scenario (Some "a") = Value (AtIndex 0)
  /\ getResource scenario (Some "b") = Value (AtIndex 1)
  /\ getResource scenario None = Value AtNullResource
  /\ getResource scenario (Some "c") = UB.
Proof.
  split; [exact scenario_ascending|].
  split; [intros [H|[H|[]]]; discriminate|].
  repeat split; reflexivity.
Qed.

(** C2 on the same table: the loop stops on the smallest position whose
    record is not less than "c", which is [last]; the reference then
    answers [last], the search reads the record at [last] and has no
    defined result. *)
Theorem lowerBound_leaves_its_reference_at_last :
  let table := ResourcesIndex scenario in
  lowerBound_loop table compareSlot "c" 0 2
  = Value (smallest_not_less table "c" 0 2)
  /\ smallest_not_less table "c" 0 2 = 2
  /\ lowerBound_spec table 0 2 (Some "c") = 2
  /\ lowerBound table compareSlot 0 2 (Some "c") = UB
  /\ lowerBound table compareSlot 0 2 None = Value (lowerBound_spec table 0 2 None)
  /\ lowerBound table compareSlot 0 2 (Some "a")
     = Value (lowerBound_spec table 0 2 (Some "a")).
Proof. repeat split; reflexivity. Qed.

(** C6 on the same table and the query "c": the table has two records, the
    loop ends with [first] at position 2, and the confirmation reads the
    record at position 2, one past the end. *)
Theorem confirmation_reads_one_past_the_end :
  let table := ResourcesIndex scenario in
  List.length table = 2
  /\ lowerBound_loop table compareSlot "c" 0 (List.length table) = Value 2
  /\ load table 2 = UB
  /\ confirm table "c" 2 (List.length table) = UB.
Proof. repeat split; reflexivity. Qed.

(** * The text written *)

Section TextFacts.

Lemma append_assoc (a b c : string) : (a ++ b) ++ c = a ++ (b ++ c).
Proof. induction a as [|x a IH]; simpl; [reflexivity|now rewrite IH]. Qed.

Lemma append_nil_r (a : string) : a ++ EmptyString = a.
Proof. induction a as [|x a IH]; simpl; [reflexivity|now rewrite IH]. Qed.

Lemma squeeze_app a b : squeeze (a ++ b) = squeeze a ++ squeeze b.
Proof.
  induction a as [|x a IH]; simpl; [reflexivity|].
  destruct (Ascii.eqb x " "); simpl; now rewrite IH.
Qed.

Lemma squeeze_spaces n : squeeze (spaces n) = EmptyString.
Proof. induction n; simpl; auto. Qed.

Lemma startsWith_app w s : startsWith w (w ++ s) = true.
Proof.
  induction w as [|x w IH]; simpl; [reflexivity|].
  now rewrite Ascii.eqb_refl, IH.
Qed.

Lemma occursb_complete w s : occurs w s -> occursb w s = true.
Proof.
  intros (a & b & ->). induction a as [|x a IH]; simpl.
  - pose proof (startsWith_app w b) as H.
    destruct (w ++ b); simpl; now rewrite H.
  - rewrite IH. apply orb_true_r.
Qed.

Lemma occurs_squeeze w s : squeeze w = w -> occurs w s -> occurs w (squeeze s).
Proof.
  intros Hw (a & b & ->). exists (squeeze a), (squeeze b).
  now rewrite !squeeze_app, Hw.
Qed.

(** A word without spaces that is not in the squeezed text is not in
    the text. *)
Lemma not_occurs_by_squeeze w s :
  squeeze w = w -> occursb w (squeeze s) = false -> ~ occurs w s.
Proof.
  intros Hw Hb Ho. apply (occurs_squeeze _ _ Hw) in Ho.
  apply occursb_complete in Ho. congruence.
Qed.

Lemma readDecimal_decimal n : readDecimal (decimal n) = Some n.
Proof.
  unfold readDecimal, decimal.
  rewrite DecimalString.NilEmpty.usu. simpl. now rewrite DecimalN.Unsigned.of_to.
Qed.

Lemma decimal_inj n m : decimal n = decimal m -> n = m.
Proof.
  intros H. apply (f_equal readDecimal) in H.
  rewrite !readDecimal_decimal in H. congruence.
Qed.

End TextFacts.

(** Both sides of an equation between texts, with literals pushed through
    the appends and the appends nested to the right. *)
Ltac text_norm :=
  repeat (progress cbn [append ln nl dquote format content put setbase base]
          || rewrite append_assoc).

Section StreamFacts.

Lemma content_put os s : content (os << s) = content os ++ s.
Proof. reflexivity. Qed.

Lemma base_put os s : base (os << s) = base os.
Proof. reflexivity. Qed.

Lemma writeBytes_content bytes :
  forall i os, base os = hex ->
    content (writeBytes bytes i os) = content os ++ elements bytes i
    /\ base (writeBytes bytes i os) = hex.
Proof.
  induction bytes as [|b rest IH]; intros i os Hb; simpl.
  - now rewrite append_nil_r.
  - destruct (IH (i + 1)%N
                ((if (0 <? i)%N then os << ", " else os)
                   << "'\x" <<# Byte.to_N b << "'")) as (Hc & Hh).
    { destruct (0 <? i)%N; simpl; assumption. }
    split; [|assumption]. rewrite Hc. unfold put_unsigned.
    destruct (0 <? i)%N; simpl; rewrite Hb; simpl;
      now rewrite ?append_assoc.
Qed.

Lemma decode_element b acc rest :
  decodeFrom FirstDigit acc (hexadecimal (Byte.to_N b) ++ String "'" rest)
  = decodeFrom Closed (b :: acc) rest.
Proof. destruct b; reflexivity. Qed.

Lemma decode_elements bytes :
  forall i acc, (0 < i)%N ->
    decodeFrom Closed acc (elements bytes i) = Some (rev acc ++ bytes)%list.
Proof.
  induction bytes as [|b rest IH]; intros i acc Hi.
  - simpl. now rewrite app_nil_r.
  - cbn [elements]. rewrite (proj2 (N.ltb_lt _ _) Hi).
    cbn [append decodeFrom Ascii.eqb Bool.eqb].
    rewrite decode_element, IH by lia.
    simpl. now rewrite <- app_assoc.
Qed.

Lemma decodeInitializer_elements bytes :
  decodeInitializer (elements bytes 0) = Some bytes.
Proof.
  unfold decodeInitializer. destruct bytes as [|b rest]; [reflexivity|].
  cbn [elements N.ltb N.compare append decodeFrom Ascii.eqb Bool.eqb].
  rewrite decode_element. apply (decode_elements rest 1 [b]). lia.
Qed.

Variable this : LegacyCppCodeGenerator.

Lemma squeeze_tab n :
  squeeze (_tabulation this) = EmptyString -> squeeze (tab this n) = EmptyString.
Proof.
  intros Ht. induction n as [|n IH]; simpl; [reflexivity|].
  now rewrite squeeze_app, IH, Ht.
Qed.

Lemma writeResource_content input inputPosition bytes os :
  content (writeResource this input inputPosition bytes os)
  = content os ++ tab this 2 ++ "static constexpr char const "
    ++ makeResourceName inputPosition ++ "[] = {"
    ++ elements bytes 0 ++ ln "};".
Proof.
  unfold writeResource.
  destruct (writeBytes_content bytes 0
              (os << tab this 2
                  << format "static constexpr char const {}[] = {"
                       [makeResourceName inputPosition] <<% hex) eq_refl)
    as (Hc & _).
  cbn [content put setbase] in *. rewrite Hc.
  text_norm. reflexivity.
Qed.

Lemma writeResource_base input inputPosition bytes os :
  base (writeResource this input inputPosition bytes os) = dec.
Proof. reflexivity. Qed.

Lemma writeData_base inputs :
  forall i fs os fs' os' r,
    writeData this inputs i fs os = (fs', os', r) ->
    base os = dec -> base os' = dec.
Proof.
  induction inputs as [|input rest IH]; intros i fs os fs' os' r H Hb; simpl in H.
  - injection H as <- <- <-. assumption.
  - unfold loadFile in H.
    destruct (FileSystem.files fs (Config.filePath input)) as [buffer|].
    + apply IH in H; [assumption|apply writeResource_base].
    + injection H as <- <- <-. assumption.
Qed.

Lemma writeIndex_content inputs :
  forall i os, base os = dec ->
    content (writeIndex this inputs i os)
    = content os ++ indexText (tab this 3) inputs i.
Proof.
  induction inputs as [|input rest IH]; intros i os Hb;
    cbn [writeIndex indexText].
  - now rewrite append_nil_r.
  - rewrite IH by assumption. unfold put_unsigned.
    cbn [content put base]. rewrite Hb. text_norm. reflexivity.
Qed.

End StreamFacts.

Lemma makeResourceName_R i : makeResourceName i = "R" ++ decimal i.
Proof. unfold makeResourceName. cbn [format append]. now rewrite append_nil_r. Qed.

Lemma makeResourceName_inj i j : makeResourceName i = makeResourceName j -> i = j.
Proof.
  rewrite !makeResourceName_R. intros H. injection H as H. now apply decimal_inj.
Qed.

Example writeResource_every_byte :
  decodeInitializer (elements everyByte 0) = Some everyByte
  /\ List.length everyByte = 256.
Proof. split; vm_compute; reflexivity. Qed.

(** C8, as the code has it: the declaration written for position N is named
    R followed by N in decimal, whatever the input and its bytes. *)
Theorem writeResource_names_by_position (cfg : Config.Configuration)
    (input : Config.Input) (inputPosition : N) (bytes : list Byte.byte)
    (os : ostream) :
  makeResourceName inputPosition = "R" ++ decimal inputPosition
  /\ exists rest,
       content (writeResource (create cfg) input inputPosition bytes os)
       = content os ++ tab (create cfg) 2 ++ "static constexpr char const R"
         ++ decimal inputPosition ++ "[] = {" ++ rest.
Proof.
  split; [apply makeResourceName_R|].
  exists (elements bytes 0 ++ ln "};").
  rewrite writeResource_content, makeResourceName_R. text_norm. reflexivity.
Qed.


(** C8 as stated fails: the first array is named R0, not Resource0. *)
Lemma first_array_is_not_named_Resource0 :
  content (writeResource (create oneInput) firstInput 0 [Byte.x00; Byte.xff] Stream.empty)
  = "        static constexpr char const R0[] = {'\x0', '\xff'};" ++ nl
  /\ ~ exists rest,
         content (writeResource (create oneInput) firstInput 0 [Byte.x00; Byte.xff]
                    Stream.empty)
         = tab (create oneInput) 2 ++ "static constexpr char const Resource0[] = {"
           ++ rest.
Proof.
  split; [reflexivity|]. intros (rest & H). vm_compute in H. discriminate.
Qed.


Section AccessText.

Variable tabDefault : nat.
Variable this : LegacyCppCodeGenerator.

(** [writeAccessFunction] only appends. *)
Lemma writeAccessFunction_appends os :
  content (writeAccessFunction tabDefault this os)
  = content os ++ content (writeAccessFunction tabDefault this Stream.empty).
Proof.
  unfold writeAccessFunction.
  destruct (isEmpty (Config.inputs (_configuration this)));
    cbn [negb]; text_norm; reflexivity.
Qed.

Hypothesis no_input : Config.inputs (_configuration this) = [].
Hypothesis blank_tabulation : squeeze (_tabulation this) = EmptyString.

Lemma writeResources_empty fs os :
  writeResources this fs os = (fs, os, Returned tt).
Proof. unfold writeResources. now rewrite no_input. Qed.

(** Without its spaces, the text written for an empty input list is the
    same for every tabulation. *)
Lemma writeAccessFunction_empty_squeezed :
  squeeze (content (writeAccessFunction tabDefault this Stream.empty))
  = squeeze (content (writeAccessFunction 0 (create noInput) Stream.empty)).
Proof.
  remember (squeeze (content (writeAccessFunction 0 (create noInput) Stream.empty)))
    as reference eqn:Hr.
  unfold writeAccessFunction. rewrite no_input.
  cbn [isEmpty negb content put Stream.empty].
  rewrite !squeeze_app, !squeeze_tab by exact blank_tabulation.
  subst reference. vm_compute. reflexivity.
Qed.

Lemma writeAccessFunction_empty_lacks word :
  squeeze word = word ->
  occursb word
    (squeeze (content (writeAccessFunction 0 (create noInput) Stream.empty)))
  = false ->
  ~ occurs word (content (writeAccessFunction tabDefault this Stream.empty)).
Proof.
  intros Hw Hb. apply (not_occurs_by_squeeze _ _ Hw).
  now rewrite writeAccessFunction_empty_squeezed.
Qed.

End AccessText.

Lemma squeeze_create_tabulation cfg : squeeze (_tabulation (create cfg)) = EmptyString.
Proof. apply squeeze_spaces. Qed.

Example guard_and_namespace_of_a_path :
  _headerProtectionMacroName
    (create {| Config.configurationFilePath := "assets/My-Res2.txt";
               Config.tabulationSize := 2; Config.inputs := [] |})
  = "RESCOM_GENERATED_FILE_MY-RES2"
  /\ resourceFileStem
       (create {| Config.configurationFilePath := "assets/My-Res2.txt";
                  Config.tabulationSize := 2; Config.inputs := [] |})
     = "my-res2".
Proof. split; reflexivity. Qed.

Lemma writeData_nonempty_base this inputs i fs os fs' os' :
  inputs <> [] ->
  writeData this inputs i fs os = (fs', os', Returned tt) ->
  base os' = dec.
Proof.
  destruct inputs as [|input rest]; [congruence|]. intros _.
  cbn [writeData]. unfold loadFile.
  destruct (FileSystem.files fs (Config.filePath input)) as [buffer|];
    [|discriminate].
  intros H. apply writeData_base in H; [assumption|apply writeResource_base].
Qed.

(** [writeResources] when there are inputs. *)
Lemma writeResources_nonempty this fs os :
  Config.inputs (_configuration this) <> [] ->
  writeResources this fs os
  = match writeData this (Config.inputs (_configuration this)) 0 fs
            (os << tab this 1 << ln "namespace details {"
                << tab this 2
                << "static constexpr unsigned int const ResourcesCount = "
                <<# N.of_nat (List.length (Config.inputs (_configuration this)))
                << ln ";") with
    | (fs', output, Thrown what) => (fs', output, Thrown what)
    | (fs', output, Returned _) =>
        (fs',
         writeIndex this (Config.inputs (_configuration this)) 0
           (output << tab this 2
                   << ln "static constexpr Resource const ResourcesIndex[ResourcesCount] = "
                   << tab this 2 << ln "{")
           << tab this 2 << ln "};"
           << tab this 1 << (ln "} // namespace details" ++ nl),
         Returned tt)
    end.
Proof.
  unfold writeResources.
  destruct (Config.inputs (_configuration this)); [congruence|reflexivity].
Qed.

(** C5: in the table written after every file was loaded, each entry carries
    the declared size of its input, in decimal, whatever the files hold;
    the text of the size reads back as the declared size. *)
Theorem index_entries_carry_declared_size (cfg : Config.Configuration)
    (fs fs' : FileSystem.t) (os os' : ostream) :
  Config.inputs cfg <> [] ->
  writeResources (create cfg) fs os = (fs', os', Returned tt) ->
  (exists before,
     content os'
     = before
       ++ tab (create cfg) 2
       ++ ln "static constexpr Resource const ResourcesIndex[ResourcesCount] = "
       ++ tab (create cfg) 2 ++ ln "{"
       ++ indexText (tab (create cfg) 3) (Config.inputs cfg) 0
       ++ tab (create cfg) 2 ++ ln "};"
       ++ tab (create cfg) 1 ++ ln "} // namespace details" ++ nl)
  /\ Forall (fun input =>
               readDecimal (decimal (Config.size input)) = Some (Config.size input))
       (Config.inputs cfg).
Proof.
  intros Hne H. split.
  - rewrite writeResources_nonempty in H by exact Hne.
    change (Config.inputs (_configuration (create cfg))) with (Config.inputs cfg) in H.
    destruct (writeData _ _ _ _ _) as [[fs1 os1] [[]|what]] eqn:Hd; [|discriminate].
    pose proof (writeData_nonempty_base _ _ _ _ _ _ _ Hne Hd) as Hb.
    apply (f_equal (fun r => content (snd (fst r)))) in H. cbn [fst snd] in H.
    rewrite <- H. exists (content os1). cbn [content put].
    rewrite writeIndex_content by exact Hb.
    text_norm. reflexivity.
  - apply Forall_forall. intros input _. apply readDecimal_decimal.
Qed.


Lemma index_entries_carry_declared_size_witness :
  exists before,
    content (snd (fst (writeResources (create declaredSeven) twoBytes Stream.empty)))
    = before ++ " " ++ " "
      ++ ln "static constexpr Resource const ResourcesIndex[ResourcesCount] = "
      ++ " " ++ " " ++ ln "{"
      ++ (" " ++ " " ++ " " ++ "{" ++ dquote ++ "a" ++ dquote ++ ", 7, R0" ++ ln "},")
      ++ " " ++ " " ++ ln "};" ++ " " ++ ln "} // namespace details" ++ nl.
Proof.
  destruct (index_entries_carry_declared_size declaredSeven twoBytes
              (fst (fst (writeResources (create declaredSeven) twoBytes Stream.empty)))
              Stream.empty
              (snd (fst (writeResources (create declaredSeven) twoBytes Stream.empty))))
    as ((before & H) & _).
  - discriminate.
  - reflexivity.
  - exists before. rewrite H. reflexivity.
Defined.

(** * Failure to load a file *)

Section LoadFailure.

Variable tabDefault : nat.
Variable this : LegacyCppCodeGenerator.

Lemma format_unable_to_read p :
  format "unable to read '{}'" [Path.generic_string p] = "unable to read '" ++ p ++ "'".
Proof. reflexivity. Qed.

(** The first loop stops at the first file that cannot be opened: the
    files before it were opened once each, in order, it was tried once,
    and nothing after it was touched. *)
Lemma writeData_first_failure inputs :
  forall i fs os before input after,
    inputs = (before ++ input :: after)%list ->
    Forall (fun x => FileSystem.files fs (Config.filePath x) <> None) before ->
    FileSystem.files fs (Config.filePath input) = None ->
    exists os',
      writeData this inputs i fs os
      = ({| FileSystem.files := FileSystem.files fs;
            FileSystem.writable := FileSystem.writable fs;
            FileSystem.opened :=
              (FileSystem.opened fs
                 ++ map Config.filePath before ++ [Config.filePath input])%list |},
         os',
         Thrown ("unable to read '" ++ Config.filePath input ++ "'")).
Proof.
  intros i fs os before. revert inputs i fs os.
  induction before as [|x before IH]; intros inputs i fs os input after -> Hb Hi.
  - cbn [app writeData]. unfold loadFile. rewrite Hi.
    eexists. reflexivity.
  - cbn [app writeData]. unfold loadFile.
    inversion Hb as [|? ? Hx Hb']; subst.
    destruct (FileSystem.files fs (Config.filePath x)) as [buffer|] eqn:Ex;
      [|congruence].
    destruct (IH _ (i + 1)%N (FileSystem.record_open fs (Config.filePath x))
                (writeResource this x i buffer os) input after eq_refl Hb' Hi)
      as (os' & ->).
    exists os'. unfold FileSystem.record_open. cbn. now rewrite <- app_assoc.
Qed.

(** Some input that cannot be opened gives a first one. *)
Lemma first_unreadable (files : Config.path -> option (list Byte.byte)) inputs :
  Exists (fun x => files (Config.filePath x) = None) inputs ->
  exists before input after,
    inputs = (before ++ input :: after)%list
    /\ Forall (fun x => files (Config.filePath x) <> None) before
    /\ files (Config.filePath input) = None.
Proof.
  induction inputs as [|x rest IH]; intros H; [inversion H|].
  destruct (files (Config.filePath x)) as [buffer|] eqn:Ex.
  - inversion H as [? ? Hx|? ? Hrest]; subst; [congruence|].
    destruct (IH Hrest) as (before & input & after & -> & Hb & Hi).
    exists (x :: before), input, after. repeat split; [|assumption].
    constructor; [congruence|assumption].
  - exists [], x, rest. repeat split; [constructor|assumption].
Qed.

Lemma generate_first_failure fs os before input after :
  Config.inputs (_configuration this) = (before ++ input :: after)%list ->
  Forall (fun x => FileSystem.files fs (Config.filePath x) <> None) before ->
  FileSystem.files fs (Config.filePath input) = None ->
  exists os',
    generate tabDefault this fs os
    = ({| FileSystem.files := FileSystem.files fs;
          FileSystem.writable := FileSystem.writable fs;
          FileSystem.opened :=
            (FileSystem.opened fs
               ++ map Config.filePath before ++ [Config.filePath input])%list |},
       os',
       Thrown ("unable to read '" ++ Config.filePath input ++ "'")).
Proof.
  intros Hin Hb Hi. unfold generate, writeResources. rewrite Hin.
  destruct (before ++ input :: after)%list as [|x rest] eqn:E.
  - destruct before; discriminate.
  - rewrite <- E.
    edestruct (writeData_first_failure (before ++ input :: after) 0 fs)
      as (os' & ->); [reflexivity|exact Hb|exact Hi|].
    exists os'. reflexivity.
Qed.

End LoadFailure.




(** What is run on the same inputs when every file is there. *)
Example scenario_run :
  let w := {| fs := {| FileSystem.files := fun p =>
                         if String.eqb p "a.bin" then Some [Byte.x00; Byte.xff]
                         else if String.eqb p "b.bin" then Some [] else None;
                       FileSystem.writable := fun _ => true;
                       FileSystem.opened := [] |};
              cout := EmptyString; cerr := EmptyString |} in
  let '(w', e) :=
    main "1" 1 (fun _ _ => Returned scenarioConfiguration)
      (fun _ c => Returned (Some (create c)))
      {| version := false; input := Some "resources.txt";
         output := Some "resources.hpp"; generator := None |} w in
  e = Exit 0
  /\ FileSystem.opened (fs w') = ["a.bin"; "b.bin"]
  /\ cerr w' = EmptyString
  /\ exists text, FileSystem.files (fs w') "resources.hpp" = Some text.
Proof. vm_compute. repeat split. eexists. reflexivity. Qed.


(** * Further properties *)

(** * StringHelpers.cpp: replaceAll *)

Section ReplaceAll.

Variables toReplace replacement : ascii.

Lemma get_set str :
  forall pos i c, pos < String.length str ->
    String.get i (set str pos c) = if Nat.eqb i pos then Some c else String.get i str.
Proof.
  induction str as [|x rest IH]; intros pos i c Hp; simpl in *; [lia|].
  destruct pos as [|p]; destruct i as [|i]; simpl; try reflexivity.
  apply IH. lia.
Qed.

Lemma find_some str c :
  forall pos next, find str c pos = Some next ->
    String.get next str = Some c
    /\ forall j, pos <= j < next -> String.get j str <> Some c.
Proof.
  induction str as [|x rest IH]; intros pos next H; simpl in *; [discriminate|].
  destruct pos as [|p].
  - destruct (Ascii.eqb_spec x c) as [->|Hne].
    + injection H as <-. split; [reflexivity|]. intros j Hj. lia.
    + destruct (find rest c 0) as [n|] eqn:E; [|discriminate].
      injection H as <-. destruct (IH _ _ E) as (Hg & Hb). split; [exact Hg|].
      intros [|j] Hj; simpl; [congruence|]. apply Hb. lia.
  - destruct (find rest c p) as [n|] eqn:E; [|discriminate].
    injection H as <-. destruct (IH _ _ E) as (Hg & Hb). split; [exact Hg|].
    intros [|j] Hj; simpl; [lia|]. apply Hb. lia.
Qed.

Lemma find_none str c :
  forall pos, find str c pos = None ->
    forall j, pos <= j -> String.get j str <> Some c.
Proof.
  induction str as [|x rest IH]; intros pos H j Hj; simpl in *.
  - destruct j; discriminate.
  - destruct pos as [|p].
    + destruct (Ascii.eqb_spec x c) as [->|Hne]; [discriminate|].
      destruct (find rest c 0) eqn:E; [discriminate|].
      destruct j as [|j]; simpl; [congruence|]. apply (IH 0 E). lia.
    + destruct (find rest c p) eqn:E; [discriminate|].
      destruct j as [|j]; [lia|]. simpl. apply (IH p E). lia.
Qed.

Lemma replaceAll_loop_unfold str pos :
  replaceAll_loop toReplace replacement str pos
  = match find (set str pos replacement) toReplace (pos + 1) with
    | Some next => replaceAll_loop toReplace replacement (set str pos replacement) next
    | None => set str pos replacement
    end.
Proof.
  rewrite replaceAll_loop_equation_1. unfold inspect.
  match goal with
  | |- ?f (exist _ _ eq_refl) = _ =>
      assert (H : forall o (e : find (set str pos replacement) toReplace (pos + 1) = o),
                 f (exist _ o e)
                 = match o with
                   | Some next =>
                       replaceAll_loop toReplace replacement (set str pos replacement) next
                   | None => set str pos replacement
                   end)
        by (intros [n|] e; reflexivity)
  end.
  apply H.
Qed.

Lemma get_ext : forall s t : string, (forall i, String.get i s = String.get i t) -> s = t.
Proof.
  induction s as [|x s IH]; intros [|y t] H.
  - reflexivity.
  - specialize (H 0). discriminate.
  - specialize (H 0). discriminate.
  - pose proof (H 0) as H0. simpl in H0. injection H0 as ->.
    f_equal. apply IH. intros i. exact (H (S i)).
Qed.

Lemma get_transform f str :
  forall i, String.get i (transform f str) = option_map f (String.get i str).
Proof.
  induction str as [|x rest IH]; intros [|i]; simpl; auto.
Qed.

Lemma replaced_other c : c <> toReplace -> replaced toReplace replacement c = c.
Proof.
  unfold replaced. destruct (Ascii.eqb_spec c toReplace); congruence.
Qed.

Lemma option_map_replaced_other o :
  o <> Some toReplace -> option_map (replaced toReplace replacement) o = o.
Proof.
  destruct o as [c|]; simpl; [|reflexivity].
  intros H. rewrite replaced_other; congruence.
Qed.

Lemma replaced_toReplace : replaced toReplace replacement toReplace = replacement.
Proof. unfold replaced. now rewrite Ascii.eqb_refl. Qed.

(** The loop entered at [pos] leaves what is before [pos] and replaces
    from [pos] on. *)
Lemma replaceAll_loop_get :
  forall m str pos,
    String.length str - pos < m -> pos < String.length str ->
    (forall i, i < pos ->
       String.get i (replaceAll_loop toReplace replacement str pos) = String.get i str)
    /\ (String.get pos str = Some toReplace ->
        forall i, pos <= i ->
          String.get i (replaceAll_loop toReplace replacement str pos)
          = option_map (replaced toReplace replacement) (String.get i str)).
Proof.
  induction m as [|m IH]; intros str pos Hm Hp; [lia|].
  rewrite replaceAll_loop_unfold.
  pose proof (get_set str pos) as Hset.
  destruct (find (set str pos replacement) toReplace (pos + 1)) as [next|] eqn:E.
  - pose proof (find_range _ _ _ _ E) as Hr. rewrite length_set in Hr.
    destruct (find_some _ _ _ _ E) as (Hnext & Hbetween).
    destruct (IH (set str pos replacement) next) as (Hpre & Hpost);
      [rewrite length_set; lia|rewrite length_set; lia|].
    split.
    + intros i Hi. rewrite Hpre by lia. rewrite Hset by lia.
      now rewrite (proj2 (Nat.eqb_neq i pos)) by lia.
    + intros Hat i Hi. destruct (Nat.lt_ge_cases i next) as [Hlt|Hge].
      * rewrite Hpre by lia. rewrite Hset by lia.
        destruct (Nat.eqb_spec i pos) as [->|Hne].
        -- rewrite Hat. simpl. now rewrite replaced_toReplace.
        -- assert (Hb : String.get i (set str pos replacement) <> Some toReplace)
             by (apply Hbetween; lia).
           rewrite Hset in Hb by lia.
           rewrite (proj2 (Nat.eqb_neq i pos)) in Hb by lia.
           now rewrite option_map_replaced_other.
      * rewrite (Hpost Hnext) by lia. rewrite Hset by lia.
        now rewrite (proj2 (Nat.eqb_neq i pos)) by lia.
  - pose proof (find_none _ _ _ E) as Hnone. split.
    + intros i Hi. rewrite Hset by lia.
      now rewrite (proj2 (Nat.eqb_neq i pos)) by lia.
    + intros Hat i Hi. rewrite Hset by lia.
      destruct (Nat.eqb_spec i pos) as [->|Hne].
      * rewrite Hat. simpl. now rewrite replaced_toReplace.
      * assert (Hb : String.get i (set str pos replacement) <> Some toReplace)
          by (apply Hnone; lia).
        rewrite Hset in Hb by lia.
        rewrite (proj2 (Nat.eqb_neq i pos)) in Hb by lia.
        now rewrite option_map_replaced_other.
Qed.

Lemma replaceAll_is_transform str :
  replaceAll str toReplace replacement = transform (replaced toReplace replacement) str.
Proof.
  apply get_ext. intros i. rewrite get_transform. unfold replaceAll.
  destruct (find str toReplace 0) as [pos|] eqn:E.
  - pose proof (find_range _ _ _ _ E) as Hr.
    destruct (find_some _ _ _ _ E) as (Hat & Hbefore).
    destruct (replaceAll_loop_get (S (String.length str - pos)) str pos) as (Hpre & Hpost);
      [lia|lia|].
    destruct (Nat.lt_ge_cases i pos) as [Hlt|Hge].
    + rewrite Hpre by lia. rewrite option_map_replaced_other; [reflexivity|].
      apply Hbefore. lia.
    + now apply Hpost.
  - rewrite option_map_replaced_other; [reflexivity|].
    apply (find_none _ _ _ E). lia.
Qed.

End ReplaceAll.

Lemma length_transform f str : String.length (transform f str) = String.length str.
Proof. induction str as [|x rest IH]; simpl; auto. Qed.

(** X1: [replaceAll] replaces every occurrence of the character and nothing
    else: the string it leaves is the string given with each [toReplace]
    turned into [replacement], of the same length. *)
Theorem replaceAll_replaces_each_occurrence (str : string)
    (toReplace replacement : ascii) :
  replaceAll str toReplace replacement
  = transform (fun c => if Ascii.eqb c toReplace then replacement else c) str
  /\ String.length (replaceAll str toReplace replacement) = String.length str
  /\ forall i,
       String.get i (replaceAll str toReplace replacement)
       = option_map (fun c => if Ascii.eqb c toReplace then replacement else c)
           (String.get i str).
Proof.
  pose proof (replaceAll_is_transform toReplace replacement str) as H.
  unfold replaced in H. rewrite H. repeat split.
  - apply length_transform.
  - apply get_transform.
Qed.

(** X2: when the replacement is another character, [toReplace] is nowhere
    in what [replaceAll] leaves. *)
Theorem replaceAll_leaves_no_occurrence (str : string)
    (toReplace replacement : ascii) :
  replacement <> toReplace ->
  find (replaceAll str toReplace replacement) toReplace 0 = None.
Proof.
  intros Hne.
  destruct (find _ toReplace 0) as [n|] eqn:E; [|reflexivity].
  destruct (find_some _ _ _ _ E) as (Hat & _).
  rewrite (replaceAll_is_transform toReplace replacement), get_transform in Hat.
  destruct (String.get n str) as [c|]; [|discriminate].
  simpl in Hat. injection Hat as Hat. unfold replaced in Hat.
  destruct (Ascii.eqb_spec c toReplace); congruence.
Qed.

Lemma replaceAll_leaves_no_occurrence_witness :
  find (replaceAll "a-b-c" "-" "_") "-" 0 = None.
Proof.
  apply (replaceAll_leaves_no_occurrence "a-b-c" "-" "_"). discriminate.
Defined.

(** * StringHelpers.cpp: toUpper, toLower *)

Lemma toupper_tolower c : toupper (tolower c) = toupper c.
Proof. destruct c as [[|] [|] [|] [|] [|] [|] [|] [|]]; reflexivity. Qed.

Lemma tolower_toupper c : tolower (toupper c) = tolower c.
Proof. destruct c as [[|] [|] [|] [|] [|] [|] [|] [|]]; reflexivity. Qed.

Lemma toupper_toupper c : toupper (toupper c) = toupper c.
Proof. destruct c as [[|] [|] [|] [|] [|] [|] [|] [|]]; reflexivity. Qed.

Lemma tolower_tolower c : tolower (tolower c) = tolower c.
Proof. destruct c as [[|] [|] [|] [|] [|] [|] [|] [|]]; reflexivity. Qed.

Lemma transform_transform f g h str :
  (forall c, f (g c) = h c) -> transform f (transform g str) = transform h str.
Proof.
  intros H. induction str as [|x rest IH]; simpl; [reflexivity|].
  now rewrite H, IH.
Qed.

Lemma toUpper_toLower str : toUpper (toLower str) = toUpper str.
Proof. apply transform_transform, toupper_tolower. Qed.

Lemma toLower_toUpper str : toLower (toUpper str) = toLower str.
Proof. apply transform_transform, tolower_toupper. Qed.

(** X3: case conversion keeps the length, is idempotent, and each
    conversion absorbs the other: upper-casing a lower-cased string gives
    the upper-cased string, and the other way round. *)
Theorem case_conversions_absorb (str : string) :
  toUpper (toLower str) = toUpper str
  /\ toLower (toUpper str) = toLower str
  /\ toUpper (toUpper str) = toUpper str
  /\ toLower (toLower str) = toLower str
  /\ String.length (toUpper str) = String.length str
  /\ String.length (toLower str) = String.length str.
Proof.
  repeat split.
  - apply toUpper_toLower.
  - apply toLower_toUpper.
  - apply transform_transform, toupper_toupper.
  - apply transform_transform, tolower_tolower.
  - unfold toUpper. induction str; simpl; auto.
  - unfold toLower. induction str; simpl; auto.
Qed.

(** X4: two configuration files whose stems differ at most in the case of
    ASCII letters get the same guard and the same namespace: with the same
    tabulation their headers and footers are the same text, whatever the
    directories, extensions and inputs. *)
Theorem stems_equal_up_to_case_collide
    (path1 path2 : Config.path) (tabulationSize : nat)
    (inputs1 inputs2 : list Config.Input) (os : ostream) :
  toLower (Path.stem path1) = toLower (Path.stem path2) ->
  let this1 := create {| Config.configurationFilePath := path1;
                         Config.tabulationSize := tabulationSize;
                         Config.inputs := inputs1 |} in
  let this2 := create {| Config.configurationFilePath := path2;
                         Config.tabulationSize := tabulationSize;
                         Config.inputs := inputs2 |} in
  _headerProtectionMacroName this1 = _headerProtectionMacroName this2
  /\ resourceFileStem this1 = resourceFileStem this2
  /\ writeFileHeader this1 os = writeFileHeader this2 os
  /\ writeFileFooter this1 os = writeFileFooter this2 os.
Proof.
  intros H this1 this2.
  assert (Hg : _headerProtectionMacroName this1 = _headerProtectionMacroName this2).
  { cbn. unfold Path.generic_string.
    rewrite <- (toUpper_toLower (Path.stem path1)), H, toUpper_toLower. reflexivity. }
  assert (Hn : resourceFileStem this1 = resourceFileStem this2) by exact H.
  assert (Ht : forall n, tab this1 n = tab this2 n).
  { induction n as [|n IH]; simpl; [reflexivity|]. now rewrite IH. }
  repeat split; try assumption.
  - unfold writeFileHeader. now rewrite Hg, Hn, !Ht.
  - unfold writeFileFooter. now rewrite Hg, Hn, !Ht.
Qed.

Lemma stems_equal_up_to_case_collide_witness :
  writeFileHeader
    (create {| Config.configurationFilePath := "assets/Fonts.txt";
               Config.tabulationSize := 4; Config.inputs := [] |}) Stream.empty
  = writeFileHeader
      (create {| Config.configurationFilePath := "other/FONTS.cfg";
                 Config.tabulationSize := 4; Config.inputs := scenario |}) Stream.empty.
Proof.
  apply (stems_equal_up_to_case_collide "assets/Fonts.txt" "other/FONTS.cfg" 4
           [] scenario Stream.empty).
  reflexivity.
Defined.

(** * StringHelpers.cpp: trim *)

Section Trim.

Lemma keep_remove_prefix n : forall v, v = keep n v ++ remove_prefix n v.
Proof.
  induction n as [|n IH]; intros [|c rest]; simpl; try reflexivity.
  now rewrite <- IH.
Qed.

Lemma keep_all v : keep (String.length v) v = v.
Proof. induction v as [|c rest IH]; simpl; [reflexivity|now rewrite IH]. Qed.

Lemma allSpaces_app a b : allSpaces (a ++ b) = allSpaces a && allSpaces b.
Proof.
  induction a as [|c a IH]; simpl; [reflexivity|].
  now rewrite IH, andb_assoc.
Qed.

Lemma lastChar_None s : lastChar s = None -> s = EmptyString.
Proof.
  destruct s as [|c rest]; [reflexivity|]. simpl.
  destruct (lastChar rest); discriminate.
Qed.

(** The prefix removed is made of spaces and what is left does not start
    with one. *)
Lemma strip_front v :
  let k := min_npos (find_first_not_of v) (String.length v) in
  allSpaces (keep k v) = true
  /\ match firstChar (remove_prefix k v) with
     | Some c => inSpaces c = false
     | None => True
     end.
Proof.
  induction v as [|c rest IH]; simpl; [split; [reflexivity|exact I]|].
  destruct (inSpaces c) eqn:Ec.
  - destruct (find_first_not_of rest) as [i|]; simpl in *;
      rewrite Ec; exact IH.
  - simpl. split; [reflexivity|]. unfold firstChar. simpl. exact Ec.
Qed.

Lemma find_last_not_of_bound v :
  succ_npos (find_last_not_of v) <= String.length v.
Proof.
  induction v as [|c rest IH]; simpl; [lia|].
  destruct (find_last_not_of rest) as [i|]; simpl in *; [lia|].
  destruct (inSpaces c); simpl; lia.
Qed.

(** What follows the last character outside [Spaces] is made of spaces,
    and what is kept ends with that character. *)
Lemma strip_back v :
  let m := succ_npos (find_last_not_of v) in
  allSpaces (remove_prefix m v) = true
  /\ match lastChar (keep m v) with
     | Some c => inSpaces c = false
     | None => True
     end.
Proof.
  induction v as [|c rest IH]; simpl; [split; [reflexivity|exact I]|].
  destruct (find_last_not_of rest) as [i|] eqn:E; simpl in *.
  - destruct IH as (Ha & Hl). split; [exact Ha|].
    destruct (lastChar _) as [d|] eqn:El; [exact Hl|].
    apply lastChar_None in El. destruct rest; discriminate.
  - destruct IH as (Ha & _). destruct (inSpaces c) eqn:Ec; simpl.
    + rewrite Ec. split; [exact Ha|exact I].
    + split; [exact Ha|]. destruct rest; simpl; exact Ec.
Qed.

Lemma remove_suffix_keep v m :
  m <= String.length v ->
  remove_suffix (String.length v - Nat.min m (String.length v)) v = keep m v.
Proof.
  intros H. unfold remove_suffix. f_equal. lia.
Qed.

Lemma firstChar_keep m v :
  firstChar (keep m v) = match m with O => None | S _ => firstChar v end.
Proof. destruct m, v; reflexivity. Qed.

Lemma trim_unfold v :
  trim v
  = keep (succ_npos (find_last_not_of
                       (remove_prefix
                          (min_npos (find_first_not_of v) (String.length v)) v)))
      (remove_prefix (min_npos (find_first_not_of v) (String.length v)) v).
Proof.
  unfold trim. apply remove_suffix_keep, find_last_not_of_bound.
Qed.

Lemma trim_stripped v : stripped (trim v).
Proof.
  rewrite trim_unfold.
  set (v1 := remove_prefix _ v).
  destruct (strip_front v) as (_ & Hf). fold v1 in Hf.
  destruct (strip_back v1) as (_ & Hl).
  split; [|exact Hl].
  rewrite firstChar_keep. destruct (succ_npos _); [exact I|exact Hf].
Qed.

Lemma trim_decomposes v :
  exists before after,
    v = before ++ trim v ++ after
    /\ allSpaces before = true /\ allSpaces after = true.
Proof.
  rewrite trim_unfold.
  set (k := min_npos (find_first_not_of v) (String.length v)).
  set (v1 := remove_prefix k v).
  set (m := succ_npos (find_last_not_of v1)).
  exists (keep k v), (remove_prefix m v1).
  destruct (strip_front v) as (Hb & _). destruct (strip_back v1) as (Ha & _).
  repeat split; try assumption.
  rewrite <- (keep_remove_prefix m v1). apply keep_remove_prefix.
Qed.

Lemma find_first_not_of_stripped v c :
  firstChar v = Some c -> inSpaces c = false -> find_first_not_of v = Some 0.
Proof.
  destruct v as [|x rest]; [discriminate|]. unfold firstChar. simpl.
  intros [= ->] H. now rewrite H.
Qed.

Lemma find_last_not_of_stripped v :
  forall c, lastChar v = Some c -> inSpaces c = false ->
    succ_npos (find_last_not_of v) = String.length v.
Proof.
  induction v as [|x rest IH]; intros c Hl Hc; [discriminate|]. simpl in *.
  destruct (lastChar rest) as [d|] eqn:El.
  - injection Hl as ->. specialize (IH c eq_refl Hc).
    destruct (find_last_not_of rest) as [i|]; simpl in *; [lia|].
    destruct rest; [discriminate|simpl in IH; lia].
  - injection Hl as ->. apply lastChar_None in El. subst rest. simpl.
    now rewrite Hc.
Qed.

(** A string that is stripped already is left as it is. *)
Lemma trim_of_stripped v : stripped v -> trim v = v.
Proof.
  intros (Hf & Hl). rewrite trim_unfold.
  destruct v as [|x rest]; [reflexivity|].
  unfold firstChar in Hf. simpl in Hf.
  rewrite (find_first_not_of_stripped (String x rest) x eq_refl Hf).
  cbn [min_npos Nat.min remove_prefix].
  destruct (lastChar (String x rest)) as [c|] eqn:El.
  - rewrite (find_last_not_of_stripped _ c El Hl). apply keep_all.
  - apply lastChar_None in El. discriminate.
Qed.

End Trim.

(** X5: [trim] cuts a run of [Spaces] characters off each end and nothing
    else: the view is a run of spaces, the result, and a run of spaces, and
    the result neither starts nor ends with one of them. *)
Theorem trim_strips_both_ends (view : string) :
  (exists before after,
     view = before ++ trim view ++ after
     /\ allSpaces before = true /\ allSpaces after = true)
  /\ stripped (trim view).
Proof. split; [apply trim_decomposes|apply trim_stripped]. Qed.

(** X6: trimming twice is trimming once, and a view of [Spaces] characters
    only, the empty view included, trims to the empty view. *)
Theorem trim_is_idempotent (view : string) :
  trim (trim view) = trim view
  /\ (if allSpaces view then trim view = EmptyString else trim view <> EmptyString).
Proof.
  split; [apply trim_of_stripped, trim_stripped|].
  destruct (trim_decomposes view) as (before & after & Hv & Hb & Ha).
  destruct (trim_stripped view) as (Hf & _).
  destruct (allSpaces view) eqn:E.
  - rewrite Hv in E at 1. rewrite !allSpaces_app, Hb, Ha in E.
    destruct (trim view) as [|c rest]; [reflexivity|].
    unfold firstChar in Hf. simpl in *. rewrite Hf in E. discriminate.
  - intros Hempty. rewrite Hv, Hempty in E at 1.
    rewrite !allSpaces_app, Hb, Ha in E. discriminate.
Qed.

(** * StringHelpers.cpp: removeComment *)

Section RemoveComment.

Lemma prefix_app w : forall s, String.prefix w (w ++ s) = true.
Proof.
  induction w as [|x w IH]; intros s; simpl; [now destruct s|].
  destruct (ascii_dec x x); [apply IH|congruence].
Qed.

Lemma prefix_split w : forall s, String.prefix w s = true -> exists rest, s = w ++ rest.
Proof.
  induction w as [|x w IH]; intros s H; [now exists s|].
  destruct s as [|y s]; simpl in H; [discriminate|].
  destruct (ascii_dec x y) as [->|]; [|discriminate].
  destruct (IH _ H) as (rest & ->). now exists rest.
Qed.

Lemma length_append (a b : string) :
  String.length (a ++ b) = String.length a + String.length b.
Proof. induction a as [|x a IH]; simpl; [reflexivity|now rewrite IH]. Qed.

Lemma keep_app (a b : string) : keep (String.length a) (a ++ b) = a.
Proof. induction a as [|x a IH]; simpl; [now destruct b|now rewrite IH]. Qed.

(** [find_text] gives the first place where the text starts. *)
Lemma find_text_some text :
  forall view pos, find_text view text = Some pos ->
    (exists rest, view = keep pos view ++ text ++ rest)
    /\ pos <= String.length view
    /\ forall a b, view = a ++ text ++ b -> pos <= String.length a.
Proof.
  induction view as [|x view IH]; intros pos H.
  - cbn [find_text] in H.
    destruct (String.prefix text EmptyString) eqn:E; [|discriminate].
    injection H as <-. apply prefix_split in E. destruct E as (rest & E).
    split; [exists rest; exact E|]. split; [lia|]. intros; lia.
  - cbn [find_text] in H.
    destruct (String.prefix text (String x view)) eqn:E.
    + injection H as <-. apply prefix_split in E. destruct E as (rest & E).
      split; [exists rest; exact E|]. split; [lia|]. intros; lia.
    + destruct (find_text view text) as [p|] eqn:Ef; [|discriminate].
      injection H as <-. destruct (IH p eq_refl) as ((rest & Hv) & Hp & Hfirst).
      split; [|split].
      * exists rest. cbn [keep append]. now rewrite <- Hv.
      * simpl. lia.
      * intros [|y a] b Hab.
        -- simpl in Hab. rewrite Hab, prefix_app in E. discriminate.
        -- simpl in Hab. injection Hab as -> Hab. simpl.
           apply le_n_S. eapply Hfirst; eauto.
Qed.

Lemma find_text_none text :
  forall view, find_text view text = None -> ~ occurs text view.
Proof.
  induction view as [|x view IH]; intros H (a & b & Hab).
  - cbn [find_text] in H.
    destruct (String.prefix text EmptyString) eqn:E; [discriminate|].
    destruct a; [|discriminate]. simpl in Hab.
    rewrite Hab, prefix_app in E. discriminate.
  - cbn [find_text] in H.
    destruct (String.prefix text (String x view)) eqn:E; [discriminate|].
    destruct (find_text view text) eqn:Ef; [discriminate|].
    destruct a as [|y a].
    + simpl in Hab. rewrite Hab, prefix_app in E. discriminate.
    + simpl in Hab. injection Hab as -> Hab. apply (IH eq_refl).
      now exists a, b.
Qed.

Lemma removeComment_unfold view text :
  removeComment view text
  = match find_text view text with
    | Some pos => keep pos view
    | None => view
    end.
Proof.
  unfold removeComment.
  destruct (find_text view text) as [pos|] eqn:E; [|reflexivity].
  destruct (find_text_some _ _ _ E) as (_ & Hp & _).
  unfold remove_suffix. f_equal. lia.
Qed.

Lemma removeComment_is_prefix view text :
  exists rest, view = removeComment view text ++ rest.
Proof.
  rewrite removeComment_unfold.
  destruct (find_text view text) as [pos|].
  - exists (remove_prefix pos view).
    clear. revert view. induction pos as [|n IH]; intros [|c rest]; simpl;
      try reflexivity. now rewrite <- IH.
  - exists EmptyString. clear. induction view; simpl; congruence.
Qed.

Lemma removeComment_at_marker view text :
  occurs text view -> exists rest, view = removeComment view text ++ text ++ rest.
Proof.
  intros Ho. rewrite removeComment_unfold.
  destruct (find_text view text) as [pos|] eqn:E.
  - destruct (find_text_some _ _ _ E) as (Hv & _). exact Hv.
  - now apply find_text_none in E.
Qed.

Lemma removeComment_absent view text :
  ~ occurs text view -> removeComment view text = view.
Proof.
  intros Hn. rewrite removeComment_unfold.
  destruct (find_text view text) as [pos|] eqn:E; [|reflexivity].
  destruct (find_text_some _ _ _ E) as ((rest & Hv) & _).
  exfalso. apply Hn. now exists (keep pos view), rest.
Qed.

Lemma removeComment_has_no_marker view text :
  text <> EmptyString -> ~ occurs text (removeComment view text).
Proof.
  intros Hne (a & b & Hab). rewrite removeComment_unfold in Hab.
  destruct (find_text view text) as [pos|] eqn:E.
  - destruct (find_text_some _ _ _ E) as ((rest & Hv) & Hp & Hfirst).
    assert (Hlen : String.length (keep pos view) = pos).
    { clear - Hp. revert view Hp. induction pos as [|n IH]; intros [|c v] Hp;
        simpl in *; try lia. rewrite IH; lia. }
    rewrite Hab in Hv. rewrite !append_assoc in Hv.
    apply Hfirst in Hv.
    rewrite Hab, !length_append in Hlen.
    destruct text; [congruence|]. simpl in Hlen. lia.
  - apply find_text_none in E. apply E. now exists a, b.
Qed.

End RemoveComment.

(** X7: [removeComment] with a marker that is not empty keeps exactly what
    precedes the first marker: the result is a prefix of the view, followed
    by the marker when the view has one; the marker is nowhere in the
    result; a view without the marker is left as it is; removing again
    changes nothing. *)
Theorem removeComment_keeps_what_precedes_the_marker
    (view oneLineCommentStart : string) :
  oneLineCommentStart <> EmptyString ->
  (exists rest, view = removeComment view oneLineCommentStart ++ rest)
  /\ ~ occurs oneLineCommentStart (removeComment view oneLineCommentStart)
  /\ (occurs oneLineCommentStart view ->
      exists rest,
        view = removeComment view oneLineCommentStart ++ oneLineCommentStart ++ rest)
  /\ (~ occurs oneLineCommentStart view ->
      removeComment view oneLineCommentStart = view)
  /\ removeComment (removeComment view oneLineCommentStart) oneLineCommentStart
     = removeComment view oneLineCommentStart.
Proof.
  intros Hne. repeat split.
  - apply removeComment_is_prefix.
  - now apply removeComment_has_no_marker.
  - apply removeComment_at_marker.
  - apply removeComment_absent.
  - now apply removeComment_absent, removeComment_has_no_marker.
Qed.

Lemma removeComment_keeps_what_precedes_the_marker_witness :
  removeComment (removeComment "a.png 12 # icon" "#") "#" = "a.png 12 "
  /\ removeComment "a.png 12 # icon" "#" = "a.png 12 ".
Proof.
  split; [|reflexivity].
  rewrite (proj2 (proj2 (proj2 (proj2
             (removeComment_keeps_what_precedes_the_marker "a.png 12 # icon" "#"
                ltac:(discriminate)))))).
  reflexivity.
Defined.

(** * The generated accessors on any table *)

Section AnyTable.

Lemma ResourcesIndex_nth_inv inputs i slot :
  nth_error (ResourcesIndex inputs) i = Some slot ->
  exists input,
    nth_error inputs i = Some input
    /\ slot = {| key := Some (Config.key input);
                 bytes := Some (N.of_nat i);
                 size := Config.size input |}.
Proof.
  intros H.
  destruct (nth_error inputs i) as [input|] eqn:E.
  - exists input. split; [reflexivity|].
    unfold ResourcesIndex in H. rewrite (indexEntries_nth _ 0 _ _ E) in H.
    now injection H as <-.
  - apply nth_error_None in E. rewrite <- ResourcesIndex_length in E.
    apply nth_error_None in E. congruence.
Qed.

(** A position returned holds the queried key. *)
Lemma getResource_sound inputs k i :
  getResource inputs k = Value (AtIndex i) ->
  exists input, nth_error inputs i = Some input /\ k = Some (Config.key input).
Proof.
  unfold getResource. destruct inputs as [|x rest]; [discriminate|].
  set (inputs := x :: rest). cbv zeta.
  destruct k as [v|]; cbn [lowerBound bind].
  2:{ rewrite Nat.eqb_refl. discriminate. }
  destruct (lowerBound_loop _ _ _ _ _) as [first|]; cbn [bind]; [|discriminate].
  unfold confirm, load.
  destruct (nth_error (ResourcesIndex inputs) first) as [slot|] eqn:E;
    cbn [bind]; [|discriminate].
  destruct (ResourcesIndex_nth_inv _ _ _ E) as (input & Hin & ->). cbn [key].
  rewrite strcmp_zero.
  destruct (String.eqb_spec (Config.key input) v) as [<-|Hne]; cbn [bind].
  - destruct (Nat.eqb first _); [discriminate|].
    rewrite E. cbn [bind]. intros [= <-]. now exists input.
  - rewrite Nat.eqb_refl. discriminate.
Qed.

Lemma getResource_at_partition inputs v p :
  inputs <> [] ->
  partition_point (map Config.key inputs) v 0
    (List.length (map Config.key inputs)) p ->
  getResource inputs (Some v)
  = match nth_error inputs p with
    | Some input =>
        if String.eqb (Config.key input) v then Value (AtIndex p)
        else Value AtNullResource
    | None => UB
    end.
Proof.
  intros Hne Hp. unfold getResource.
  destruct inputs as [|x rest]; [congruence|].
  set (inputs := x :: rest) in *. cbv zeta.
  pose proof (ResourcesIndex_keyed inputs) as Hk.
  pose proof (ResourcesIndex_length inputs) as Hl.
  unfold lowerBound. rewrite Nat.sub_0_r, Hl.
  rewrite <- (length_map Config.key inputs) at 1.
  rewrite (lowerBound_loop_whole _ _ _ _ Hk Hp). cbn [bind].
  unfold confirm, load.
  destruct (nth_error inputs p) as [input|] eqn:E.
  - rewrite (indexEntries_nth inputs 0 p input E : nth_error (ResourcesIndex inputs) p = _).
    cbn [bind key]. rewrite strcmp_zero.
    assert (Hlt : p < List.length inputs) by (apply nth_error_Some; congruence).
    destruct (String.eqb (Config.key input) v); cbn [bind].
    + rewrite (proj2 (Nat.eqb_neq _ _) (Nat.lt_neq _ _ Hlt)).
      now rewrite (indexEntries_nth inputs 0 p input E
                     : nth_error (ResourcesIndex inputs) p = _).
    + now rewrite Nat.eqb_refl.
  - apply nth_error_None in E. rewrite <- Hl in E. apply nth_error_None in E.
    rewrite E. reflexivity.
Qed.

(** *** Keys with duplicates *)

Lemma ltb_false_cases a b :
  String.ltb b a = false -> a = b \/ String.ltb a b = true.
Proof.
  unfold String.ltb. rewrite (String.compare_antisym b a).
  destruct (String.compare a b) eqn:E; simpl; intros H; try discriminate.
  - left. now apply String.compare_eq_iff.
  - now right.
Qed.

Lemma string_le_transitive : Relations_1.Transitive string_le.
Proof.
  intros a b c Hab Hbc. unfold string_le in *.
  destruct (ltb_false_cases _ _ Hab) as [->|Hlt]; [assumption|].
  destruct (ltb_false_cases _ _ Hbc) as [<-|Hlt']; [assumption|].
  apply ltb_asym. eapply ltb_trans; eauto.
Qed.

Lemma nondecreasing_nth ks :
  nondecreasing ks ->
  forall i j a b, i < j -> nth_error ks i = Some a -> nth_error ks j = Some b ->
    string_le a b.
Proof.
  intros Hs. apply (Sorted_StronglySorted string_le_transitive) in Hs.
  induction Hs as [|x ks Hs IH Hall]; intros i j a b Hij Hi Hj.
  - destruct i; discriminate.
  - destruct j as [|j]; [lia|]. simpl in Hj. destruct i as [|i]; simpl in Hi.
    + injection Hi as ->. rewrite Forall_forall in Hall.
      apply Hall. eapply nth_error_In; eauto.
    + apply (IH i j); [lia|assumption|assumption].
Qed.

(** The first position of a key splits non-decreasing keys. *)
Lemma partition_point_first_occurrence ks i v :
  nondecreasing ks -> nth_error ks i = Some v ->
  (forall j, j < i -> nth_error ks j <> Some v) ->
  partition_point ks v 0 (List.length ks) i.
Proof.
  intros Hs Hi Hfirst.
  assert (i < List.length ks) by (apply nth_error_Some; congruence).
  repeat split; try lia.
  - intros j a Hj Ha.
    destruct (ltb_false_cases _ _ (nondecreasing_nth ks Hs j i a v
                                     ltac:(lia) Ha Hi)) as [->|Hlt].
    + exfalso. apply (Hfirst j); [lia|assumption].
    + assumption.
  - intros j a Hj Ha. destruct (Nat.eq_dec i j) as [<-|Hne].
    + assert (a = v) by congruence. subst. apply ltb_irrefl.
    + apply (nondecreasing_nth ks Hs i j v a); [lia|assumption|assumption].
Qed.

End AnyTable.

(** * The whole document *)

Lemma spaces_app a b : spaces a ++ spaces b = spaces (a + b).
Proof. induction a as [|a IH]; simpl; [reflexivity|now rewrite IH]. Qed.

Lemma length_spaces n : String.length (spaces n) = n.
Proof. induction n as [|n IH]; simpl; [reflexivity|now rewrite IH]. Qed.

(** X14: [tab(count)] is [count] times [tabulationSize] blanks, and
    nothing for a tabulation size of zero. *)
Theorem tab_is_a_run_of_blanks (configuration : Config.Configuration) (count : nat) :
  tab (create configuration) count
  = spaces (count * Config.tabulationSize configuration)
  /\ String.length (tab (create configuration) count)
     = count * Config.tabulationSize configuration.
Proof.
  assert (H : tab (create configuration) count
              = spaces (count * Config.tabulationSize configuration)).
  { induction count as [|n IH]; simpl; [reflexivity|].
    rewrite IH, spaces_app. f_equal. lia. }
  split; [exact H|]. rewrite H. apply length_spaces.
Qed.

Section Document.

Variable tabDefault : nat.
Variable this : LegacyCppCodeGenerator.

Lemma writeData_success inputs :
  forall i fs os,
    readable (FileSystem.files fs) inputs ->
    exists os',
      writeData this inputs i fs os
      = (afterOpening fs (map Config.filePath inputs), os', Returned tt)
      /\ content os'
         = content os ++ declarationsText (tab this 2) (FileSystem.files fs) inputs i
      /\ (base os = dec -> base os' = dec).
Proof.
  induction inputs as [|input rest IH]; intros i fs os Hr.
  - exists os. cbn [writeData map declarationsText]. repeat split.
    + unfold afterOpening. rewrite app_nil_r. now destruct fs.
    + now rewrite append_nil_r.
    + auto.
  - inversion Hr as [|? ? Hin Hrest]; subst.
    cbn [writeData]. unfold loadFile.
    destruct (FileSystem.files fs (Config.filePath input)) as [buffer|] eqn:E;
      [|congruence].
    destruct (IH (i + 1)%N (FileSystem.record_open fs (Config.filePath input))
                (writeResource this input i buffer os) Hrest) as (os' & Hw & Hc & Hb).
    exists os'. repeat split.
    + rewrite Hw. unfold afterOpening, FileSystem.record_open. cbn.
      now rewrite <- app_assoc.
    + rewrite Hc, writeResource_content. cbn [declarationsText FileSystem.files
        FileSystem.record_open]. rewrite E. text_norm. reflexivity.
    + intros _. apply Hb, writeResource_base.
Qed.

(** [writeFileHeader] and [writeFileFooter] only append. *)
Lemma writeIncludes_appends includes :
  forall os,
    content (writeIncludes includes os)
    = content os ++ content (writeIncludes includes Stream.empty)
    /\ base (writeIncludes includes os) = base os.
Proof.
  induction includes as [|x rest IH]; intros os; cbn [writeIncludes].
  - split; [now rewrite append_nil_r|reflexivity].
  - destruct (IH (os << format (ln "#include {}") [x])) as (-> & ->).
    destruct (IH (Stream.empty << format (ln "#include {}") [x])) as (-> & _).
    split; [|reflexivity]. cbn [content put Stream.empty append].
    now rewrite append_assoc.
Qed.

Lemma writeFileHeader_appends os :
  content (writeFileHeader this os)
  = content os ++ content (writeFileHeader this Stream.empty)
  /\ base (writeFileHeader this os) = base os.
Proof.
  unfold writeFileHeader. cbn [content put base].
  rewrite (proj1 (writeIncludes_appends Includes _)).
  rewrite (proj1 (writeIncludes_appends Includes (Stream.empty << _ << _))).
  rewrite (proj2 (writeIncludes_appends Includes _)).
  split; [|reflexivity].
  set (inc := content (writeIncludes Includes Stream.empty)).
  text_norm. reflexivity.
Qed.

Lemma writeFileFooter_appends os :
  content (writeFileFooter this os)
  = content os ++ content (writeFileFooter this Stream.empty)
  /\ base (writeFileFooter this os) = base os.
Proof.
  unfold writeFileFooter. split; [|reflexivity]. text_norm. reflexivity.
Qed.

Lemma writeAccessFunction_base os :
  base (writeAccessFunction tabDefault this os) = base os.
Proof.
  unfold writeAccessFunction.
  destruct (isEmpty (Config.inputs (_configuration this))); reflexivity.
Qed.

Lemma writeIndex_base inputs :
  forall i os, base (writeIndex this inputs i os) = base os.
Proof.
  induction inputs as [|input rest IH]; intros i os; cbn [writeIndex];
    [reflexivity|]. now rewrite IH.
Qed.

Lemma writeResources_success fs os :
  readable (FileSystem.files fs) (Config.inputs (_configuration this)) ->
  base os = dec ->
  exists os',
    writeResources this fs os
    = (afterOpening fs (map Config.filePath (Config.inputs (_configuration this))),
       os', Returned tt)
    /\ content os' = content os ++ resourcesText this (FileSystem.files fs)
    /\ base os' = dec.
Proof.
  intros Hr Hb.
  destruct (Config.inputs (_configuration this)) as [|x rest] eqn:Hin.
  - exists os. unfold writeResources, resourcesText. rewrite Hin.
    cbn [map]. unfold afterOpening. rewrite app_nil_r, append_nil_r.
    now destruct fs.
  - assert (Hne : Config.inputs (_configuration this) <> []) by congruence.
    rewrite writeResources_nonempty by exact Hne.
    unfold resourcesText. rewrite Hin. rewrite <- Hin in *.
    set (inputs := Config.inputs (_configuration this)) in *.
    set (os0 := os << tab this 1 << ln "namespace details {"
                   << tab this 2
                   << "static constexpr unsigned int const ResourcesCount = "
                   <<# N.of_nat (List.length inputs) << ln ";").
    destruct (writeData_success inputs 0 fs os0 Hr) as (os1 & -> & Hc & Hb1).
    eexists. split; [reflexivity|].
    assert (Hb0 : base os0 = dec) by exact Hb.
    specialize (Hb1 Hb0). split; [|cbn [base put]; now rewrite writeIndex_base].
    cbn [content put]. rewrite writeIndex_content by exact Hb1.
    cbn [content put]. rewrite Hc. unfold os0, put_unsigned.
    cbn [content put base]. rewrite Hb. text_norm. reflexivity.
Qed.

Lemma generate_success fs os :
  readable (FileSystem.files fs) (Config.inputs (_configuration this)) ->
  base os = dec ->
  exists os',
    generate tabDefault this fs os
    = (afterOpening fs (map Config.filePath (Config.inputs (_configuration this))),
       os', Returned tt)
    /\ content os'
       = content os ++ content (writeFileHeader this Stream.empty)
         ++ resourcesText this (FileSystem.files fs)
         ++ content (writeAccessFunction tabDefault this Stream.empty)
         ++ content (writeFileFooter this Stream.empty)
    /\ base os' = dec.
Proof.
  intros Hr Hb. unfold generate.
  destruct (writeFileHeader_appends os) as (Hh & Hhb).
  destruct (writeResources_success fs (writeFileHeader this os) Hr)
    as (os1 & -> & Hc & Hb1); [congruence|].
  eexists. split; [reflexivity|]. split.
  - rewrite (proj1 (writeFileFooter_appends _)), writeAccessFunction_appends, Hc, Hh.
    now rewrite !append_assoc.
  - rewrite (proj2 (writeFileFooter_appends _)), writeAccessFunction_base. exact Hb1.
Qed.

Lemma readable_or_not files inputs :
  readable files inputs
  \/ Exists (fun x => files (Config.filePath x) = None) inputs.
Proof.
  induction inputs as [|x rest [IH|IH]].
  - left. constructor.
  - destruct (files (Config.filePath x)) eqn:E.
    + left. constructor; [congruence|assumption].
    + right. now constructor.
  - right. now constructor.
Qed.

End Document.

(** X15: inputs at different positions get arrays of different names. *)
Theorem different_positions_get_different_names (i j : N) :
  i <> j -> makeResourceName i <> makeResourceName j.
Proof. intros Hne H. apply Hne. now apply makeResourceName_inj. Qed.

Lemma different_positions_get_different_names_witness :
  makeResourceName 1 <> makeResourceName 11.
Proof.
  apply (different_positions_get_different_names 1 11). discriminate.
Defined.


(** * main *)

Section MainFacts.

Variable RescomVersion : string.
Variable tabDefault : nat.
Variable parseFile : FileSystem.t -> Config.path -> outcome Config.Configuration.
Variable createGenerator :
  ParseResult -> Config.Configuration -> outcome (option LegacyCppCodeGenerator).



End MainFacts.







(** * The loops as written *)

Section LoopFacts.

Context {A State : Type}.

Variable f : A -> N -> State -> option (State * outcome unit).

Lemma increment_below i : (i < AsWritten.UINT_MAX)%N -> AsWritten.increment i = (i + 1)%N.
Proof.
  intros H. unfold AsWritten.increment.
  destruct (N.eqb_spec i AsWritten.UINT_MAX); [lia|reflexivity].
Qed.

Lemma increment_range i :
  (i <= AsWritten.UINT_MAX)%N -> (AsWritten.increment i <= AsWritten.UINT_MAX)%N.
Proof.
  intros H. unfold AsWritten.increment.
  destruct (N.eqb_spec i AsWritten.UINT_MAX); unfold AsWritten.UINT_MAX in *; lia.
Qed.

(** Over a list of at most [UINT_MAX] elements, given more steps than
    elements are left, the loop is the body applied to each element. *)
Lemma for_loop_each (l : list A) :
  (N.of_nat (List.length l) <= AsWritten.UINT_MAX)%N ->
  forall rest done steps s,
    l = (done ++ rest)%list ->
    List.length rest < steps ->
    AsWritten.for_loop (N.of_nat (List.length l)) (AsWritten.indexed l f)
      steps (N.of_nat (List.length done)) s
    = AsWritten.each f rest (N.of_nat (List.length done)) s.
Proof.
  intros Hmax rest. induction rest as [|a rest IH]; intros done steps s Hl Hs.
  - destruct steps as [|steps]; [simpl in Hs; lia|].
    cbn [AsWritten.for_loop AsWritten.each].
    rewrite Hl, app_nil_r, N.ltb_irrefl. reflexivity.
  - destruct steps as [|steps]; [simpl in Hs; lia|].
    cbn [AsWritten.for_loop AsWritten.each]. unfold AsWritten.indexed at 1.
    assert (Hlen : List.length l = List.length done + S (List.length rest))
      by (rewrite Hl, length_app; reflexivity).
    assert (Hlt : (N.of_nat (List.length done) <? N.of_nat (List.length l))%N = true)
      by (apply N.ltb_lt; lia).
    rewrite Hlt, Nat2N.id.
    assert (Hnth : nth_error l (List.length done) = Some a).
    { rewrite Hl, nth_error_app2 by lia. now rewrite Nat.sub_diag. }
    rewrite Hnth.
    destruct (f a (N.of_nat (List.length done)) s) as [[s' [[]|what]]|];
      [|reflexivity|reflexivity].
    rewrite increment_below by lia.
    replace (N.of_nat (List.length done) + 1)%N
      with (N.of_nat (List.length (done ++ [a])%list))
      by (rewrite length_app; simpl; lia).
    apply IH.
    + rewrite Hl, <- app_assoc. reflexivity.
    + simpl in Hs. lia.
Qed.

(** From 2^32 elements on, a loop whose body throws nothing has not ended
    after any number of steps: the counter wraps to 0 before it reaches
    the size. *)
Lemma for_loop_never_ends (size : N)
    (body : N -> State -> option (State * outcome unit)) :
  (AsWritten.UINT_MAX < size)%N ->
  (forall i s s' what, body i s <> Some (s', Thrown what)) ->
  forall steps i s,
    (i <= AsWritten.UINT_MAX)%N -> AsWritten.for_loop size body steps i s = None.
Proof.
  intros Hsize Hbody steps. induction steps as [|steps IH]; intros i s Hi.
  - reflexivity.
  - cbn [AsWritten.for_loop].
    rewrite (proj2 (N.ltb_lt i size)) by lia.
    destruct (body i s) as [[s' [[]|what]]|] eqn:E.
    + apply IH. now apply increment_range.
    + exfalso. exact (Hbody _ _ _ _ E).
    + reflexivity.
Qed.

(** What every run of the body keeps, the loop keeps. *)
Lemma for_loop_invariant (size : N)
    (body : N -> State -> option (State * outcome unit)) (I : State -> Prop) :
  (forall i s s' r, I s -> body i s = Some (s', r) -> I s') ->
  forall steps i s s' r,
    I s -> AsWritten.for_loop size body steps i s = Some (s', r) -> I s'.
Proof.
  intros Hbody steps. induction steps as [|steps IH]; intros i s s' r Hs H.
  - discriminate.
  - cbn [AsWritten.for_loop] in H. destruct (i <? size)%N.
    + destruct (body i s) as [[s1 [[]|what]]|] eqn:E; [| |discriminate].
      * eapply IH; [|exact H]. eapply Hbody; eauto.
      * injection H as <- <-. eapply Hbody; eauto.
    + injection H as <- <-. assumption.
Qed.

End LoopFacts.

Section BytesAsWritten.

Variable this : LegacyCppCodeGenerator.

Lemma each_byte bytes :
  forall i os,
    AsWritten.each AsWritten.writeByte bytes i os
    = Some (Generator.writeBytes bytes i os, Returned tt).
Proof.
  induction bytes as [|b rest IH]; intros i os;
    cbn [AsWritten.each writeBytes AsWritten.writeByte].
  - reflexivity.
  - apply IH.
Qed.

(** Below 2^32 bytes the loop of [writeResource] ends, with one literal
    written per byte in order. *)
Lemma writeBytes_below_wrap steps bytes os :
  (N.of_nat (List.length bytes) <= AsWritten.UINT_MAX)%N ->
  List.length bytes < steps ->
  AsWritten.writeBytes steps bytes os = Some (Generator.writeBytes bytes 0 os).
Proof.
  intros Hmax Hs. unfold AsWritten.writeBytes.
  rewrite (for_loop_each AsWritten.writeByte bytes Hmax bytes [] steps os eq_refl Hs
           : AsWritten.for_loop _ _ steps 0%N os = _).
  now rewrite each_byte.
Qed.

(** From 2^32 bytes on it never ends. *)
Lemma writeBytes_never_ends steps bytes os :
  (AsWritten.UINT_MAX < N.of_nat (List.length bytes))%N ->
  AsWritten.writeBytes steps bytes os = None.
Proof.
  intros Hsize. unfold AsWritten.writeBytes.
  rewrite for_loop_never_ends;
    [reflexivity|exact Hsize| |unfold AsWritten.UINT_MAX; lia].
  intros i s s' what. unfold AsWritten.indexed, AsWritten.writeByte.
  destruct (nth_error bytes (N.to_nat i)); discriminate.
Qed.

Lemma writeResource_below_wrap steps input inputPosition bytes os :
  (N.of_nat (List.length bytes) <= AsWritten.UINT_MAX)%N ->
  List.length bytes < steps ->
  AsWritten.writeResource steps this input inputPosition bytes os
  = Some (Generator.writeResource this input inputPosition bytes os).
Proof.
  intros Hmax Hs. unfold AsWritten.writeResource, Generator.writeResource.
  cbv zeta. now rewrite writeBytes_below_wrap.
Qed.

Lemma writeResource_never_ends steps input inputPosition bytes os :
  (AsWritten.UINT_MAX < N.of_nat (List.length bytes))%N ->
  AsWritten.writeResource steps this input inputPosition bytes os = None.
Proof.
  intros Hsize. unfold AsWritten.writeResource. cbv zeta.
  now rewrite writeBytes_never_ends.
Qed.

End BytesAsWritten.

(** C3, as the code has it: for fewer than 2^32 bytes, and more steps
    allowed than there are bytes, [writeResource] returns; the array it
    wrote holds one escaped literal per byte, in order, which reads back as
    exactly those bytes (nothing is appended); the stream is left in
    decimal; for no bytes the declaration is written with empty braces. *)
Theorem writeResource_round_trip_below_wrap (steps : nat)
    (cfg : Config.Configuration) (input : Config.Input) (inputPosition : N)
    (bytes : list Byte.byte) (os : ostream) :
  (N.of_nat (List.length bytes) < 4294967296)%N ->
  List.length bytes < steps ->
  exists os' none,
    AsWritten.writeResource steps (create cfg) input inputPosition bytes os = Some os'
    /\ content os'
       = content os ++ tab (create cfg) 2 ++ "static constexpr char const "
         ++ makeResourceName inputPosition ++ "[] = {" ++ elements bytes 0 ++ ln "};"
    /\ decodeInitializer (elements bytes 0) = Some bytes
    /\ base os' = dec
    /\ AsWritten.writeResource steps (create cfg) input inputPosition [] os = Some none
    /\ content none
       = content os ++ tab (create cfg) 2 ++ "static constexpr char const "
         ++ makeResourceName inputPosition ++ "[] = {" ++ ln "};".
Proof.
  intros Hmax Hs.
  exists (Generator.writeResource (create cfg) input inputPosition bytes os),
         (Generator.writeResource (create cfg) input inputPosition [] os).
  repeat split.
  - apply writeResource_below_wrap; [unfold AsWritten.UINT_MAX; lia|exact Hs].
  - apply writeResource_content.
  - apply decodeInitializer_elements.
  - apply writeResource_below_wrap; [unfold AsWritten.UINT_MAX; simpl; lia|simpl; lia].
  - apply (writeResource_content (create cfg) input inputPosition []).
Qed.

Lemma writeResource_round_trip_below_wrap_witness :
  exists os' none,
    AsWritten.writeResource 3 (create oneInput) firstInput 0 [Byte.x00; Byte.xff]
      Stream.empty = Some os'
    /\ content os'
       = content Stream.empty ++ tab (create oneInput) 2
         ++ "static constexpr char const "
         ++ makeResourceName 0 ++ "[] = {" ++ elements [Byte.x00; Byte.xff] 0 ++ ln "};"
    /\ decodeInitializer (elements [Byte.x00; Byte.xff] 0) = Some [Byte.x00; Byte.xff]
    /\ base os' = dec
    /\ AsWritten.writeResource 3 (create oneInput) firstInput 0 [] Stream.empty
       = Some none
    /\ content none
       = content Stream.empty ++ tab (create oneInput) 2
         ++ "static constexpr char const "
         ++ makeResourceName 0 ++ "[] = {" ++ ln "};".
Proof.
  apply (writeResource_round_trip_below_wrap 3 oneInput firstInput 0
           [Byte.x00; Byte.xff] Stream.empty).
  - reflexivity.
  - simpl. lia.
Defined.

(** C3 as stated fails: on a buffer of 2^32 bytes the counter of the loop,
    an [unsigned int], wraps to 0 before it reaches the size, and
    [writeResource] returns after no number of steps. *)
Lemma writeResource_never_returns_on_4GiB :
  ~ exists steps os',
      AsWritten.writeResource steps (create oneInput) firstInput 0
        (repeat Byte.x00 (N.to_nat 4294967296)) Stream.empty = Some os'.
Proof.
  intros (steps & os' & H).
  rewrite writeResource_never_ends in H; [discriminate|].
  rewrite repeat_length, N2Nat.id. reflexivity.
Qed.

(** * The resources and the document, as written *)

Section GenerateAsWritten.

Variable steps : nat.
Variable tabDefault : nat.
Variable this : LegacyCppCodeGenerator.

Lemma each_entry inputs :
  forall i os,
    AsWritten.each (AsWritten.writeEntry this) inputs i os
    = Some (Generator.writeIndex this inputs i os, Returned tt).
Proof.
  induction inputs as [|input rest IH]; intros i os;
    cbn [AsWritten.each writeIndex AsWritten.writeEntry].
  - reflexivity.
  - apply IH.
Qed.

Lemma writeIndex_below_wrap inputs os :
  (N.of_nat (List.length inputs) <= AsWritten.UINT_MAX)%N ->
  List.length inputs < steps ->
  AsWritten.writeIndex steps this inputs os
  = Some (Generator.writeIndex this inputs 0 os).
Proof.
  intros Hmax Hs. unfold AsWritten.writeIndex.
  rewrite (for_loop_each (AsWritten.writeEntry this) inputs Hmax inputs [] steps os
             eq_refl Hs : AsWritten.for_loop _ _ steps 0%N os = _).
  now rewrite each_entry.
Qed.

Lemma afterOpening_nil disk : AsWritten.Disk.afterOpening disk [] = disk.
Proof.
  unfold AsWritten.Disk.afterOpening. rewrite app_nil_r. now destruct disk.
Qed.

Lemma afterOpening_cons disk p paths :
  AsWritten.Disk.afterOpening (AsWritten.Disk.record_open disk p) paths
  = AsWritten.Disk.afterOpening disk (p :: paths).
Proof.
  unfold AsWritten.Disk.afterOpening, AsWritten.Disk.record_open. cbn.
  now rewrite <- app_assoc.
Qed.

Lemma loadsWithin_record_open disk p input :
  loadsWithin steps disk input ->
  loadsWithin steps (AsWritten.Disk.record_open disk p) input.
Proof. intros H. exact H. Qed.

(** The first loop when every file loads. *)
Lemma each_input_success inputs :
  forall i disk os,
    Forall (loadsWithin steps disk) inputs ->
    exists os',
      AsWritten.each (AsWritten.loadAndWrite steps this) inputs i (disk, os)
      = Some (AsWritten.Disk.afterOpening disk (map Config.filePath inputs), os',
              Returned tt)
      /\ content os'
         = content os
           ++ declarationsText (tab this 2) (AsWritten.Disk.contents disk) inputs i
      /\ (base os = dec -> base os' = dec).
Proof.
  induction inputs as [|input rest IH]; intros i disk os Hall.
  - exists os. cbn [AsWritten.each map declarationsText].
    rewrite afterOpening_nil, append_nil_r. auto.
  - inversion Hall as [|? ? (buffer & Hread & Hmax & Hs) Hrest]; subst.
    cbn [AsWritten.each]. unfold AsWritten.loadAndWrite at 1, AsWritten.loadFile.
    rewrite Hread, writeResource_below_wrap by assumption.
    destruct (IH (i + 1)%N (AsWritten.Disk.record_open disk (Config.filePath input))
                (writeResource this input i buffer os))
      as (os' & Hw & Hc & Hb).
    { eapply Forall_impl; [|exact Hrest]. intros x. apply loadsWithin_record_open. }
    exists os'. rewrite Hw, afterOpening_cons. repeat split.
    + rewrite Hc, writeResource_content. cbn [declarationsText].
      unfold AsWritten.Disk.contents at 2. rewrite Hread.
      change (AsWritten.Disk.contents
                (AsWritten.Disk.record_open disk (Config.filePath input)))
        with (AsWritten.Disk.contents disk).
      text_norm. reflexivity.
    + intros _. apply Hb, writeResource_base.
Qed.

(** The first loop stops at the first file that does not load. *)
Lemma each_input_first_failure before :
  forall inputs i disk os input after what,
    inputs = (before ++ input :: after)%list ->
    Forall (loadsWithin steps disk) before ->
    failure disk input = Some what ->
    exists os',
      AsWritten.each (AsWritten.loadAndWrite steps this) inputs i (disk, os)
      = Some (AsWritten.Disk.afterOpening disk
                (map Config.filePath before ++ [Config.filePath input])%list,
              os', Thrown what).
Proof.
  induction before as [|x before IH]; intros inputs i disk os input after what -> Hb Hf.
  - cbn [app AsWritten.each map]. unfold AsWritten.loadAndWrite at 1, AsWritten.loadFile.
    unfold failure in Hf.
    destruct (AsWritten.Disk.read disk (Config.filePath input)) as [[buffer|w]|];
      [discriminate| |]; injection Hf as <-; exists os; reflexivity.
  - inversion Hb as [|? ? (buffer & Hread & Hmax & Hs) Hb']; subst.
    cbn [app AsWritten.each]. unfold AsWritten.loadAndWrite at 1, AsWritten.loadFile.
    rewrite Hread, writeResource_below_wrap by assumption.
    destruct (IH _ (i + 1)%N (AsWritten.Disk.record_open disk (Config.filePath x))
                (writeResource this x i buffer os) input after what eq_refl)
      as (os' & ->).
    { eapply Forall_impl; [|exact Hb']. intros y. apply loadsWithin_record_open. }
    { exact Hf. }
    exists os'. now rewrite afterOpening_cons.
Qed.

(** Either every file loads, or there is a first that does not. *)
Lemma loads_or_fails disk inputs :
  (forall input buffer,
     In input inputs ->
     AsWritten.Disk.read disk (Config.filePath input) = Some (Returned buffer) ->
     (N.of_nat (List.length buffer) <= AsWritten.UINT_MAX)%N
     /\ List.length buffer < steps) ->
  Forall (loadsWithin steps disk) inputs
  \/ exists before input after what,
       inputs = (before ++ input :: after)%list
       /\ Forall (loadsWithin steps disk) before
       /\ failure disk input = Some what.
Proof.
  induction inputs as [|x rest IH]; intros Hbound.
  - left. constructor.
  - destruct (AsWritten.Disk.read disk (Config.filePath x)) as [[buffer|w]|] eqn:E.
    + assert (Hx : loadsWithin steps disk x).
      { exists buffer. split; [exact E|]. apply (Hbound x); [now left|exact E]. }
      destruct IH as [Hall|(before & input & after & what & -> & Hb & Hf)].
      * intros input b Hin. apply Hbound. now right.
      * left. now constructor.
      * right. exists (x :: before), input, after, what.
        repeat split; [now constructor|exact Hf].
    + right. exists [], x, rest, w. repeat split; [constructor|].
      unfold failure. now rewrite E.
    + right. exists [], x, rest, ("unable to read '" ++ Config.filePath x ++ "'").
      repeat split; [constructor|]. unfold failure. now rewrite E.
Qed.

Lemma writeData_each inputs disk os :
  (N.of_nat (List.length inputs) <= AsWritten.UINT_MAX)%N ->
  List.length inputs < steps ->
  AsWritten.writeData steps this inputs disk os
  = AsWritten.each (AsWritten.loadAndWrite steps this) inputs 0 (disk, os).
Proof.
  intros Hmax Hs. unfold AsWritten.writeData.
  exact (for_loop_each (AsWritten.loadAndWrite steps this) inputs Hmax
           inputs [] steps (disk, os) eq_refl Hs).
Qed.

(** [writeResources] when there are inputs. *)
Lemma writeResources_as_written_nonempty disk os :
  Config.inputs (_configuration this) <> [] ->
  AsWritten.writeResources steps this disk os
  = match AsWritten.writeData steps this (Config.inputs (_configuration this)) disk
            (os << tab this 1 << ln "namespace details {"
                << tab this 2
                << "static constexpr unsigned int const ResourcesCount = "
                <<# N.of_nat (List.length (Config.inputs (_configuration this)))
                << ln ";") with
    | Some (disk', output, Thrown what) => Some (disk', output, Thrown what)
    | Some (disk', output, Returned _) =>
        match AsWritten.writeIndex steps this (Config.inputs (_configuration this))
                (output << tab this 2
                        << ln "static constexpr Resource const ResourcesIndex[ResourcesCount] = "
                        << tab this 2 << ln "{") with
        | Some output =>
            Some (disk',
                  output << tab this 2 << ln "};"
                         << tab this 1 << (ln "} // namespace details" ++ nl),
                  Returned tt)
        | None => None
        end
    | None => None
    end.
Proof.
  unfold AsWritten.writeResources.
  destruct (Config.inputs (_configuration this)); [congruence|reflexivity].
Qed.

Lemma resourcesText_nonempty files :
  Config.inputs (_configuration this) <> [] ->
  resourcesText this files
  = tab this 1 ++ ln "namespace details {"
    ++ tab this 2 ++ "static constexpr unsigned int const ResourcesCount = "
    ++ decimal (N.of_nat (List.length (Config.inputs (_configuration this))))
    ++ ln ";"
    ++ declarationsText (tab this 2) files (Config.inputs (_configuration this)) 0
    ++ tab this 2
    ++ ln "static constexpr Resource const ResourcesIndex[ResourcesCount] = "
    ++ tab this 2 ++ ln "{"
    ++ indexText (tab this 3) (Config.inputs (_configuration this)) 0
    ++ tab this 2 ++ ln "};"
    ++ tab this 1 ++ ln "} // namespace details" ++ nl.
Proof.
  unfold resourcesText.
  destruct (Config.inputs (_configuration this)); [congruence|reflexivity].
Qed.

Lemma writeResources_as_written_success disk os :
  (N.of_nat (List.length (Config.inputs (_configuration this)))
   <= AsWritten.UINT_MAX)%N ->
  List.length (Config.inputs (_configuration this)) < steps ->
  Forall (loadsWithin steps disk) (Config.inputs (_configuration this)) ->
  base os = dec ->
  exists os',
    AsWritten.writeResources steps this disk os
    = Some (AsWritten.Disk.afterOpening disk
              (map Config.filePath (Config.inputs (_configuration this))),
            os', Returned tt)
    /\ content os' = content os ++ resourcesText this (AsWritten.Disk.contents disk)
    /\ base os' = dec.
Proof.
  intros Hmax Hs Hall Hb.
  assert (Hcases : Config.inputs (_configuration this) = []
                   \/ Config.inputs (_configuration this) <> [])
    by (destruct (Config.inputs (_configuration this)); [left|right]; congruence).
  destruct Hcases as [Hin|Hne].
  - exists os. unfold AsWritten.writeResources, resourcesText. rewrite Hin.
    cbn [map]. rewrite afterOpening_nil, append_nil_r. auto.
  - rewrite writeResources_as_written_nonempty, resourcesText_nonempty by exact Hne.
    set (inputs := Config.inputs (_configuration this)) in *.
    set (os0 := os << tab this 1 << ln "namespace details {"
                   << tab this 2
                   << "static constexpr unsigned int const ResourcesCount = "
                   <<# N.of_nat (List.length inputs) << ln ";").
    rewrite writeData_each by assumption.
    destruct (each_input_success inputs 0 disk os0 Hall) as (os1 & -> & Hc & Hb1).
    rewrite writeIndex_below_wrap by assumption.
    eexists. split; [reflexivity|].
    assert (Hb0 : base os0 = dec) by exact Hb.
    specialize (Hb1 Hb0). split; [|cbn [base put]; now rewrite writeIndex_base].
    cbn [content put]. rewrite writeIndex_content by exact Hb1.
    cbn [content put]. rewrite Hc. unfold os0, put_unsigned.
    cbn [content put base]. rewrite Hb. text_norm. reflexivity.
Qed.

Lemma generate_as_written_success disk os :
  (N.of_nat (List.length (Config.inputs (_configuration this)))
   <= AsWritten.UINT_MAX)%N ->
  List.length (Config.inputs (_configuration this)) < steps ->
  Forall (loadsWithin steps disk) (Config.inputs (_configuration this)) ->
  base os = dec ->
  exists os',
    AsWritten.generate steps tabDefault this disk os
    = Some (AsWritten.Disk.afterOpening disk
              (map Config.filePath (Config.inputs (_configuration this))),
            os', Returned tt)
    /\ content os'
       = content os ++ content (writeFileHeader this Stream.empty)
         ++ resourcesText this (AsWritten.Disk.contents disk)
         ++ content (writeAccessFunction tabDefault this Stream.empty)
         ++ content (writeFileFooter this Stream.empty)
    /\ base os' = dec.
Proof.
  intros Hmax Hs Hall Hb. unfold AsWritten.generate.
  destruct (writeFileHeader_appends this os) as (Hh & Hhb).
  destruct (writeResources_as_written_success disk (writeFileHeader this os)
              Hmax Hs Hall) as (os1 & -> & Hc & Hb1); [congruence|].
  eexists. split; [reflexivity|]. split.
  - rewrite (proj1 (writeFileFooter_appends _ _)), writeAccessFunction_appends, Hc, Hh.
    now rewrite !append_assoc.
  - rewrite (proj2 (writeFileFooter_appends _ _)), writeAccessFunction_base. exact Hb1.
Qed.

Lemma generate_as_written_first_failure disk os before input after what :
  (N.of_nat (List.length (Config.inputs (_configuration this)))
   <= AsWritten.UINT_MAX)%N ->
  List.length (Config.inputs (_configuration this)) < steps ->
  Config.inputs (_configuration this) = (before ++ input :: after)%list ->
  Forall (loadsWithin steps disk) before ->
  failure disk input = Some what ->
  exists os',
    AsWritten.generate steps tabDefault this disk os
    = Some (AsWritten.Disk.afterOpening disk
              (map Config.filePath before ++ [Config.filePath input])%list,
            os', Thrown what).
Proof.
  intros Hmax Hs Hin Hb Hf. unfold AsWritten.generate.
  rewrite writeResources_as_written_nonempty
    by (rewrite Hin; destruct before; discriminate).
  rewrite writeData_each by assumption.
  edestruct (each_input_first_failure before
               (Config.inputs (_configuration this)) 0 disk) as (os' & ->);
    [exact Hin|exact Hb|exact Hf|].
  exists os'. reflexivity.
Qed.

End GenerateAsWritten.

(** X16: when there are fewer than 2^32 inputs, every input file opens, is
    read to its end and holds fewer than 2^32 bytes, and the stream is in
    decimal, [writeResources] returns, having opened each file once, in the
    order of the inputs, and written: the number of inputs as
    [ResourcesCount], one array per input holding the bytes of its file,
    and one index entry per input; and nothing at all for an empty input
    list. *)
Theorem writeResources_writes_count_arrays_and_index
    (steps : nat) (this : LegacyCppCodeGenerator) (disk : AsWritten.Disk.t)
    (os : ostream) :
  (N.of_nat (List.length (Config.inputs (_configuration this))) < 4294967296)%N ->
  List.length (Config.inputs (_configuration this)) < steps ->
  Forall (loadsWithin steps disk) (Config.inputs (_configuration this)) ->
  base os = dec ->
  exists os',
    AsWritten.writeResources steps this disk os
    = Some (AsWritten.Disk.afterOpening disk
              (map Config.filePath (Config.inputs (_configuration this))),
            os', Returned tt)
    /\ content os' = content os ++ resourcesText this (AsWritten.Disk.contents disk)
    /\ base os' = dec
    /\ (Config.inputs (_configuration this) = [] -> os' = os).
Proof.
  intros Hmax Hs Hall Hb.
  destruct (writeResources_as_written_success steps this disk os) as (os' & H & Hc & Hd);
    [unfold AsWritten.UINT_MAX; lia|assumption|assumption|assumption|].
  exists os'. repeat split; try assumption.
  intros Hin. unfold AsWritten.writeResources in H. rewrite Hin in H. congruence.
Qed.

Lemma scenarioDisk_loads :
  Forall (loadsWithin 3 scenarioDisk)
    (Config.inputs (_configuration (create scenarioConfiguration))).
Proof.
  repeat constructor.
  - exists [Byte.x00; Byte.xff]. repeat split; [discriminate|simpl; lia].
  - exists []. repeat split; [discriminate|simpl; lia].
Qed.

Lemma writeResources_writes_count_arrays_and_index_witness :
  exists os',
    AsWritten.writeResources 3 (create scenarioConfiguration) scenarioDisk Stream.empty
    = Some (AsWritten.Disk.afterOpening scenarioDisk
              (map Config.filePath
                 (Config.inputs (_configuration (create scenarioConfiguration)))),
            os', Returned tt)
    /\ content os'
       = content Stream.empty
         ++ resourcesText (create scenarioConfiguration)
              (AsWritten.Disk.contents scenarioDisk)
    /\ base os' = dec
    /\ (Config.inputs (_configuration (create scenarioConfiguration)) = [] ->
        os' = Stream.empty).
Proof.
  apply (writeResources_writes_count_arrays_and_index 3
           (create scenarioConfiguration) scenarioDisk Stream.empty).
  - reflexivity.
  - simpl. lia.
  - exact scenarioDisk_loads.
  - reflexivity.
Defined.

(** X17: with fewer than 2^32 inputs and fewer than 2^32 bytes in each file
    read, [generate] ends, and it throws exactly when some input file does
    not load: it returns after opening every file once, in order, when all
    load; otherwise it throws for the first file that does not, with
    "unable to read" and the path when the file cannot be opened and with
    the exception of the read when it opens and cannot be read, having
    opened the files before it and tried that one. *)
Theorem generate_throws_exactly_on_a_file_that_does_not_load
    (steps tabDefault : nat) (this : LegacyCppCodeGenerator)
    (disk : AsWritten.Disk.t) (os : ostream) :
  (N.of_nat (List.length (Config.inputs (_configuration this))) < 4294967296)%N ->
  List.length (Config.inputs (_configuration this)) < steps ->
  (forall input buffer,
     In input (Config.inputs (_configuration this)) ->
     AsWritten.Disk.read disk (Config.filePath input) = Some (Returned buffer) ->
     (N.of_nat (List.length buffer) < 4294967296)%N /\ List.length buffer < steps) ->
  exists disk' os' r,
    AsWritten.generate steps tabDefault this disk os = Some (disk', os', r)
    /\ match r with
       | Returned _ =>
           Forall (fun input => failure disk input = None)
             (Config.inputs (_configuration this))
           /\ disk' = AsWritten.Disk.afterOpening disk
                        (map Config.filePath (Config.inputs (_configuration this)))
       | Thrown what =>
           exists before input after,
             Config.inputs (_configuration this) = (before ++ input :: after)%list
             /\ Forall (fun input => failure disk input = None) before
             /\ failure disk input = Some what
             /\ disk' = AsWritten.Disk.afterOpening disk
                          (map Config.filePath before ++ [Config.filePath input])%list
       end.
Proof.
  intros Hmax Hs Hbound.
  assert (Hmax' : (N.of_nat (List.length (Config.inputs (_configuration this)))
                   <= AsWritten.UINT_MAX)%N) by (unfold AsWritten.UINT_MAX; lia).
  assert (Hnone : forall l, Forall (loadsWithin steps disk) l ->
                            Forall (fun input => failure disk input = None) l).
  { intros l Hl. eapply Forall_impl; [|exact Hl].
    intros x (buffer & Hr & _). unfold failure. now rewrite Hr. }
  destruct (loads_or_fails steps disk (Config.inputs (_configuration this)))
    as [Hall|(before & input & after & what & Hin & Hb & Hf)].
  - intros input buffer Hin Hr. destruct (Hbound input buffer Hin Hr).
    unfold AsWritten.UINT_MAX. lia.
  - destruct (writeFileHeader_appends this os) as (_ & Hbase).
    unfold AsWritten.generate.
    assert (Hcases : Config.inputs (_configuration this) = []
                     \/ Config.inputs (_configuration this) <> [])
      by (destruct (Config.inputs (_configuration this)); [left|right]; congruence).
    destruct Hcases as [Hin|Hne].
    + unfold AsWritten.writeResources. rewrite Hin.
      eexists _, _, (Returned tt). split; [reflexivity|].
      split; [constructor|]. cbn [map]. now rewrite afterOpening_nil.
    + rewrite writeResources_as_written_nonempty by exact Hne.
      rewrite writeData_each by assumption.
      destruct (each_input_success steps this (Config.inputs (_configuration this)) 0
                  disk
                  (writeFileHeader this os << tab this 1 << ln "namespace details {"
                     << tab this 2
                     << "static constexpr unsigned int const ResourcesCount = "
                     <<# N.of_nat (List.length (Config.inputs (_configuration this)))
                     << ln ";") Hall) as (os1 & -> & _).
      rewrite writeIndex_below_wrap by assumption.
      eexists _, _, (Returned tt). split; [reflexivity|].
      split; [now apply Hnone|reflexivity].
  - destruct (generate_as_written_first_failure steps tabDefault this disk os
                before input after what Hmax' Hs Hin Hb Hf) as (os' & ->).
    eexists _, os', (Thrown what). split; [reflexivity|].
    exists before, input, after. repeat split; [exact Hin|now apply Hnone|exact Hf].
Qed.

Lemma generate_throws_exactly_on_a_file_that_does_not_load_witness :
  exists disk' os' r,
    AsWritten.generate 3 1 (create scenarioConfiguration) directoryDisk Stream.empty
    = Some (disk', os', r)
    /\ match r with
       | Returned _ =>
           Forall (fun input => failure directoryDisk input = None)
             (Config.inputs (_configuration (create scenarioConfiguration)))
           /\ disk' = AsWritten.Disk.afterOpening directoryDisk
                        (map Config.filePath
                           (Config.inputs (_configuration (create scenarioConfiguration))))
       | Thrown what =>
           exists before input after,
             Config.inputs (_configuration (create scenarioConfiguration))
             = (before ++ input :: after)%list
             /\ Forall (fun input => failure directoryDisk input = None) before
             /\ failure directoryDisk input = Some what
             /\ disk' = AsWritten.Disk.afterOpening directoryDisk
                          (map Config.filePath before ++ [Config.filePath input])%list
       end.
Proof.
  apply (generate_throws_exactly_on_a_file_that_does_not_load 3 1
           (create scenarioConfiguration) directoryDisk Stream.empty).
  - reflexivity.
  - simpl. lia.
  - intros input buffer [<-|[<-|[]]] H; vm_compute in H;
      [injection H as <-|discriminate]; simpl; lia.
Defined.

(** What happens on the example when [b.bin] is a directory. *)
Example generate_on_a_directory :
  exists os',
    AsWritten.generate 3 1 (create scenarioConfiguration) directoryDisk Stream.empty
    = Some (AsWritten.Disk.afterOpening directoryDisk ["a.bin"; "b.bin"], os',
            Thrown "basic_filebuf::underflow error reading the file: Is a directory").
Proof. eexists. reflexivity. Qed.

(** X18: under the conditions of X16, the document [generate] appends to a
    stream in decimal is, in this order, the header, what [writeResources]
    writes, the accessors and the footer; the stream is left in decimal. *)
Theorem generate_assembles_the_document
    (steps tabDefault : nat) (this : LegacyCppCodeGenerator)
    (disk : AsWritten.Disk.t) (os : ostream) :
  (N.of_nat (List.length (Config.inputs (_configuration this))) < 4294967296)%N ->
  List.length (Config.inputs (_configuration this)) < steps ->
  Forall (loadsWithin steps disk) (Config.inputs (_configuration this)) ->
  base os = dec ->
  exists os',
    AsWritten.generate steps tabDefault this disk os
    = Some (AsWritten.Disk.afterOpening disk
              (map Config.filePath (Config.inputs (_configuration this))),
            os', Returned tt)
    /\ content os'
       = content os ++ content (writeFileHeader this Stream.empty)
         ++ resourcesText this (AsWritten.Disk.contents disk)
         ++ content (writeAccessFunction tabDefault this Stream.empty)
         ++ content (writeFileFooter this Stream.empty)
    /\ base os' = dec.
Proof.
  intros Hmax Hs Hall Hb.
  apply generate_as_written_success; try assumption.
  unfold AsWritten.UINT_MAX. lia.
Qed.

Lemma generate_assembles_the_document_witness :
  exists os',
    AsWritten.generate 3 1 (create scenarioConfiguration) scenarioDisk Stream.empty
    = Some (AsWritten.Disk.afterOpening scenarioDisk
              (map Config.filePath
                 (Config.inputs (_configuration (create scenarioConfiguration)))),
            os', Returned tt)
    /\ content os'
       = content Stream.empty
         ++ content (writeFileHeader (create scenarioConfiguration) Stream.empty)
         ++ resourcesText (create scenarioConfiguration)
              (AsWritten.Disk.contents scenarioDisk)
         ++ content (writeAccessFunction 1 (create scenarioConfiguration) Stream.empty)
         ++ content (writeFileFooter (create scenarioConfiguration) Stream.empty)
    /\ base os' = dec.
Proof.
  apply (generate_assembles_the_document 3 1 (create scenarioConfiguration)
           scenarioDisk Stream.empty).
  - reflexivity.
  - simpl. lia.
  - exact scenarioDisk_loads.
  - reflexivity.
Defined.

(** * main, from the command line on *)

Section MainAsWritten.

Variable steps : nat.
Variable tabDefault : nat.

(** Generation changes no file and no permission, however it ends. *)
Lemma writeData_keeps_files this inputs disk os disk' os' r :
  AsWritten.writeData steps this inputs disk os = Some (disk', os', r) ->
  AsWritten.Disk.read disk' = AsWritten.Disk.read disk
  /\ AsWritten.Disk.writable disk' = AsWritten.Disk.writable disk.
Proof.
  unfold AsWritten.writeData. intros H.
  apply (for_loop_invariant _ _
           (fun s : AsWritten.Disk.t * ostream =>
              AsWritten.Disk.read (fst s) = AsWritten.Disk.read disk
              /\ AsWritten.Disk.writable (fst s) = AsWritten.Disk.writable disk))
    in H; [exact H| |split; reflexivity].
  intros i [d o] [d1 o1] r1 (Hr & Hw). unfold AsWritten.indexed.
  destruct (nth_error inputs (N.to_nat i)) as [input|]; [|discriminate].
  unfold AsWritten.loadAndWrite, AsWritten.loadFile. cbn [fst] in *.
  destruct (AsWritten.Disk.read d (Config.filePath input)) as [[buffer|what]|].
  - destruct (AsWritten.writeResource _ _ _ _ _ _); [|discriminate].
    intros [= <- <- <-]. split; assumption.
  - intros [= <- <- <-]. split; assumption.
  - intros [= <- <- <-]. split; assumption.
Qed.

Lemma generate_keeps_files this disk os disk' os' r :
  AsWritten.generate steps tabDefault this disk os = Some (disk', os', r) ->
  AsWritten.Disk.read disk' = AsWritten.Disk.read disk
  /\ AsWritten.Disk.writable disk' = AsWritten.Disk.writable disk.
Proof.
  unfold AsWritten.generate, AsWritten.writeResources.
  destruct (Config.inputs (_configuration this)) as [|x rest].
  - intros [= <- <- <-]. split; reflexivity.
  - cbv zeta.
    destruct (AsWritten.writeData _ _ _ _ _) as [[[d1 o1] [[]|what]]|] eqn:E;
      [| |discriminate].
    + destruct (AsWritten.writeIndex _ _ _ _); [|discriminate].
      intros [= <- <- <-]. exact (writeData_keeps_files _ _ _ _ _ _ _ E).
    + intros [= <- <- <-]. exact (writeData_keeps_files _ _ _ _ _ _ _ E).
Qed.

Variable RescomVersion : string.
Variable parse : list string -> outcome ParseResult.
Variable parseFile : AsWritten.Disk.t -> Config.path -> outcome Config.Configuration.
Variable createGenerator :
  ParseResult -> Config.Configuration -> outcome (option LegacyCppCodeGenerator).

Lemma main_as_written_outcome argv w w' e :
  AsWritten.main RescomVersion tabDefault steps parse parseFile createGenerator argv w
  = Some (w', e) ->
  match e with
  | Exit code =>
      AsWritten.Disk.writable (AsWritten.disk w')
      = AsWritten.Disk.writable (AsWritten.disk w)
      /\ ((code = 0%Z /\ AsWritten.cerr w' = AsWritten.cerr w)
          \/ (code = 1%Z
              /\ AsWritten.Disk.read (AsWritten.disk w')
                 = AsWritten.Disk.read (AsWritten.disk w)
              /\ AsWritten.cout w' = AsWritten.cout w
              /\ exists what,
                   AsWritten.cerr w'
                   = AsWritten.cerr w ++ "Rescom error: " ++ what ++ nl))
  | Terminate =>
      w' = w
      /\ ((exists what, parse argv = Thrown what)
          \/ (exists parseResult,
                parse argv = Returned parseResult
                /\ version parseResult = false /\ input parseResult = None))
  end.
Proof.
  unfold AsWritten.main.
  destruct (parse argv) as [parseResult|refusal].
  2:{ intros [= <- <-]. split; [reflexivity|]. left. now exists refusal. }
  destruct (version parseResult) eqn:Hv.
  { intros [= <- <-]. split; [reflexivity|]. left. split; reflexivity. }
  destruct (input parseResult) as [inputFilePath|] eqn:Hi.
  2:{ intros [= <- <-]. split; [reflexivity|]. right. now exists parseResult. }
  destruct (parseFile (AsWritten.disk w) inputFilePath) as [configuration|what].
  2:{ intros [= <- <-]. cbn. split; [reflexivity|]. right. repeat split.
      now exists what. }
  destruct (createGenerator parseResult configuration) as [generator|what].
  2:{ intros [= <- <-]. cbn. split; [reflexivity|]. right. repeat split.
      now exists what. }
  destruct (match generator with
            | Some g => AsWritten.generate steps tabDefault g (AsWritten.disk w)
                          Stream.empty
            | None => Some (AsWritten.disk w, Stream.empty, Returned tt)
            end) as [[[disk' os'] r]|] eqn:Hgen; [|discriminate].
  assert (Hkeep : AsWritten.Disk.read disk' = AsWritten.Disk.read (AsWritten.disk w)
                  /\ AsWritten.Disk.writable disk'
                     = AsWritten.Disk.writable (AsWritten.disk w)).
  { destruct generator as [g|].
    - exact (generate_keeps_files _ _ _ _ _ _ Hgen).
    - injection Hgen as <- _ _. split; reflexivity. }
  destruct Hkeep as (Hf & Hw).
  destruct r as [[]|what].
  2:{ intros [= <- <-]. cbn. split; [exact Hw|]. right. repeat split; [exact Hf|].
      now exists what. }
  unfold AsWritten.releaseResults. cbn [AsWritten.disk AsWritten.cout AsWritten.cerr].
  destruct (output parseResult) as [outputFilePath|].
  - destruct (AsWritten.Disk.writable disk' outputFilePath); cbn.
    + intros [= <- <-]. cbn. split; [exact Hw|]. left. split; reflexivity.
    + intros [= <- <-]. cbn. split; [exact Hw|]. right. repeat split; [exact Hf|].
      exists (format "unable to open '{}' for writing"
                [Path.generic_string outputFilePath]).
      reflexivity.
  - intros [= <- <-]. cbn. split; [exact Hw|]. left. split; reflexivity.
Qed.

End MainAsWritten.

(** X22: however [main] ends, it returns 0 or 1 or is left by an
    exception thrown outside the [try] block: the one of [options.parse]
    for a command line it rejects, or the one of a missing input option;
    in both nothing was done.  With 0 nothing was written to the error
    stream; with 1 one line "Rescom error: ..." was, no file has changed
    and nothing was printed; which paths can be written never changes. *)
Theorem main_reports_or_releases
    (RescomVersion : string) (tabDefault steps : nat)
    (parse : list string -> outcome ParseResult)
    (parseFile : AsWritten.Disk.t -> Config.path -> outcome Config.Configuration)
    (createGenerator :
       ParseResult -> Config.Configuration -> outcome (option LegacyCppCodeGenerator))
    (argv : list string) (w w' : AsWritten.World) (e : exit) :
  AsWritten.main RescomVersion tabDefault steps parse parseFile createGenerator argv w
  = Some (w', e) ->
  match e with
  | Exit code =>
      AsWritten.Disk.writable (AsWritten.disk w')
      = AsWritten.Disk.writable (AsWritten.disk w)
      /\ ((code = 0%Z /\ AsWritten.cerr w' = AsWritten.cerr w)
          \/ (code = 1%Z
              /\ AsWritten.Disk.read (AsWritten.disk w')
                 = AsWritten.Disk.read (AsWritten.disk w)
              /\ AsWritten.cout w' = AsWritten.cout w
              /\ exists what,
                   AsWritten.cerr w'
                   = AsWritten.cerr w ++ "Rescom error: " ++ what ++ nl))
  | Terminate =>
      w' = w
      /\ ((exists what, parse argv = Thrown what)
          \/ (exists parseResult,
                parse argv = Returned parseResult
                /\ version parseResult = false /\ input parseResult = None))
  end.
Proof. apply main_as_written_outcome. Qed.

Lemma main_reports_or_releases_witness :
  let w := {| AsWritten.disk := directoryDisk;
              AsWritten.cout := EmptyString; AsWritten.cerr := EmptyString |} in
  let w' := {| AsWritten.disk :=
                 AsWritten.Disk.afterOpening directoryDisk ["a.bin"; "b.bin"];
               AsWritten.cout := EmptyString;
               AsWritten.cerr :=
                 "Rescom error: basic_filebuf::underflow error reading the file: Is a directory"
                 ++ nl |} in
  AsWritten.Disk.writable (AsWritten.disk w')
  = AsWritten.Disk.writable (AsWritten.disk w)
  /\ ((1%Z = 0%Z /\ AsWritten.cerr w' = AsWritten.cerr w)
      \/ (1%Z = 1%Z
          /\ AsWritten.Disk.read (AsWritten.disk w')
             = AsWritten.Disk.read (AsWritten.disk w)
          /\ AsWritten.cout w' = AsWritten.cout w
          /\ exists what,
               AsWritten.cerr w'
               = AsWritten.cerr w ++ "Rescom error: " ++ what ++ nl)).
Proof.
  exact (main_reports_or_releases "1" 1 3 scenarioParse
           (fun _ _ => Returned scenarioConfiguration)
           (fun _ c => Returned (Some (create c)))
           ["rescom"; "-i"; "resources.txt"]
           {| AsWritten.disk := directoryDisk;
              AsWritten.cout := EmptyString; AsWritten.cerr := EmptyString |}
           {| AsWritten.disk :=
                AsWritten.Disk.afterOpening directoryDisk ["a.bin"; "b.bin"];
              AsWritten.cout := EmptyString;
              AsWritten.cerr :=
                "Rescom error: basic_filebuf::underflow error reading the file: Is a directory"
                ++ nl |}
           (Exit 1) eq_refl).
Defined.

(** A command line that [cxxopts] rejects leaves [main] by its exception:
    nothing is printed and no code is returned. *)
Example main_on_an_unknown_option :
  AsWritten.main "1" 1 3 scenarioParse
    (fun _ _ => Returned scenarioConfiguration)
    (fun _ c => Returned (Some (create c)))
    ["rescom"; "--unknown"]
    {| AsWritten.disk := scenarioDisk;
       AsWritten.cout := EmptyString; AsWritten.cerr := EmptyString |}
  = Some ({| AsWritten.disk := scenarioDisk;
             AsWritten.cout := EmptyString; AsWritten.cerr := EmptyString |},
          Terminate).
Proof. reflexivity. Qed.

(** * The two descriptions of a run *)

Section Agreement.

Variable steps : nat.
Variable tabDefault : nat.

Lemma ostream_eq (a b : ostream) : content a = content b -> base a = base b -> a = b.
Proof. destruct a, b. cbn. intros -> ->. reflexivity. Qed.

Lemma declarationsText_ext tab2 (f g : Config.path -> option (list Byte.byte)) inputs :
  (forall p, f p = g p) ->
  forall i, declarationsText tab2 f inputs i = declarationsText tab2 g inputs i.
Proof.
  intros H. induction inputs as [|input rest IH]; intros i; cbn [declarationsText].
  - reflexivity.
  - now rewrite H, IH.
Qed.

Lemma resourcesText_ext this (f g : Config.path -> option (list Byte.byte)) :
  (forall p, f p = g p) -> resourcesText this f = resourcesText this g.
Proof.
  intros H. unfold resourcesText.
  destruct (Config.inputs (_configuration this)) as [|x rest] eqn:E; [reflexivity|].
  now rewrite (declarationsText_ext _ f g _ H).
Qed.

Lemma describes_contents disk fs :
  describes disk fs ->
  forall p, AsWritten.Disk.contents disk p = FileSystem.files fs p.
Proof.
  intros (Hr & _) p. unfold AsWritten.Disk.contents. rewrite Hr.
  destruct (FileSystem.files fs p); reflexivity.
Qed.

Lemma describes_afterOpening disk fs paths :
  describes disk fs ->
  describes (AsWritten.Disk.afterOpening disk paths) (afterOpening fs paths).
Proof.
  intros (Hr & Hw & Ho). repeat split; cbn; try assumption. now rewrite Ho.
Qed.

Lemma describes_loads disk fs inputs :
  describes disk fs ->
  readable (FileSystem.files fs) inputs ->
  Forall (fun input =>
            match FileSystem.files fs (Config.filePath input) with
            | Some buffer =>
                (N.of_nat (List.length buffer) < 4294967296)%N
                /\ List.length buffer < steps
            | None => True
            end) inputs ->
  Forall (loadsWithin steps disk) inputs.
Proof.
  intros (Hr & _) Hread Hreach. unfold readable in Hread.
  rewrite Forall_forall in *.
  intros input Hin. specialize (Hread input Hin). specialize (Hreach input Hin).
  destruct (FileSystem.files fs (Config.filePath input)) as [buffer|] eqn:E;
    [|congruence].
  exists buffer. split; [now rewrite Hr, E|].
  unfold AsWritten.UINT_MAX. lia.
Qed.

(** On a disk the file system describes, with inputs within reach,
    [generate] as written ends as [Generator.generate] does: the same
    outcome, the same files tried, and the same text when it returns. *)
Lemma generate_agrees this disk fs os :
  describes disk fs ->
  withinReach steps fs (Config.inputs (_configuration this)) ->
  base os = dec ->
  exists disk' os',
    AsWritten.generate steps tabDefault this disk os
    = Some (disk', os', snd (generate tabDefault this fs os))
    /\ describes disk' (fst (fst (generate tabDefault this fs os)))
    /\ (snd (generate tabDefault this fs os) = Returned tt ->
        os' = snd (fst (generate tabDefault this fs os))).
Proof.
  intros Hd (Hmax & Hs & Hreach) Hb.
  assert (Hmax' : (N.of_nat (List.length (Config.inputs (_configuration this)))
                   <= AsWritten.UINT_MAX)%N) by (unfold AsWritten.UINT_MAX; lia).
  destruct (readable_or_not (FileSystem.files fs)
              (Config.inputs (_configuration this))) as [Hr|Hex].
  - destruct (generate_success tabDefault this fs os Hr Hb) as (os0 & -> & Hc & Hb0).
    pose proof (describes_loads disk fs _ Hd Hr Hreach) as Hall.
    destruct (generate_as_written_success steps tabDefault this disk os
                Hmax' Hs Hall Hb) as (os1 & -> & Hc1 & Hb1).
    exists (AsWritten.Disk.afterOpening disk
              (map Config.filePath (Config.inputs (_configuration this)))), os1.
    cbn [fst snd]. split; [reflexivity|].
    split; [now apply describes_afterOpening|].
    intros _. apply ostream_eq; [|congruence].
    rewrite Hc, Hc1.
    now rewrite (resourcesText_ext this _ _ (describes_contents disk fs Hd)).
  - destruct (first_unreadable _ _ Hex) as (before & x & after & Hin & Hbefore & Hx).
    destruct (generate_first_failure tabDefault this fs os before x after Hin
                Hbefore Hx) as (os0 & ->).
    assert (Hall : Forall (loadsWithin steps disk) before).
    { apply (describes_loads disk fs before Hd Hbefore).
      rewrite Hin in Hreach. apply Forall_app in Hreach. tauto. }
    assert (Hf : failure disk x
                 = Some ("unable to read '" ++ Config.filePath x ++ "'")).
    { unfold failure. destruct Hd as (Hread & _). now rewrite Hread, Hx. }
    destruct (generate_as_written_first_failure steps tabDefault this disk os
                before x after _ Hmax' Hs Hin Hall Hf) as (os1 & ->).
    eexists _, os1. cbn [fst snd]. split; [reflexivity|].
    split; [|discriminate].
    exact (describes_afterOpening disk fs _ Hd).
Qed.

End Agreement.

(** X25: once the command line is parsed, on a disk where every path that
    opens is read to its end, when the generator chosen has fewer than
    2^32 inputs and each of their files that opens holds fewer than 2^32
    bytes, [main] as written ends, and it ends as [Main.main] does: the
    same exit, the same output and error streams, the same files, the
    same paths tried. *)
Theorem main_as_written_agrees
    (RescomVersion : string) (tabDefault steps : nat)
    (parse : list string -> outcome ParseResult)
    (parseFile : FileSystem.t -> Config.path -> outcome Config.Configuration)
    (parseFile' : AsWritten.Disk.t -> Config.path -> outcome Config.Configuration)
    (createGenerator :
       ParseResult -> Config.Configuration -> outcome (option LegacyCppCodeGenerator))
    (argv : list string) (parseResult : ParseResult)
    (w' : AsWritten.World) (w : World) :
  parse argv = Returned parseResult ->
  sameWorld w' w ->
  (forall p, parseFile' (AsWritten.disk w') p = parseFile (fs w) p) ->
  (forall inputFilePath configuration g,
     input parseResult = Some inputFilePath ->
     parseFile (fs w) inputFilePath = Returned configuration ->
     createGenerator parseResult configuration = Returned (Some g) ->
     withinReach steps (fs w) (Config.inputs (_configuration g))) ->
  exists after,
    AsWritten.main RescomVersion tabDefault steps parse parseFile' createGenerator
      argv w'
    = Some (after,
            snd (main RescomVersion tabDefault parseFile createGenerator
                   parseResult w))
    /\ sameWorld after
         (fst (main RescomVersion tabDefault parseFile createGenerator
                 parseResult w)).
Proof.
  intros Hparse (Hd & Hout & Herr) Hfile Hreach.
  pose proof Hd as (Hdr & Hdw & Hdo).
  unfold AsWritten.main, main. rewrite Hparse.
  destruct (version parseResult).
  { eexists. split; [reflexivity|]. repeat split; cbn;
      first [assumption|now rewrite ?Hout, ?Herr]. }
  destruct (input parseResult) as [inputFilePath|] eqn:Hi.
  2:{ eexists. split; [reflexivity|]. repeat split; cbn;
      first [assumption|now rewrite ?Hout, ?Herr]. }
  rewrite Hfile.
  destruct (parseFile (fs w) inputFilePath) as [configuration|what] eqn:Hp.
  2:{ eexists. split; [reflexivity|]. repeat split; cbn;
      first [assumption|now rewrite ?Hout, ?Herr]. }
  destruct (createGenerator parseResult configuration) as [generator|what] eqn:Hg.
  2:{ eexists. split; [reflexivity|]. repeat split; cbn;
      first [assumption|now rewrite ?Hout, ?Herr]. }
  assert (Hgen : exists disk1 os1 fs1 os0 r,
            match generator with
            | Some g => AsWritten.generate steps tabDefault g (AsWritten.disk w')
                          Stream.empty
            | None => Some (AsWritten.disk w', Stream.empty, Returned tt)
            end = Some (disk1, os1, r)
            /\ match generator with
               | Some g => generate tabDefault g (fs w) Stream.empty
               | None => (fs w, Stream.empty, Returned tt)
               end = (fs1, os0, r)
            /\ describes disk1 fs1
            /\ (r = Returned tt -> os1 = os0)).
  { destruct generator as [g|].
    - destruct (generate_agrees steps tabDefault g (AsWritten.disk w') (fs w)
                  Stream.empty Hd (Hreach _ _ _ eq_refl Hp Hg) eq_refl)
        as (disk1 & os1 & H1 & H2 & H3).
      destruct (generate tabDefault g (fs w) Stream.empty) as [[fs1 os0] r].
      cbn [fst snd] in *.
      exists disk1, os1, fs1, os0, r.
      split; [exact H1|]. split; [reflexivity|]. split; [exact H2|exact H3].
    - exists (AsWritten.disk w'), Stream.empty, (fs w), Stream.empty, (Returned tt).
      split; [reflexivity|]. split; [reflexivity|]. split; [exact Hd|reflexivity]. }
  destruct Hgen as (disk1 & os1 & fs1 & os0 & r & -> & -> & Hd1 & Hos).
  destruct r as [[]|what].
  2:{ eexists. split; [reflexivity|]. repeat split; cbn;
      first [apply Hd1|now rewrite ?Hout, ?Herr]. }
  rewrite (Hos eq_refl).
  unfold AsWritten.releaseResults, releaseResults.
  cbn [AsWritten.disk AsWritten.cout AsWritten.cerr fs cout cerr].
  destruct (output parseResult) as [outputFilePath|].
  - destruct Hd1 as (Hr1 & Hw1 & Ho1). rewrite Hw1.
    destruct (FileSystem.writable fs1 outputFilePath); cbn.
    + eexists. split; [reflexivity|]. repeat split; cbn; try assumption.
      intros p. destruct (String.eqb p outputFilePath); [reflexivity|apply Hr1].
    + eexists. split; [reflexivity|]. repeat split; cbn;
        first [assumption|now rewrite ?Hout, ?Herr].
  - eexists. split; [reflexivity|]. repeat split; cbn;
      first [apply Hd1|now rewrite ?Hout, ?Herr].
Qed.

Lemma main_as_written_agrees_witness :
  exists after,
    AsWritten.main "1" 1 3 scenarioParse
      (fun _ _ => Returned scenarioConfiguration)
      (fun _ c => Returned (Some (create c)))
      ["rescom"; "-i"; "resources.txt"]
      {| AsWritten.disk := AsWritten.Disk.ofFileSystem bothFiles;
         AsWritten.cout := EmptyString; AsWritten.cerr := EmptyString |}
    = Some (after,
            snd (main "1" 1 (fun _ _ => Returned scenarioConfiguration)
                   (fun _ c => Returned (Some (create c)))
                   (scenarioOptions None) scenarioWorld))
    /\ sameWorld after
         (fst (main "1" 1 (fun _ _ => Returned scenarioConfiguration)
                 (fun _ c => Returned (Some (create c)))
                 (scenarioOptions None) scenarioWorld)).
Proof.
  apply (main_as_written_agrees "1" 1 3 scenarioParse
           (fun _ _ => Returned scenarioConfiguration)
           (fun _ _ => Returned scenarioConfiguration)
           (fun _ c => Returned (Some (create c)))
           ["rescom"; "-i"; "resources.txt"] (scenarioOptions None)).
  - reflexivity.
  - repeat split.
  - reflexivity.
  - intros inputFilePath configuration g _ Hc Hg.
    injection Hc as <-. injection Hg as <-.
    split; [reflexivity|]. split; [simpl; lia|].
    apply Forall_cons; [cbn; split; [reflexivity|lia]|].
    apply Forall_cons; [cbn; split; [reflexivity|lia]|constructor].
Defined.

(** * The index table read back *)

Section ReadEntries.

Import Compiled.

Lemma read_indent n acc rest :
  readEntries Indent acc (spaces n ++ String "{" rest)
  = readEntries BeforeKey acc rest.
Proof. induction n as [|n IH]; simpl; [reflexivity|exact IH]. Qed.

Lemma plain_step k c :
  plainCharacter c = true -> keyStep k c = Some (InKey (snoc k c)).
Proof.
  destruct c as [[] [] [] [] [] [] [] []]; intros H; try discriminate H; reflexivity.
Qed.

Lemma plain_not_null c : plainCharacter c = true -> Ascii.eqb c "000" = false.
Proof.
  destruct c as [[] [] [] [] [] [] [] []]; intros H; try discriminate H; reflexivity.
Qed.

Lemma snoc_app a c k : snoc a c ++ k = a ++ String c k.
Proof. unfold snoc. now rewrite append_assoc. Qed.

Lemma read_key k :
  forall a acc rest,
    plainKey k = true ->
    readEntries (InKey a) acc (k ++ String "034" rest)
    = readEntries (AfterKey (a ++ k)) acc rest.
Proof.
  induction k as [|c k IH]; intros a acc rest Hk.
  - cbn. now rewrite append_nil_r.
  - cbn [plainKey] in Hk. apply andb_prop in Hk. destruct Hk as (Hc & Hk).
    cbn [append readEntries]. rewrite (plain_step a c Hc).
    rewrite IH by exact Hk. now rewrite snoc_app.
Qed.

Lemma cString_plain k : plainKey k = true -> cString k = k.
Proof.
  induction k as [|c k IH]; intros Hk; [reflexivity|].
  cbn [plainKey] in Hk. apply andb_prop in Hk. destruct Hk as (Hc & Hk).
  cbn [cString]. now rewrite (plain_not_null c Hc), IH.
Qed.

Lemma allDigits_uint d :
  allDigits (DecimalString.NilEmpty.string_of_uint d) = true.
Proof. induction d; simpl; auto. Qed.

Lemma allDigits_decimal n : allDigits (decimal n) = true.
Proof. apply allDigits_uint. Qed.

Lemma number_decimal n : number (decimal n) = Some n.
Proof. unfold number. now rewrite readDecimal_decimal, String.eqb_refl. Qed.

Lemma read_size ds :
  forall k a acc rest,
    allDigits ds = true ->
    readEntries (InSize k a) acc (ds ++ rest)
    = readEntries (InSize k (a ++ ds)) acc rest.
Proof.
  induction ds as [|c ds IH]; intros k a acc rest Hd.
  - cbn. now rewrite append_nil_r.
  - cbn [allDigits] in Hd. apply andb_prop in Hd. destruct Hd as (Hc & Hd).
    cbn [append readEntries]. rewrite Hc, IH by exact Hd. now rewrite snoc_app.
Qed.

Lemma read_name ds :
  forall k n a acc rest,
    allDigits ds = true ->
    readEntries (InName k n a) acc (ds ++ rest)
    = readEntries (InName k n (a ++ ds)) acc rest.
Proof.
  induction ds as [|c ds IH]; intros k n a acc rest Hd.
  - cbn. now rewrite append_nil_r.
  - cbn [allDigits] in Hd. apply andb_prop in Hd. destruct Hd as (Hc & Hd).
    cbn [append readEntries]. rewrite Hc, IH by exact Hd. now rewrite snoc_app.
Qed.

(** One entry, as [writeIndex] writes it, gives the record of its
    input. *)
Lemma read_entry indent input i acc rest :
  embeddable input = true ->
  readEntries Indent acc
    (spaces indent ++ "{" ++ dquote ++ Config.key input ++ dquote ++ ", "
     ++ decimal (Config.size input) ++ ", " ++ makeResourceName i ++ ln "},"
     ++ rest)
  = readEntries Indent
      ({| key := Some (Config.key input); bytes := Some i;
          size := Config.size input |} :: acc) rest.
Proof.
  intros He. unfold embeddable in He. apply andb_prop in He.
  destruct He as (Hk & Hs).
  rewrite makeResourceName_R. text_norm.
  rewrite read_indent. cbn [readEntries Ascii.eqb Bool.eqb].
  rewrite read_key by exact Hk. cbn [readEntries Ascii.eqb Bool.eqb append].
  rewrite read_size by apply allDigits_decimal.
  cbn [readEntries Ascii.eqb Bool.eqb append decimalDigit N_of_ascii N.leb
         N.compare Pos.compare Pos.compare_cont andb N_of_digits N.add N.mul].
  rewrite number_decimal, Hs.
  cbn [readEntries Ascii.eqb Bool.eqb append].
  rewrite read_name by apply allDigits_decimal.
  cbn [readEntries Ascii.eqb Bool.eqb append decimalDigit N_of_ascii N.leb
         N.compare Pos.compare Pos.compare_cont andb N_of_digits N.add N.mul].
  rewrite number_decimal.
  cbn [readEntries Ascii.eqb Bool.eqb append].
  now rewrite cString_plain.
Qed.

Lemma readEntries_indexText indent inputs :
  forall i acc,
    Forall (fun input => embeddable input = true) inputs ->
    readEntries Indent acc (indexText (spaces indent) inputs i)
    = Some (rev acc ++ indexEntries inputs i)%list.
Proof.
  induction inputs as [|input rest IH]; intros i acc Hall.
  - cbn. now rewrite app_nil_r.
  - inversion Hall as [|? ? He Hrest]; subst.
    cbn [indexText indexEntries].
    rewrite read_entry by exact He.
    rewrite IH by exact Hrest. cbn [rev]. now rewrite <- app_assoc.
Qed.

(** For embeddable inputs the table read from the entries written is
    [ResourcesIndex]. *)
Lemma compiledIndex_embeddable indent inputs :
  Forall (fun input => embeddable input = true) inputs ->
  compiledIndex indent inputs = Some (ResourcesIndex inputs).
Proof.
  intros H. unfold compiledIndex, ResourcesIndex.
  now rewrite readEntries_indexText.
Qed.

End ReadEntries.

Lemma scenario_embeddable : embeddableInputs scenario.
Proof. repeat constructor. Qed.

(** The loop over a range whose records have keys: the same defined
    result on every table that holds these records in the range. *)
Lemma lowerBound_loop_on_its_range table table' v :
  forall count first,
    (forall j, first <= j < first + count ->
       exists slot k,
         nth_error table j = Some slot /\ key slot = Some k
         /\ nth_error table' j = Some slot) ->
    exists p,
      lowerBound_loop table compareSlot v first count = Value p
      /\ lowerBound_loop table' compareSlot v first count = Value p
      /\ first <= p <= first + count.
Proof.
  intros count. induction count as [count IH] using lt_wf_ind.
  intros first Hrange. destruct count as [|c].
  - exists first. rewrite !lowerBound_loop_0. repeat split; clear IH; lia.
  - rewrite !lowerBound_loop_S.
    assert (Hhalf : S c / 2 < S c) by (apply Nat.div_lt; clear IH; lia).
    destruct (Hrange (first + S c / 2)) as (slot & k & Ht & Hk & Ht');
      [clear IH; lia|].
    unfold load. rewrite Ht, Ht'.
    assert (Hc : compareSlot slot (Some v) = Value (String.ltb k v))
      by (unfold compareSlot; now rewrite Hk).
    rewrite Hc. destruct (String.ltb k v).
    + destruct (IH (S c - (S c / 2 + 1)) ltac:(clear IH; lia)
                  (S (first + S c / 2))) as (p & -> & -> & Hp).
      { intros j Hj. apply Hrange. clear IH. lia. }
      exists p. repeat split; clear IH; lia.
    + destruct (IH (S c / 2) Hhalf first) as (p & -> & -> & Hp).
      { intros j Hj. apply Hrange. clear IH. lia. }
      exists p. repeat split; clear IH; lia.
Qed.

(** X8: whatever the order of the keys, the loop of [lowerBound] over a
    range of records with keys depends on the records of that range only:
    on any other table that holds the same records in the range (shorter,
    longer or different elsewhere) it ends on the same position, which is
    a position of the range or its end. *)
Theorem lowerBound_loop_reads_its_range_only
    (table table' : list Resource) (v : string) (first last : nat) :
  first <= last ->
  (forall j, first <= j < last ->
     exists slot k, nth_error table j = Some slot /\ key slot = Some k) ->
  (forall j, first <= j < last -> nth_error table' j = nth_error table j) ->
  exists p,
    lowerBound_loop table compareSlot v first (last - first) = Value p
    /\ lowerBound_loop table' compareSlot v first (last - first) = Value p
    /\ first <= p <= last.
Proof.
  intros Hfl Hkeys Hsame.
  destruct (lowerBound_loop_on_its_range table table' v (last - first) first)
    as (p & H1 & H2 & Hp).
  - intros j Hj. destruct (Hkeys j ltac:(lia)) as (slot & k & Hs & Hk).
    exists slot, k. repeat split; [exact Hs|exact Hk|].
    rewrite Hsame by lia. exact Hs.
  - exists p. repeat split; [exact H1|exact H2|lia|lia].
Qed.

Lemma lowerBound_loop_reads_its_range_only_witness :
  exists p,
    lowerBound_loop (ResourcesIndex unsortedScenario) compareSlot "b" 1 (2 - 1)
    = Value p
    /\ lowerBound_loop [NullResource; {| key := Some "a"; bytes := Some 1%N; size := 2 |}]
         compareSlot "b" 1 (2 - 1) = Value p
    /\ 1 <= p <= 2.
Proof.
  apply (lowerBound_loop_reads_its_range_only (ResourcesIndex unsortedScenario)
           [NullResource; {| key := Some "a"; bytes := Some 1%N; size := 2 |}]
           "b" 1 2).
  - lia.
  - intros j Hj. assert (j = 1) by lia. subst j.
    exists {| key := Some "a"; bytes := Some 1%N; size := 2 |}, "a".
    split; reflexivity.
  - intros j Hj. assert (j = 1) by lia. subst j. reflexivity.
Defined.

(** X9: for inputs whose entries say what the configuration says, the
    table the compiler reads is [ResourcesIndex], and whatever the order of
    the keys and whatever the query, [getResource] never answers with a
    record of another key: a position it returns holds an input whose key
    is the query. *)
Theorem getResource_returns_only_the_queried_key
    (indent : nat) (inputs : list Config.Input) (k : c_str) :
  embeddableInputs inputs ->
  Compiled.compiledIndex indent inputs = Some (ResourcesIndex inputs)
  /\ match getResource inputs k with
     | Value (AtIndex i) =>
         exists input, nth_error inputs i = Some input /\ k = Some (Config.key input)
     | Value AtNullResource => True
     | UB => True
     end.
Proof.
  intros He. split; [now apply compiledIndex_embeddable|].
  destruct (getResource inputs k) as [[|i]|] eqn:E; try exact I.
  now apply getResource_sound.
Qed.

Lemma getResource_returns_only_the_queried_key_witness :
  Compiled.compiledIndex 12 unsortedScenario = Some (ResourcesIndex unsortedScenario)
  /\ match getResource unsortedScenario (Some "a") with
     | Value (AtIndex i) =>
         exists input,
           nth_error unsortedScenario i = Some input
           /\ Some "a" = Some (Config.key input)
     | Value AtNullResource => True
     | UB => True
     end.
Proof.
  apply (getResource_returns_only_the_queried_key 12 unsortedScenario (Some "a")).
  repeat constructor.
Defined.

(** X10: for such inputs with ascending keys every key of the input list
    is found at its position: [getResource] refers to that record,
    [contains] is true and [getText] is the view of the array of that
    position with the declared size of the input. *)
Theorem lookup_of_a_present_key (indent : nat) (inputs : list Config.Input)
    (i : nat) (input : Config.Input) :
  embeddableInputs inputs ->
  ascending (map Config.key inputs) ->
  nth_error inputs i = Some input ->
  Compiled.compiledIndex indent inputs = Some (ResourcesIndex inputs)
  /\ getResource inputs (Some (Config.key input)) = Value (AtIndex i)
  /\ contains inputs (Some (Config.key input)) = Value true
  /\ getText inputs (Some (Config.key input))
     = Value {| data := Some (N.of_nat i); length := Config.size input |}.
Proof.
  intros He Hs Hi. split; [now apply compiledIndex_embeddable|].
  pose proof (getResource_present inputs i input Hs Hi) as Hg.
  unfold contains, getText. rewrite Hg. cbn [bind deref iterator_eqb negb].
  unfold load.
  rewrite (indexEntries_nth inputs 0 i input Hi
             : nth_error (ResourcesIndex inputs) i = _).
  repeat split.
Qed.

Lemma lookup_of_a_present_key_witness :
  Compiled.compiledIndex 12 scenario = Some (ResourcesIndex scenario)
  /\ getResource scenario (Some "b") = Value (AtIndex 1)
  /\ contains scenario (Some "b") = Value true
  /\ getText scenario (Some "b") = Value {| data := Some 1%N; length := 0 |}.
Proof.
  apply (lookup_of_a_present_key 12 scenario 1
           {| Config.key := "b"; Config.filePath := "b.bin"; Config.size := 0 |}).
  - exact scenario_embeddable.
  - exact scenario_ascending.
  - reflexivity.
Defined.

Lemma existsb_eqb_In v ks : existsb (String.eqb v) ks = true <-> In v ks.
Proof.
  rewrite existsb_exists. split.
  - intros (x & Hin & Hx). apply String.eqb_eq in Hx. now subst.
  - intros Hin. exists v. split; [exact Hin|apply String.eqb_refl].
Qed.

(** X11: for such inputs with ascending keys and a query that is not
    above every key, [contains] answers whether the query is a key of the
    input list. *)
Theorem contains_exactly_the_keys (indent : nat) (inputs : list Config.Input)
    (v bound : string) :
  embeddableInputs inputs ->
  ascending (map Config.key inputs) ->
  In bound (map Config.key inputs) -> String.ltb bound v = false ->
  Compiled.compiledIndex indent inputs = Some (ResourcesIndex inputs)
  /\ contains inputs (Some v)
     = Value (existsb (String.eqb v) (map Config.key inputs)).
Proof.
  intros He Hs Hb Hle. split; [now apply compiledIndex_embeddable|].
  destruct (existsb (String.eqb v) (map Config.key inputs)) eqn:E.
  - apply existsb_eqb_In in E. apply in_map_iff in E.
    destruct E as (input & <- & Hin).
    destruct (In_nth_error _ _ Hin) as (i & Hi).
    unfold contains. now rewrite (getResource_present inputs i input Hs Hi).
  - assert (Hv : ~ In v (map Config.key inputs)).
    { intros Hin. apply existsb_eqb_In in Hin. congruence. }
    assert (Hlt : String.ltb v bound = true).
    { destruct (ltb_false_cases _ _ Hle) as [->|H]; [contradiction|exact H]. }
    unfold contains.
    now rewrite (getResource_absent_below inputs v bound Hs Hv Hb Hlt).
Qed.

Lemma contains_exactly_the_keys_witness :
  Compiled.compiledIndex 12 scenario = Some (ResourcesIndex scenario)
  /\ contains scenario (Some "aa")
     = Value (existsb (String.eqb "aa") (map Config.key scenario)).
Proof.
  apply (contains_exactly_the_keys 12 scenario "aa" "b").
  - exact scenario_embeddable.
  - exact scenario_ascending.
  - right. left. reflexivity.
  - reflexivity.
Defined.



(** X13: for such inputs, when keys are in ascending order with equal
    neighbours allowed, a key carried by several inputs is answered with
    the first of them. *)
Theorem duplicate_key_gives_its_first_input (indent : nat)
    (inputs : list Config.Input) (i : nat) (input : Config.Input) :
  embeddableInputs inputs ->
  nondecreasing (map Config.key inputs) ->
  nth_error inputs i = Some input ->
  (forall j other, j < i -> nth_error inputs j = Some other ->
                   Config.key other <> Config.key input) ->
  Compiled.compiledIndex indent inputs = Some (ResourcesIndex inputs)
  /\ getResource inputs (Some (Config.key input)) = Value (AtIndex i).
Proof.
  intros He Hs Hi Hfirst. split; [now apply compiledIndex_embeddable|].
  assert (Hne : inputs <> []) by (intros ->; destruct i; discriminate).
  assert (Hp : partition_point (map Config.key inputs) (Config.key input) 0
                 (List.length (map Config.key inputs)) i).
  { apply partition_point_first_occurrence; [assumption|now apply map_nth_error|].
    intros j Hj Hk. rewrite nth_error_map in Hk.
    destruct (nth_error inputs j) as [other|] eqn:E; [|discriminate].
    injection Hk as Hk. exact (Hfirst j other Hj E Hk). }
  rewrite (getResource_at_partition inputs _ i Hne Hp), Hi.
  now rewrite String.eqb_refl.
Qed.

Lemma duplicate_key_gives_its_first_input_witness :
  Compiled.compiledIndex 12 duplicateScenario = Some (ResourcesIndex duplicateScenario)
  /\ getResource duplicateScenario (Some "b") = Value (AtIndex 1).
Proof.
  apply (duplicate_key_gives_its_first_input 12 duplicateScenario 1
           {| Config.key := "b"; Config.filePath := "b1.bin"; Config.size := 5 |}).
  - repeat constructor.
  - repeat constructor.
  - reflexivity.
  - intros [|[|j]] other Hj H; [|lia|lia].
    injection H as <-. discriminate.
Defined.

(** X23: for such inputs with ascending keys, over any range of the
    table, the loop of [lowerBound] ends on the smallest position of the
    range whose key is not less than the query, which is [last] when there
    is none; and when that position is a position of the table,
    [lowerBound] returns what lower bound followed by the confirmation of
    equality gives. *)
Theorem lowerBound_refines_its_reference_inside_the_table
    (indent : nat) (inputs : list Config.Input) (v : string) (first last : nat) :
  embeddableInputs inputs ->
  ascending (map Config.key inputs) ->
  first <= last <= List.length inputs ->
  Compiled.compiledIndex indent inputs = Some (ResourcesIndex inputs)
  /\ lowerBound_loop (ResourcesIndex inputs) compareSlot v first (last - first)
     = Value (smallest_not_less (ResourcesIndex inputs) v first (last - first))
  /\ first <= smallest_not_less (ResourcesIndex inputs) v first (last - first) <= last
  /\ (smallest_not_less (ResourcesIndex inputs) v first (last - first)
      < List.length inputs ->
      lowerBound (ResourcesIndex inputs) compareSlot first last (Some v)
      = Value (lowerBound_spec (ResourcesIndex inputs) first last (Some v))).
Proof.
  intros He Hs Hr. split; [now apply compiledIndex_embeddable|].
  pose proof (ResourcesIndex_keyed inputs) as Hk.
  assert (Hr' : first <= last <= List.length (map Config.key inputs))
    by (rewrite length_map; exact Hr).
  split; [apply (lowerBound_loop_smallest _ _ v first last Hk Hs Hr')|].
  split.
  - pose proof (smallest_not_less_range (ResourcesIndex inputs) v (last - first) first).
    lia.
  - intros Hc. rewrite (lowerBound_against_spec _ _ v first last Hk Hs Hr').
    rewrite ResourcesIndex_length.
    now rewrite (proj2 (Nat.ltb_lt _ _) Hc).
Qed.

Lemma lowerBound_refines_its_reference_inside_the_table_witness :
  Compiled.compiledIndex 12 scenario = Some (ResourcesIndex scenario)
  /\ lowerBound_loop (ResourcesIndex scenario) compareSlot "c" 0 (2 - 0)
     = Value (smallest_not_less (ResourcesIndex scenario) "c" 0 (2 - 0))
  /\ 0 <= smallest_not_less (ResourcesIndex scenario) "c" 0 (2 - 0) <= 2
  /\ (smallest_not_less (ResourcesIndex scenario) "c" 0 (2 - 0)
      < List.length scenario ->
      lowerBound (ResourcesIndex scenario) compareSlot 0 2 (Some "c")
      = Value (lowerBound_spec (ResourcesIndex scenario) 0 2 (Some "c"))).
Proof.
  apply (lowerBound_refines_its_reference_inside_the_table 12 scenario "c" 0 2).
  - exact scenario_embeddable.
  - exact scenario_ascending.
  - simpl. lia.
Defined.

(** What the compiler reads when a key holds an escape sequence: the
    entry written for the key backslash, x, 4, 1 declares the key A, which
    the table of the configured keys does not hold. *)
Example entry_of_an_escaped_key :
  Compiled.compiledIndex 12 escapedKey
  = Some [ {| key := Some "A"; bytes := Some 0%N; size := 2 |} ]
  /\ ResourcesIndex escapedKey
     = [ {| key := Some "\x41"; bytes := Some 0%N; size := 2 |} ]
  /\ ~ embeddableInputs escapedKey.
Proof.
  split; [reflexivity|]. split; [reflexivity|].
  intros H. inversion H as [|? ? He _]. discriminate He.
Qed.

(** * The accessors written and their values *)

(** The text to the left of the last [n] pieces appended. *)
Ltac prefix_at n text :=
  lazymatch n with
  | O => text
  | S ?k => lazymatch text with ?left ++ _ => prefix_at k left end
  end.

(** The text of a function, as the pieces of its lines. *)
Ltac function_text :=
  unfold Cxx.functionText, Cxx.getResourceOfNothing, Cxx.containsFunction,
    Cxx.getTextFunction, Cxx.beginFunction, Cxx.endFunction;
  cbn [append Cxx.bodyText Cxx.statementText Cxx.expressionText
         Cxx.objectText Cxx.result Cxx.name Cxx.parameters Cxx.body].

(** The last [n] pieces appended, nested to the right. *)
Ltac suffix_from n text rest :=
  lazymatch n with
  | O => rest
  | S ?k =>
      lazymatch text with ?left ++ ?piece => suffix_from k left (piece ++ rest) end
  end.

Ltac suffix_of n text :=
  lazymatch n with
  | S ?k => lazymatch text with ?left ++ ?piece => suffix_from k left piece end
  end.

(** A text built by appending on the right is the text to the left of
    its last [n] pieces, the text given, and its last [m] pieces. *)
Ltac split_text n m :=
  lazymatch goal with
  | |- exists before after, ?text = _ =>
      let prefix := prefix_at n text in
      let suffix := suffix_of m text in
      exists prefix, suffix;
      generalize prefix; intros before;
      function_text; rewrite ?append_assoc; reflexivity
  end.

(** The same, when the text given ends the text. *)
Ltac ends_with n :=
  lazymatch goal with
  | |- exists before, ?text = _ =>
      let prefix := prefix_at n text in
      exists prefix;
      generalize prefix; intros before;
      function_text; rewrite ?append_assoc; reflexivity
  end.

Section AccessorValues.

Variable tabDefault : nat.
Variable this : LegacyCppCodeGenerator.

(** The last four functions [writeAccessFunction] writes are [contains],
    [getText], [begin] and [end], an empty line between them. *)
Lemma writeAccessFunction_functions os :
  exists before,
    content (writeAccessFunction tabDefault this os)
    = before
      ++ Cxx.functionText (tab this tabDefault) (tab this 2) Cxx.containsFunction
      ++ nl
      ++ Cxx.functionText (tab this tabDefault) (tab this 2) Cxx.getTextFunction
      ++ nl
      ++ Cxx.functionText (tab this tabDefault) (tab this 2)
           (Cxx.beginFunction (isEmpty (Config.inputs (_configuration this))))
      ++ nl
      ++ Cxx.functionText (tab this tabDefault) (tab this 2)
           (Cxx.endFunction (isEmpty (Config.inputs (_configuration this)))).
Proof.
  unfold writeAccessFunction.
  destruct (isEmpty (Config.inputs (_configuration this)));
    cbn [negb content put]; ends_with 38.
Qed.

(** [contains] and [getText] stand between what precedes them and the
    two ends. *)
Lemma writeAccessFunction_contains_getText os :
  exists before after,
    content (writeAccessFunction tabDefault this os)
    = before
      ++ (Cxx.functionText (tab this tabDefault) (tab this 2) Cxx.containsFunction
          ++ nl
          ++ Cxx.functionText (tab this tabDefault) (tab this 2) Cxx.getTextFunction)
      ++ after.
Proof.
  unfold writeAccessFunction.
  destruct (isEmpty (Config.inputs (_configuration this)));
    cbn [negb content put]; split_text 38 18.
Qed.

(** The sentinel is declared, whatever the inputs. *)
Lemma writeAccessFunction_sentinel os :
  occurs (ln "static constexpr Resource const NullResource{nullptr, 0u, nullptr};")
    (content (writeAccessFunction tabDefault this os)).
Proof.
  unfold occurs, writeAccessFunction.
  destruct (isEmpty (Config.inputs (_configuration this)));
    cbn [negb content put]; [split_text 52 51|split_text 60 59].
Qed.

Variable inputs : list Config.Input.

Lemma call_contains k :
  Cxx.call Cxx.containsFunction (ResourcesIndex inputs) (getResource inputs) k
  = (b <- contains inputs k ;; Value (Cxx.Boolean b)).
Proof.
  unfold Cxx.call, contains. cbn.
  destruct (getResource inputs k); reflexivity.
Qed.

Lemma call_getText k :
  Cxx.call Cxx.getTextFunction (ResourcesIndex inputs) (getResource inputs) k
  = (v <- getText inputs k ;; Value (Cxx.View v)).
Proof.
  unfold Cxx.call, getText. cbn.
  destruct (getResource inputs k) as [r|]; [|reflexivity]. cbn.
  destruct (deref (ResourcesIndex inputs) r); reflexivity.
Qed.

Lemma call_begin_end k :
  Cxx.call (Cxx.beginFunction (isEmpty inputs)) (ResourcesIndex inputs)
    (getResource inputs) k = Value (Cxx.Pointer (begin inputs))
  /\ Cxx.call (Cxx.endFunction (isEmpty inputs)) (ResourcesIndex inputs)
       (getResource inputs) k = Value (Cxx.Pointer (end_ inputs)).
Proof. destruct inputs; split; reflexivity. Qed.

End AccessorValues.

(** C7: [writeAccessFunction] writes, for every configuration, the
    sentinel with null key, size 0 and null bytes, and the functions
    [contains] and [getText] with the bodies shown; the value of the first
    is whether the reference returned by [getResource] is another address
    than the sentinel's, the value of the second is the view built from the
    bytes and size of the record referred to, which is always there to
    read; on the sentinel the view is the null pointer with length zero. *)
Theorem contains_and_getText_follow_getResource
    (tabDefault : nat) (this : LegacyCppCodeGenerator) (os : ostream) (k : c_str) :
  let inputs := Config.inputs (_configuration this) in
  let margin := tab this tabDefault in
  let indentation := tab this 2 in
  occurs (ln "static constexpr Resource const NullResource{nullptr, 0u, nullptr};")
    (content (writeAccessFunction tabDefault this os))
  /\ (exists before after,
        content (writeAccessFunction tabDefault this os)
        = before
          ++ (Cxx.functionText margin indentation Cxx.containsFunction ++ nl
              ++ Cxx.functionText margin indentation Cxx.getTextFunction)
          ++ after)
  /\ Cxx.functionText margin indentation Cxx.containsFunction
     = margin ++ ln "inline constexpr bool contains(char const* key)"
       ++ margin ++ ln "{"
       ++ indentation ++ ln "return &getResource(key) != &details::NullResource;"
       ++ margin ++ ln "}"
  /\ Cxx.functionText margin indentation Cxx.getTextFunction
     = margin ++ ln "inline constexpr std::string_view getText(char const* key)"
       ++ margin ++ ln "{"
       ++ indentation ++ ln "auto const& resource = getResource(key);"
       ++ nl
       ++ indentation ++ ln "return std::string_view{resource.bytes, resource.size};"
       ++ margin ++ ln "}"
  /\ Cxx.call Cxx.containsFunction (ResourcesIndex inputs) (getResource inputs) k
     = (b <- contains inputs k ;; Value (Cxx.Boolean b))
  /\ Cxx.call Cxx.getTextFunction (ResourcesIndex inputs) (getResource inputs) k
     = (v <- getText inputs k ;; Value (Cxx.View v))
  /\ match getResource inputs k with
     | Value r =>
         contains inputs k = Value (negb (iterator_eqb r AtNullResource))
         /\ match r with
            | AtNullResource =>
                contains inputs k = Value false
                /\ getText inputs k = Value {| data := None; length := 0 |}
            | AtIndex i =>
                contains inputs k = Value true
                /\ exists resource,
                     nth_error (ResourcesIndex inputs) i = Some resource
                     /\ getText inputs k
                        = Value {| data := bytes resource; length := size resource |}
            end
     | UB => contains inputs k = UB /\ getText inputs k = UB
     end.
Proof.
  intros inputs margin indentation.
  split; [apply writeAccessFunction_sentinel|].
  split; [apply writeAccessFunction_contains_getText|].
  split; [subst margin indentation; function_text; now rewrite ?append_assoc|].
  split; [subst margin indentation; function_text; now rewrite ?append_assoc|].
  split; [apply call_contains|].
  split; [apply call_getText|].
  unfold contains, getText.
  destruct (getResource inputs k) as [r|] eqn:Hr; cbn [bind]; [|split; reflexivity].
  split; [reflexivity|]. destruct r as [|i]; cbn [deref bind iterator_eqb negb].
  - split; reflexivity.
  - split; [reflexivity|].
    unfold getResource in Hr. destruct inputs as [|x rest]; [discriminate|].
    cbv zeta in Hr.
    destruct (lowerBound _ _ _ _ _) as [it|]; cbn [bind] in Hr; [|discriminate].
    destruct (Nat.eqb it _); [discriminate|].
    unfold load in *. destruct (nth_error _ it) as [resource|] eqn:E;
      cbn [bind] in Hr; [|discriminate].
    injection Hr as <-. rewrite E. exists resource. split; reflexivity.
Qed.

(** C4: for an empty input list [writeResources] writes nothing and opens no
    file; [writeAccessFunction] writes exactly the sentinel, the iterator
    type and five functions with constant bodies; this text names no
    predicate, search, index table or count; and the functions written
    give the sentinel, false, the empty view, and the sentinel's address
    for both ends, whatever the key. *)
Theorem empty_input_list_gives_constant_accessors
    (configurationFilePath : Config.path) (tabulationSize tabDefault : nat)
    (fs : FileSystem.t) (os : ostream) (k : c_str) :
  let this := create {| Config.configurationFilePath := configurationFilePath;
                        Config.tabulationSize := tabulationSize;
                        Config.inputs := [] |} in
  let text := content (writeAccessFunction tabDefault this Stream.empty) in
  let margin := tab this tabDefault in
  let indentation := tab this 2 in
  writeResources this fs os = (fs, os, Returned tt)
  /\ content (writeAccessFunction tabDefault this os) = content os ++ text
  /\ text
     = tab this 1 ++ ln "namespace details {"
       ++ tab this 2
       ++ ln "static constexpr Resource const NullResource{nullptr, 0u, nullptr};"
       ++ tab this 1 ++ ln "} // namespace details" ++ nl
       ++ tab this 1 ++ ln "using ResourceIterator = Resource const*;" ++ nl
       ++ margin ++ ln "inline constexpr Resource const& getResource(char const*)"
       ++ margin ++ ln "{"
       ++ indentation ++ ln "return details::NullResource;"
       ++ margin ++ ln "}" ++ nl
       ++ margin ++ ln "inline constexpr bool contains(char const* key)"
       ++ margin ++ ln "{"
       ++ indentation ++ ln "return &getResource(key) != &details::NullResource;"
       ++ margin ++ ln "}" ++ nl
       ++ margin ++ ln "inline constexpr std::string_view getText(char const* key)"
       ++ margin ++ ln "{"
       ++ indentation ++ ln "auto const& resource = getResource(key);" ++ nl
       ++ indentation ++ ln "return std::string_view{resource.bytes, resource.size};"
       ++ margin ++ ln "}" ++ nl
       ++ margin ++ ln "inline constexpr ResourceIterator begin()"
       ++ margin ++ ln "{"
       ++ indentation ++ ln "return &details::NullResource;"
       ++ margin ++ ln "}" ++ nl
       ++ margin ++ ln "inline constexpr ResourceIterator end()"
       ++ margin ++ ln "{"
       ++ indentation ++ ln "return &details::NullResource;"
       ++ margin ++ ln "}"
  /\ text
     = tab this 1 ++ ln "namespace details {"
       ++ tab this 2
       ++ ln "static constexpr Resource const NullResource{nullptr, 0u, nullptr};"
       ++ tab this 1 ++ ln "} // namespace details" ++ nl
       ++ tab this 1 ++ ln "using ResourceIterator = Resource const*;" ++ nl
       ++ Cxx.functionText margin indentation Cxx.getResourceOfNothing ++ nl
       ++ Cxx.functionText margin indentation Cxx.containsFunction ++ nl
       ++ Cxx.functionText margin indentation Cxx.getTextFunction ++ nl
       ++ Cxx.functionText margin indentation (Cxx.beginFunction true) ++ nl
       ++ Cxx.functionText margin indentation (Cxx.endFunction true)
  /\ ~ occurs "compareSlot" text
  /\ ~ occurs "lowerBound" text
  /\ ~ occurs "ResourcesIndex" text
  /\ ~ occurs "ResourcesCount" text
  /\ Cxx.getResourceWithoutInputs k = Value AtNullResource
  /\ Cxx.call Cxx.containsFunction [] Cxx.getResourceWithoutInputs k
     = Value (Cxx.Boolean false)
  /\ Cxx.call Cxx.getTextFunction [] Cxx.getResourceWithoutInputs k
     = Value (Cxx.View {| data := None; length := 0 |})
  /\ Cxx.call (Cxx.beginFunction true) [] Cxx.getResourceWithoutInputs k
     = Value (Cxx.Pointer AtNullResource)
  /\ Cxx.call (Cxx.endFunction true) [] Cxx.getResourceWithoutInputs k
     = Value (Cxx.Pointer AtNullResource)
  /\ getResource [] k = Value AtNullResource
  /\ contains [] k = Value false
  /\ getText [] k = Value {| data := None; length := 0 |}
  /\ begin [] = AtNullResource
  /\ end_ [] = AtNullResource.
Proof.
  intros this text margin indentation.
  assert (Hblank : squeeze (_tabulation this) = EmptyString)
    by apply squeeze_create_tabulation.
  split; [reflexivity|].
  split; [apply writeAccessFunction_appends|].
  split.
  { subst text margin indentation. unfold writeAccessFunction.
    cbn [isEmpty Config.inputs _configuration this create negb content put
           Stream.empty].
    text_norm. reflexivity. }
  split.
  { subst text margin indentation. unfold writeAccessFunction.
    cbn [isEmpty Config.inputs _configuration this create negb content put
           Stream.empty].
    function_text. text_norm. reflexivity. }
  repeat split;
    try (apply (writeAccessFunction_empty_lacks tabDefault this eq_refl Hblank);
         vm_compute; reflexivity).
Qed.

Lemma tab_create cfg count :
  tab (create cfg) count = spaces (count * Config.tabulationSize cfg).
Proof.
  induction count as [|n IH]; simpl; [reflexivity|].
  rewrite IH, spaces_app. f_equal. lia.
Qed.

(** X24: for inputs whose entries say what the configuration says, the
    entries [writeIndex] writes initialise one record per input, in the
    order of the inputs, each with the key of its input, its declared size
    and the array of its position; [writeAccessFunction] ends with [begin]
    and [end], whose values are the first position of this table and the
    position after its last. *)
Theorem begin_to_end_traverses_the_inputs_in_order
    (cfg : Config.Configuration) (tabDefault : nat) (os : ostream) (k : c_str) :
  let this := create cfg in
  let inputs := Config.inputs cfg in
  let margin := tab this tabDefault in
  let indentation := tab this 2 in
  embeddableInputs inputs ->
  inputs <> [] ->
  Compiled.readEntries Compiled.Indent [] (indexText (tab this 3) inputs 0)
  = Some (ResourcesIndex inputs)
  /\ List.length (ResourcesIndex inputs) = List.length inputs
  /\ (forall i input,
        nth_error inputs i = Some input ->
        deref (ResourcesIndex inputs) (AtIndex i)
        = Value {| key := Some (Config.key input);
                   bytes := Some (N.of_nat i);
                   size := Config.size input |})
  /\ (exists before,
        content (writeAccessFunction tabDefault this os)
        = before
          ++ Cxx.functionText margin indentation (Cxx.beginFunction false) ++ nl
          ++ Cxx.functionText margin indentation (Cxx.endFunction false))
  /\ Cxx.functionText margin indentation (Cxx.beginFunction false)
     = margin ++ ln "inline constexpr ResourceIterator begin()"
       ++ margin ++ ln "{"
       ++ indentation ++ ln "return std::begin(details::ResourcesIndex);"
       ++ margin ++ ln "}"
  /\ Cxx.functionText margin indentation (Cxx.endFunction false)
     = margin ++ ln "inline constexpr ResourceIterator end()"
       ++ margin ++ ln "{"
       ++ indentation ++ ln "return std::end(details::ResourcesIndex);"
       ++ margin ++ ln "}"
  /\ Cxx.call (Cxx.beginFunction false) (ResourcesIndex inputs) (getResource inputs) k
     = Value (Cxx.Pointer (AtIndex 0))
  /\ Cxx.call (Cxx.endFunction false) (ResourcesIndex inputs) (getResource inputs) k
     = Value (Cxx.Pointer (AtIndex (List.length inputs)))
  /\ begin inputs = AtIndex 0
  /\ end_ inputs = AtIndex (List.length inputs).
Proof.
  intros this inputs margin indentation He Hne.
  split.
  { subst this. rewrite tab_create. unfold ResourcesIndex.
    now rewrite (readEntries_indexText _ inputs 0 [] He). }
  split; [apply ResourcesIndex_length|].
  split.
  { intros i input Hi. cbn [deref]. unfold load.
    now rewrite (indexEntries_nth inputs 0 i input Hi
                   : nth_error (ResourcesIndex inputs) i = _). }
  split.
  { destruct (writeAccessFunction_functions tabDefault this os) as (before & H).
    assert (Hempty : isEmpty (Config.inputs (_configuration this)) = false).
    { change (Config.inputs (_configuration this)) with inputs.
      destruct inputs; [congruence|reflexivity]. }
    rewrite Hempty in H.
    exists (before
            ++ Cxx.functionText margin indentation Cxx.containsFunction ++ nl
            ++ Cxx.functionText margin indentation Cxx.getTextFunction ++ nl).
    rewrite H. subst margin indentation. now rewrite !append_assoc. }
  split; [subst margin indentation; function_text; now rewrite ?append_assoc|].
  split; [subst margin indentation; function_text; now rewrite ?append_assoc|].
  split; [reflexivity|].
  split; [cbn; now rewrite ResourcesIndex_length|].
  clear He. subst inputs. destruct (Config.inputs cfg) as [|x rest]; [congruence|].
  split; [reflexivity|]. cbn [end_]. now rewrite ResourcesIndex_length.
Qed.

Lemma begin_to_end_traverses_the_inputs_in_order_witness :
  Compiled.readEntries Compiled.Indent []
    (indexText (tab (create scenarioConfiguration) 3) scenario 0)
  = Some (ResourcesIndex scenario)
  /\ List.length (ResourcesIndex scenario) = List.length scenario
  /\ (forall i input,
        nth_error scenario i = Some input ->
        deref (ResourcesIndex scenario) (AtIndex i)
        = Value {| key := Some (Config.key input);
                   bytes := Some (N.of_nat i);
                   size := Config.size input |})
  /\ (exists before,
        content (writeAccessFunction 1 (create scenarioConfiguration) Stream.empty)
        = before
          ++ Cxx.functionText (tab (create scenarioConfiguration) 1)
               (tab (create scenarioConfiguration) 2) (Cxx.beginFunction false) ++ nl
          ++ Cxx.functionText (tab (create scenarioConfiguration) 1)
               (tab (create scenarioConfiguration) 2) (Cxx.endFunction false))
  /\ Cxx.functionText (tab (create scenarioConfiguration) 1)
       (tab (create scenarioConfiguration) 2) (Cxx.beginFunction false)
     = tab (create scenarioConfiguration) 1
       ++ ln "inline constexpr ResourceIterator begin()"
       ++ tab (create scenarioConfiguration) 1 ++ ln "{"
       ++ tab (create scenarioConfiguration) 2
       ++ ln "return std::begin(details::ResourcesIndex);"
       ++ tab (create scenarioConfiguration) 1 ++ ln "}"
  /\ Cxx.functionText (tab (create scenarioConfiguration) 1)
       (tab (create scenarioConfiguration) 2) (Cxx.endFunction false)
     = tab (create scenarioConfiguration) 1
       ++ ln "inline constexpr ResourceIterator end()"
       ++ tab (create scenarioConfiguration) 1 ++ ln "{"
       ++ tab (create scenarioConfiguration) 2
       ++ ln "return std::end(details::ResourcesIndex);"
       ++ tab (create scenarioConfiguration) 1 ++ ln "}"
  /\ Cxx.call (Cxx.beginFunction false) (ResourcesIndex scenario)
       (getResource scenario) (Some "b")
     = Value (Cxx.Pointer (AtIndex 0))
  /\ Cxx.call (Cxx.endFunction false) (ResourcesIndex scenario)
       (getResource scenario) (Some "b")
     = Value (Cxx.Pointer (AtIndex (List.length scenario)))
  /\ begin scenario = AtIndex 0
  /\ end_ scenario = AtIndex (List.length scenario).
Proof.
  apply (begin_to_end_traverses_the_inputs_in_order scenarioConfiguration 1
           Stream.empty (Some "b")).
  - exact scenario_embeddable.
  - discriminate.
Defined.

(** * The names of the document *)

Section NamingFacts.

Lemma toupper_upperCase c : toupper c = Naming.upperCase c.
Proof. destruct c as [[] [] [] [] [] [] [] []]; reflexivity. Qed.

Lemma tolower_lowerCase c : tolower c = Naming.lowerCase c.
Proof. destruct c as [[] [] [] [] [] [] [] []]; reflexivity. Qed.

Lemma toUpper_eachCharacter s : Naming.eachCharacter Naming.upperCase s (toUpper s).
Proof.
  split; [apply length_transform|].
  intros i. unfold toUpper. rewrite get_transform.
  destruct (String.get i s); [cbn; now rewrite toupper_upperCase|reflexivity].
Qed.

Lemma toLower_eachCharacter s : Naming.eachCharacter Naming.lowerCase s (toLower s).
Proof.
  split; [apply length_transform|].
  intros i. unfold toLower. rewrite get_transform.
  destruct (String.get i s); [cbn; now rewrite tolower_lowerCase|reflexivity].
Qed.

Lemma has_separator p : Naming.has "/" p = Path.hasSeparator p.
Proof. induction p as [|c p IH]; simpl; [reflexivity|now rewrite IH]. Qed.

Lemma endsWithSeparator_cons c directory :
  Naming.endsWithSeparator directory = true ->
  Naming.endsWithSeparator (String c directory) = true.
Proof. destruct directory; [discriminate|auto]. Qed.

(** A path is a directory part followed by its file name. *)
Lemma filename_decompose p :
  exists directory,
    p = directory ++ Path.filename p
    /\ (directory = EmptyString \/ Naming.endsWithSeparator directory = true)
    /\ Naming.has "/" (Path.filename p) = false.
Proof.
  induction p as [|c rest (directory & Hp & Hd & Hf)].
  - exists EmptyString. repeat split. now left.
  - cbn [Path.filename]. destruct (Path.hasSeparator rest) eqn:Hs.
    + exists (String c directory). split; [cbn; now rewrite <- Hp|].
      split; [|exact Hf]. right.
      destruct Hd as [->|Hd]; [|now apply endsWithSeparator_cons].
      cbn in Hp. rewrite <- Hp, has_separator in Hf. congruence.
    + destruct (Ascii.eqb_spec c "/") as [->|Hc].
      * exists "/". split; [reflexivity|]. split; [now right|].
        now rewrite has_separator.
      * exists EmptyString. split; [reflexivity|]. split; [now left|].
        cbn [Naming.has]. rewrite has_separator, Hs.
        destruct (Ascii.eqb_spec c "/"); [contradiction|reflexivity].
Qed.

Lemma beforeLastDot_Some f :
  forall s, Path.beforeLastDot f = Some s ->
    exists tail, f = s ++ String "." tail /\ Naming.has "." tail = false.
Proof.
  induction f as [|c rest IH]; intros s H; [discriminate|].
  cbn [Path.beforeLastDot] in H.
  destruct (Path.beforeLastDot rest) as [s'|] eqn:E.
  - injection H as <-. destruct (IH s' eq_refl) as (tail & -> & Ht).
    exists tail. split; [reflexivity|exact Ht].
  - destruct (Ascii.eqb_spec c ".") as [->|Hc]; [|discriminate].
    injection H as <-. exists rest. split; [reflexivity|].
    clear IH. induction rest as [|x rest IHr]; [reflexivity|].
    cbn [Path.beforeLastDot] in E.
    destruct (Path.beforeLastDot rest); [discriminate|].
    destruct (Ascii.eqb x ".") eqn:Ex; [discriminate|].
    cbn [Naming.has]. rewrite Ex. now apply IHr.
Qed.

Lemma beforeLastDot_None f :
  Path.beforeLastDot f = None -> Naming.has "." f = false.
Proof.
  induction f as [|x rest IH]; intros E; [reflexivity|].
  cbn [Path.beforeLastDot] in E.
  destruct (Path.beforeLastDot rest); [discriminate|].
  destruct (Ascii.eqb x ".") eqn:Ex; [discriminate|].
  cbn [Naming.has]. rewrite Ex. now apply IH.
Qed.

(** [Path.stem] gives the stem of a path. *)
Lemma stem_isStemOf p : Naming.isStemOf p (Path.stem p).
Proof.
  destruct (filename_decompose p) as (directory & Hp & Hd & Hf).
  unfold Naming.isStemOf, Path.stem. cbv zeta.
  destruct (String.eqb_spec (Path.filename p) ".") as [E1|N1].
  { exists directory, EmptyString. cbn [orb]. rewrite append_nil_r.
    repeat split; try assumption. left. split; [reflexivity|]. now left. }
  destruct (String.eqb_spec (Path.filename p) "..") as [E2|N2].
  { exists directory, EmptyString. cbn [orb]. rewrite append_nil_r.
    repeat split; try assumption. left. split; [reflexivity|]. right. now left. }
  cbn [orb].
  destruct (Path.filename p) as [|c rest] eqn:Ef.
  { exists directory, EmptyString. repeat split; try assumption.
    left. split; [reflexivity|]. right. now right. }
  destruct (Path.beforeLastDot rest) as [s|] eqn:Eb.
  - destruct (beforeLastDot_Some rest s Eb) as (tail & -> & Ht).
    exists directory, (String "." tail). repeat split; try assumption.
    right. exists tail. repeat split; [exact Ht|discriminate|exact N2].
  - exists directory, EmptyString. rewrite append_nil_r.
    repeat split; try assumption.
    left. split; [reflexivity|]. right. right.
    now apply beforeLastDot_None.
Qed.

End NamingFacts.

(** C9: the guard is the fixed prefix followed by the stem of the base name
    of the configuration file with each lower-case letter replaced by its
    upper-case letter, the namespace is the fixed root followed by the same
    stem with each upper-case letter replaced by its lower-case letter;
    header and footer carry them, nothing else of the configuration enters
    them, and another configuration of the same file name gives the same
    guard, namespace, header and footer lines and the same array name at
    each position, whatever its inputs hold. *)
Theorem names_derive_from_configuration_stem
    (configurationFilePath : Config.path) (tabulationSize : nat)
    (inputs : list Config.Input) (os : ostream)
    (tabulationSize' : nat) (inputs' : list Config.Input) :
  let this := create {| Config.configurationFilePath := configurationFilePath;
                        Config.tabulationSize := tabulationSize;
                        Config.inputs := inputs |} in
  let other := create {| Config.configurationFilePath := configurationFilePath;
                         Config.tabulationSize := tabulationSize';
                         Config.inputs := inputs' |} in
  exists stem upper lower,
    let guard := "RESCOM_GENERATED_FILE_" ++ upper in
    let namespace := "rescom::" ++ lower in
    Naming.isStemOf configurationFilePath stem
    /\ Naming.eachCharacter Naming.upperCase stem upper
    /\ Naming.eachCharacter Naming.lowerCase stem lower
    /\ _headerProtectionMacroName this = guard
    /\ (exists declarations,
          content (writeFileHeader this os)
          = content os ++ ln "// Generated by Rescom"
            ++ ln ("#ifndef " ++ guard) ++ ln ("#define " ++ guard)
            ++ ln "#include <iterator>" ++ ln "#include <string_view>"
            ++ ln "#include <cstring>" ++ nl
            ++ ln ("namespace " ++ namespace) ++ ln "{" ++ declarations)
    /\ content (writeFileFooter this os)
       = content os ++ ln ("} // namespace " ++ namespace) ++ ln ("#endif // " ++ guard)
    /\ _headerProtectionMacroName other = guard
    /\ (exists declarations,
          content (writeFileHeader other os)
          = content os ++ ln "// Generated by Rescom"
            ++ ln ("#ifndef " ++ guard) ++ ln ("#define " ++ guard)
            ++ ln "#include <iterator>" ++ ln "#include <string_view>"
            ++ ln "#include <cstring>" ++ nl
            ++ ln ("namespace " ++ namespace) ++ ln "{" ++ declarations)
    /\ content (writeFileFooter other os)
       = content os ++ ln ("} // namespace " ++ namespace) ++ ln ("#endif // " ++ guard)
    /\ forall (i : N) (input input' : Config.Input) (bytes bytes' : list Byte.byte),
         exists name,
           content (writeResource this input i bytes os)
           = content os ++ tab this 2 ++ "static constexpr char const " ++ name
             ++ "[] = {" ++ elements bytes 0 ++ ln "};"
           /\ content (writeResource other input' i bytes' os)
              = content os ++ tab other 2 ++ "static constexpr char const " ++ name
                ++ "[] = {" ++ elements bytes' 0 ++ ln "};".
Proof.
  intros this other.
  exists (Path.stem configurationFilePath),
         (toUpper (Path.stem configurationFilePath)),
         (toLower (Path.stem configurationFilePath)).
  intros guard namespace.
  assert (Hheader : forall g : LegacyCppCodeGenerator,
            _headerProtectionMacroName g = guard ->
            resourceFileStem g = toLower (Path.stem configurationFilePath) ->
            exists declarations,
              content (writeFileHeader g os)
              = content os ++ ln "// Generated by Rescom"
                ++ ln ("#ifndef " ++ guard) ++ ln ("#define " ++ guard)
                ++ ln "#include <iterator>" ++ ln "#include <string_view>"
                ++ ln "#include <cstring>" ++ nl
                ++ ln ("namespace " ++ namespace) ++ ln "{" ++ declarations).
  { intros g Hg Hn.
    exists (tab g 1 ++ ln "struct Resource"
            ++ tab g 1 ++ ln "{"
            ++ tab g 2 ++ ln "char const* const key;"
            ++ tab g 2 ++ ln "char const* const bytes;"
            ++ tab g 2 ++ ln "unsigned int const size;"
            ++ nl
            ++ tab g 2
            ++ ln "constexpr Resource(char const* key, unsigned int size, char const* bytes)"
            ++ tab g 2 ++ ln ": key(key), bytes(bytes), size(size) {}"
            ++ tab g 1 ++ ln "};" ++ nl).
    unfold writeFileHeader, Includes. rewrite Hg, Hn.
    unfold namespace, guard.
    change (tab g 0) with EmptyString.
    cbn [writeIncludes NamespaceForResourceData].
    text_norm. reflexivity. }
  assert (Hfooter : forall g : LegacyCppCodeGenerator,
            _headerProtectionMacroName g = guard ->
            resourceFileStem g = toLower (Path.stem configurationFilePath) ->
            content (writeFileFooter g os)
            = content os ++ ln ("} // namespace " ++ namespace)
              ++ ln ("#endif // " ++ guard)).
  { intros g Hg Hn. unfold writeFileFooter. rewrite Hg, Hn.
    unfold namespace, guard.
    change (tab g 0) with EmptyString.
    cbn [NamespaceForResourceData]. text_norm. reflexivity. }
  split; [apply stem_isStemOf|].
  split; [apply toUpper_eachCharacter|].
  split; [apply toLower_eachCharacter|].
  split; [reflexivity|].
  split; [apply (Hheader this); reflexivity|].
  split; [apply (Hfooter this); reflexivity|].
  split; [reflexivity|].
  split; [apply (Hheader other); reflexivity|].
  split; [apply (Hfooter other); reflexivity|].
  intros i input input' bytes bytes'. exists (makeResourceName i).
  split; apply writeResource_content.
Qed.
